(** * Expected-returns estimators of PyPortfolioOpt: a shallow embedding

    This development embeds [pypfopt/expected_returns.py] and proves the
    properties its specification states about it.

    Numbers.  The module computes on IEEE-754 doubles held in pandas and
    Spark tables.  The embedding keeps the special values the code can
    meet (NaN, which pandas reads as "missing", and the two infinities),
    and computes on finite values with exact real arithmetic: rounding,
    overflow and the sign of zero are not modelled.  Equalities proved
    here are therefore the exact identities that the floating-point
    results approximate.

    Objects.  pandas tables are mutable Python objects.  The estimators
    receive references into a store of tables, so that aliasing
    ([returns = prices]) and in-place updates ([returns["mkt"] = ...])
    are visible in the model. *)

From Stdlib Require Import Reals Lra Lia ZArith List String Ascii.
From Stdlib Require Import Sorting.Permutation.
From stdpp Require Import base option list gmap strings sorting.

Open Scope R_scope.

(** ** Floating-point values *)

Inductive float : Type :=
| Num (x : R)
| PInf
| NInf
| NaN.

Definition Rltb (x y : R) : bool := if Rlt_dec x y then true else false.
Definition Reqb (x y : R) : bool := if Req_dec_T x y then true else false.

Definition is_int (y : R) : bool := Reqb (IZR (Int_part y)) y.
Definition is_odd_int (y : R) : bool := is_int y && Z.odd (Int_part y).

(** [x != x] in Python; pandas' [isna] on a float cell. *)
Definition isnan (a : float) : bool :=
  match a with NaN => true | _ => false end.

Definition notna (a : float) : bool := negb (isnan a).

(** [np.isfinite]. *)
Definition isfinite (a : float) : bool :=
  match a with Num _ => true | _ => false end.

Definition fneg (a : float) : float :=
  match a with
  | Num x => Num (- x)
  | PInf => NInf
  | NInf => PInf
  | NaN => NaN
  end.

Definition fadd (a b : float) : float :=
  match a, b with
  | NaN, _ | _, NaN => NaN
  | Num x, Num y => Num (x + y)
  | PInf, NInf | NInf, PInf => NaN
  | PInf, _ | _, PInf => PInf
  | NInf, _ | _, NInf => NInf
  end.

Definition fsub (a b : float) : float := fadd a (fneg b).

(** An infinity of the sign of [x]; NaN for [x = 0]. *)
Definition inf_of_sign (x : R) : float :=
  if Rltb 0 x then PInf else if Rltb x 0 then NInf else NaN.

Definition fmul (a b : float) : float :=
  match a, b with
  | NaN, _ | _, NaN => NaN
  | Num x, Num y => Num (x * y)
  | Num x, PInf | PInf, Num x => inf_of_sign x
  | Num x, NInf | NInf, Num x => inf_of_sign (- x)
  | PInf, PInf | NInf, NInf => PInf
  | PInf, NInf | NInf, PInf => NInf
  end.

(** Division; a finite non-zero value over zero is an infinity of the
    sign of the numerator, and [0 / 0] is NaN. *)
Definition fdiv (a b : float) : float :=
  match a, b with
  | NaN, _ | _, NaN => NaN
  | Num x, Num y => if Reqb y 0 then inf_of_sign x else Num (x / y)
  | Num _, PInf | Num _, NInf => Num 0
  | PInf, Num y => if Rltb y 0 then NInf else PInf
  | NInf, Num y => if Rltb y 0 then PInf else NInf
  | PInf, PInf | PInf, NInf | NInf, PInf | NInf, NInf => NaN
  end.

(** [np.log]. *)
Definition flog (a : float) : float :=
  match a with
  | Num x => if Rltb 0 x then Num (ln x)
             else if Reqb x 0 then NInf else NaN
  | PInf => PInf
  | NInf => NaN
  | NaN => NaN
  end.

(** [np.exp]. *)
Definition fexp (a : float) : float :=
  match a with
  | Num x => Num (exp x)
  | PInf => PInf
  | NInf => Num 0
  | NaN => NaN
  end.

(** [**] on numpy doubles (C [pow]). *)
Definition fpow (a b : float) : float :=
  match a, b with
  | Num x, Num y =>
      if Reqb y 0 then Num 1
      else if Rltb 0 x then Num (Rpower x y)
      else if Reqb x 0 then (if Rltb 0 y then Num 0 else PInf)
      else if is_int y
           then Num ((if Z.odd (Int_part y) then -1 else 1) * Rpower (- x) y)
           else NaN
  | NaN, Num y => if Reqb y 0 then Num 1 else NaN
  | PInf, Num y => if Reqb y 0 then Num 1
                   else if Rltb 0 y then PInf else Num 0
  | NInf, Num y => if Reqb y 0 then Num 1
                   else if Rltb 0 y
                        then (if is_odd_int y then NInf else PInf)
                        else Num 0
  | Num x, NaN => if Reqb x 1 then Num 1 else NaN
  | Num x, PInf => if Rltb (Rabs x) 1 then Num 0
                   else if Reqb (Rabs x) 1 then Num 1 else PInf
  | Num x, NInf => if Rltb (Rabs x) 1 then PInf
                   else if Reqb (Rabs x) 1 then Num 1 else Num 0
  | PInf, PInf | NInf, PInf => PInf
  | PInf, NInf | NInf, NInf => Num 0
  | _, NaN | NaN, _ => NaN
  end.


(** ** Exceptions *)

(** A raised Python exception: its class name and its message. *)
Record exn : Type := Raise { exn_class : string; exn_msg : string }.

Definition result (A : Type) : Type := (exn + A)%type.

Definition ok {A} (a : A) : result A := inr a.
Definition raise {A} (cls msg : string) : result A := inl (Raise cls msg).

Definition rbind {A B} (m : result A) (k : A -> result B) : result B :=
  match m with
  | inl e => inl e
  | inr a => k a
  end.

(** ** pandas tables *)

Abbreviation label := string (only parsing).

(** A [pd.DataFrame] holding doubles, stored column by column: the row
    labels (dates) and, per column, its label and its cells, one cell
    per row label. *)
Record DataFrame : Type := mkDF {
  index : list Z;
  cols : list (label * list float)
}.

(** A [pd.Series] labelled by column names, as the reductions over a
    table return it. *)
Definition Series : Type := list (label * float).

Definition columns (df : DataFrame) : list label := map fst (cols df).

Definition nrows (df : DataFrame) : nat := length (index df).

(** Every column has one cell per row label. *)
Definition well_formed (df : DataFrame) : Prop :=
  Forall (fun c => length (snd c) = nrows df) (cols df).

(** Cell-wise application of [f]: [1 + df], [np.log(df)], [np.exp(df)]. *)
Definition map_frame (f : float -> float) (df : DataFrame) : DataFrame :=
  mkDF (index df) (map (fun c => (fst c, map f (snd c))) (cols df)).

Definition cell (c : list float) (i : nat) : float := nth i c NaN.

(** The cells of row [i], in column order. *)
Definition row_at (df : DataFrame) (i : nat) : list float :=
  map (fun c => cell (snd c) i) (cols df).

(** [Series.ffill()]: a missing cell takes the last valid value before
    it. *)
Fixpoint ffill_from (last : float) (c : list float) : list float :=
  match c with
  | [] => []
  | x :: c' =>
      let y := if isnan x then last else x in
      y :: ffill_from y c'
  end.

Definition ffill (c : list float) : list float := ffill_from NaN c.

(** [Series.shift(1)]. *)
Definition shift (c : list float) : list float :=
  firstn (length c) (NaN :: c).

(** [DataFrame.pct_change()] on one column: missing prices are padded
    forward (the default [fill_method]), then [data / data.shift(1) - 1]. *)
Definition pct_change_col (c : list float) : list float :=
  let data := ffill c in
  zip_with (fun p q => fsub (fdiv p q) (Num 1)) data (shift data).

Definition pct_change (df : DataFrame) : DataFrame :=
  mkDF (index df) (map (fun c => (fst c, pct_change_col (snd c))) (cols df)).

Fixpoint mask_filter {A} (m : list bool) (l : list A) : list A :=
  match m, l with
  | b :: m', x :: l' => if b then x :: mask_filter m' l' else mask_filter m' l'
  | _, _ => []
  end.

(** [DataFrame.dropna(how="all")]: a row is kept when at least one of its
    cells is not missing. *)
Definition dropna_mask (df : DataFrame) : list bool :=
  map (fun i => existsb notna (row_at df i)) (seq 0 (nrows df)).

Definition dropna_all (df : DataFrame) : DataFrame :=
  let m := dropna_mask df in
  mkDF (mask_filter m (index df))
       (map (fun c => (fst c, mask_filter m (snd c))) (cols df)).

(** ** Spark tables *)

Inductive stype : Type := DoubleType | TimestampType.

(** A Spark SQL value: null, a double or a timestamp. *)
Inductive sval : Type :=
| SNull
| SDouble (x : float)
| STimestamp (t : Z).

(** A [pyspark.sql.DataFrame]: its schema and its rows, each row holding
    one value per column of the schema. *)
Record SparkDataFrame : Type := mkSDF {
  schema : list (label * stype);
  srows : list (list sval)
}.

Definition scolumns (sdf : SparkDataFrame) : list label :=
  map fst (schema sdf).

(** Position of the first column called [name]. *)
Fixpoint col_pos (name : label) (names : list label) : option nat :=
  match names with
  | [] => None
  | n :: names' =>
      if decide (n = name) then Some 0%nat
      else S <$> col_pos name names'
  end.

Definition sget (row : list sval) (j : nat) : sval := nth j row SNull.

(** Ascending order of Spark SQL: null first, NaN above every double. *)
Definition float_leb (a b : float) : bool :=
  match a, b with
  | _, NaN => true
  | NaN, _ => false
  | NInf, _ => true
  | _, NInf => false
  | _, PInf => true
  | PInf, _ => false
  | Num x, Num y => negb (Rltb y x)
  end.

Definition sval_leb (a b : sval) : bool :=
  match a, b with
  | SNull, _ => true
  | _, SNull => false
  | STimestamp s, STimestamp t => (s <=? t)%Z
  | SDouble x, SDouble y => float_leb x y
  | _, _ => true
  end.

Fixpoint insert_row (k : nat) (r : list sval) (rs : list (list sval))
    : list (list sval) :=
  match rs with
  | [] => [r]
  | r' :: rs' =>
      if sval_leb (sget r k) (sget r' k) then r :: rs
      else r' :: insert_row k r rs'
  end.

(** The rows in ascending order of column [k] (a stable sort). *)
Fixpoint sort_rows (k : nat) (rs : list (list sval)) : list (list sval) :=
  match rs with
  | [] => []
  | r :: rs' => insert_row k r (sort_rows k rs')
  end.

(** [F.lag(c)] over an ordered window: the value of the row before. *)
Definition lag (vals : list sval) : list sval :=
  firstn (length vals) (SNull :: vals).

Definition ssub (a b : sval) : sval :=
  match a, b with
  | SDouble x, SDouble y => SDouble (fsub x y)
  | _, _ => SNull
  end.

Definition sadd (a b : sval) : sval :=
  match a, b with
  | SDouble x, SDouble y => SDouble (fadd x y)
  | _, _ => SNull
  end.

(** Spark SQL division yields null when the divisor is zero. *)
Definition sdiv (a b : sval) : sval :=
  match a, b with
  | SDouble x, SDouble y =>
      match y with
      | Num d => if Reqb d 0 then SNull else SDouble (fdiv x y)
      | _ => SDouble (fdiv x y)
      end
  | _, _ => SNull
  end.

(** [F.log]: null unless the argument is above zero. *)
Definition slog (a : sval) : sval :=
  match a with
  | SDouble x =>
      match x with
      | Num d => if Rltb 0 d then SDouble (flog x) else SNull
      | NInf => SNull
      | _ => SDouble (flog x)
      end
  | _ => SNull
  end.

(** *** Column names

    Spark resolves a column name ([df[name]], [F.col(name)]) in two
    steps, modelled here with the defaults of Spark 3
    ([spark.sql.caseSensitive = false]) on tables without qualifier and
    without struct columns, as [createDataFrame] builds them.  The name
    is first parsed as an attribute name: a dot separates a qualifier or
    a struct field, a pair of backquotes quotes a part.  A single part
    is then matched against the columns ignoring case. *)

Definition is_dot (c : ascii) : bool := bool_decide (c = "."%char).
Definition is_backquote (c : ascii) : bool := bool_decide (c = "`"%char).

Definition lower_char (c : ascii) : ascii :=
  let n := nat_of_ascii c in
  if (65 <=? n)%nat && (n <=? 90)%nat then ascii_of_nat (n + 32) else c.

(** Lower case of the letters A to Z; every other character is kept. *)
Fixpoint lower (s : string) : string :=
  match s with
  | EmptyString => EmptyString
  | String c s' => String (lower_char c) (lower s')
  end.

(** The resolver of Spark: equality ignoring case. *)
Definition same_name (a b : label) : bool := bool_decide (lower a = lower b).

Definition analysis_exception {A} (msg : string) : result A :=
  raise "AnalysisException" msg.

(** [UnresolvedAttribute.parseAttributeName]: the parts of a name.
    [in_quote] tells whether a backquote is open, [prev] is the
    character before, [tmp] the part read so far.  Inside backquotes a
    doubled backquote stands for one; a closing backquote is followed by
    a dot or by the end; outside, a backquote opens a part only at its
    start, and a dot neither follows a dot nor ends the name.  A name
    that starts with a dot makes the parser read before the string,
    which is not an analysis error. *)
Fixpoint parse_attribute (in_quote : bool) (prev : option ascii)
    (tmp : string) (parts : list label) (name : string)
    : result (list label) :=
  match name with
  | EmptyString =>
      if in_quote then analysis_exception "syntax error in attribute name"
      else ok (parts ++ [tmp])
  | String c rest =>
      if in_quote then
        if is_backquote c then
          match rest with
          | EmptyString => parse_attribute false (Some c) tmp parts rest
          | String c' rest' =>
              if is_backquote c'
              then parse_attribute true (Some c') (tmp ++ "`") parts rest'
              else if is_dot c'
                   then parse_attribute false (Some c) tmp parts rest
                   else analysis_exception "syntax error in attribute name"
          end
        else parse_attribute true (Some c) (tmp ++ String c "") parts rest
      else if is_backquote c then
        match tmp with
        | EmptyString => parse_attribute true (Some c) tmp parts rest
        | String _ _ => analysis_exception "syntax error in attribute name"
        end
      else if is_dot c then
        match prev with
        | None => raise "Py4JJavaError" "java.lang.StringIndexOutOfBoundsException"
        | Some p =>
            if is_dot p || bool_decide (rest = EmptyString)
            then analysis_exception "syntax error in attribute name"
            else parse_attribute false (Some c) EmptyString (parts ++ [tmp]) rest
        end
      else parse_attribute false (Some c) (tmp ++ String c "") parts rest
  end.

Definition parse_attribute_name (name : label) : result (list label) :=
  parse_attribute false None EmptyString [] name.

(** A name Spark reads as it is written: no dot, no backquote, and not
    the star. *)
Definition plain_name (n : label) : bool :=
  negb (bool_decide (n = "*"))
  && forallb (fun c => negb (is_dot c || is_backquote c))
             (list_ascii_of_string n).

(** Positions of the columns called [part], ignoring case. *)
Fixpoint name_positions (part : label) (names : list label) : list nat :=
  match names with
  | [] => []
  | n :: names' =>
      (if same_name n part then [0%nat] else [])
      ++ map S (name_positions part names')
  end.

(** [LogicalPlan.resolveQuoted]: the column a name stands for, if any.
    A name of several parts asks for a qualifier or for a field of a
    struct column; the tables here have neither, so it stands for no
    column when its head matches none, and is an error otherwise. *)
Definition find_column (name : label) (sdf : SparkDataFrame)
    : result (option (nat * stype)) :=
  rbind (parse_attribute_name name) (fun parts =>
  match parts with
  | [] => ok None
  | [part] =>
      match name_positions part (scolumns sdf) with
      | [] => ok None
      | [j] =>
          match nth_error (schema sdf) j with
          | Some (_, ty) => ok (Some (j, ty))
          | None => ok None
          end
      | _ :: _ :: _ => analysis_exception "reference is ambiguous"
      end
  | part :: _ :: _ =>
      match name_positions part (scolumns sdf) with
      | [] => ok None
      | _ :: _ => analysis_exception "cannot extract a field from a column that is no struct"
      end
  end).

(** A column used in an expression, [df[name]] or [F.col(name)]: it
    has to exist.  The name "*" stands for all columns, which no
    expression of this module accepts. *)
Definition resolve (name : label) (sdf : SparkDataFrame)
    : result (nat * stype) :=
  if decide (name = "*") then analysis_exception "invalid usage of '*'"
  else
    rbind (find_column name sdf) (fun found =>
    match found with
    | Some r => ok r
    | None => analysis_exception "cannot resolve column"
    end).

(** [x] with the positions marked in [hit] replaced by [v]. *)
Definition replace_hits {A} (hit : list bool) (v : A) (x : list A) : list A :=
  imap (fun i a => if nth i hit false then v else a) x.

(** [withColumn(name, vals)]: replaces every column called [name],
    ignoring case, and gives it that name; appends a new column when
    there is none. *)
Definition with_column (name : label) (ty : stype) (vals : list sval)
    (sdf : SparkDataFrame) : SparkDataFrame :=
  let hit := map (fun n => same_name n name) (scolumns sdf) in
  if existsb (fun n => same_name n name) (scolumns sdf) then
    mkSDF (replace_hits hit (name, ty) (schema sdf))
          (zip_with (fun row v => replace_hits hit v row) (srows sdf) vals)
  else
    mkSDF (schema sdf ++ [(name, ty)])
          (zip_with (fun row v => row ++ [v]) (srows sdf) vals).

(** [drop(F.col(name))]: drops the column the name stands for; a name
    that stands for no column drops nothing. *)
Definition drop_column (name : label) (sdf : SparkDataFrame)
    : result SparkDataFrame :=
  if decide (name = "*") then ok sdf
  else
    rbind (find_column name sdf) (fun found =>
    match found with
    | Some (j, _) =>
        let keep := map (fun i => negb (bool_decide (i = j)))
                        (seq 0 (length (schema sdf))) in
        ok (mkSDF (mask_filter keep (schema sdf))
                  (map (mask_filter keep) (srows sdf)))
    | None => ok sdf
    end).

(** One turn of the loop of the distributed path, for the column [col]:
    the lagged column is added over the window ordered by "date_index",
    [col] becomes [(col - lag) / lag], the lagged column is dropped and,
    for log returns, [col] becomes [log(1 + col)]. *)
Definition spark_return_step (log_returns : bool) (col : label)
    (prices : SparkDataFrame) : result SparkDataFrame :=
  rbind (resolve col prices) (fun '(j, ty) =>
  rbind (resolve "date_index" prices) (fun '(k, _) =>
  let sorted := mkSDF (schema prices) (sort_rows k (srows prices)) in
  let lagged :=
    with_column "tmp_lag_1" ty (lag (map (fun r => sget r j) (srows sorted)))
                sorted in
  rbind (resolve col lagged) (fun '(j1, ty1) =>
  rbind (resolve "tmp_lag_1" lagged) (fun '(l, tyl) =>
  match ty1, tyl with
  | DoubleType, DoubleType =>
      let pct :=
        map (fun r => sdiv (ssub (sget r j1) (sget r l)) (sget r l))
            (srows lagged) in
      rbind (drop_column "tmp_lag_1" (with_column col DoubleType pct lagged))
            (fun dropped =>
      if log_returns then
        rbind (resolve col dropped) (fun '(j2, ty2) =>
        match ty2 with
        | DoubleType =>
            ok (with_column col DoubleType
                  (map (fun r => slog (sadd (SDouble (Num 1)) (sget r j2)))
                       (srows dropped))
                  dropped)
        | TimestampType => analysis_exception "data type mismatch"
        end)
      else ok dropped)
  | _, _ => analysis_exception "data type mismatch"
  end)))).

(** [list.remove(x)]: removes the first occurrence.  (The loop is only
    reached with "date_index" among the columns, so the [ValueError] of
    an absent element cannot arise.) *)
Fixpoint list_remove (x : label) (l : list label) : list label :=
  match l with
  | [] => []
  | y :: l' => if decide (y = x) then l' else y :: list_remove x l'
  end.

Fixpoint spark_return_loop (log_returns : bool) (price_cols : list label)
    (prices : SparkDataFrame) : result SparkDataFrame :=
  match price_cols with
  | [] => ok prices
  | col :: rest =>
      rbind (spark_return_step log_returns col prices)
            (spark_return_loop log_returns rest)
  end.

(** ** The return transform *)

(** The table handed to [returns_from_prices]. *)
Inductive table : Type :=
| Pandas (df : DataFrame)
| Spark (sdf : SparkDataFrame).

Definition is_spark_frame (t : table) : bool :=
  match t with Spark _ => true | Pandas _ => false end.

Definition table_columns (t : table) : list label :=
  match t with
  | Pandas df => columns df
  | Spark sdf => scolumns sdf
  end.

Definition has_date_index (t : table) : bool :=
  bool_decide ("date_index" ∈ table_columns t).

(** [returns_from_prices(prices, log_returns=False, is_spark=False)].
    The two guards come first; then the four branches of the source, in
    its order, the last two sharing the loop over the price columns. *)
Definition returns_from_prices (prices : table) (log_returns is_spark : bool)
    : result table :=
  (* if is_spark is True and type(prices) != pyspark.sql.dataframe.DataFrame *)
  if is_spark && negb (is_spark_frame prices) then
    raise "RuntimeError"
          "Loading a non-spark dataframe to a spark session is not supported!"
  (* if is_spark is True and type(prices) == ... and "date_index" not in prices.columns *)
  else if is_spark && is_spark_frame prices && negb (has_date_index prices) then
    raise "RuntimeError"
          "Loading a spark dataframe without a 'date_index' column is not supported!"
  (* if log_returns and not is_spark:
       return np.log(1 + prices.pct_change()).dropna(how="all") *)
  else if log_returns && negb is_spark then
    match prices with
    | Pandas df =>
        ok (Pandas (dropna_all
                      (map_frame flog
                         (map_frame (fadd (Num 1)) (pct_change df)))))
    | Spark _ =>
        raise "AttributeError"
              "'DataFrame' object has no attribute 'pct_change'"
    end
  (* if not log_returns and not is_spark:
       return prices.pct_change().dropna(how="all") *)
  else if negb log_returns && negb is_spark then
    match prices with
    | Pandas df => ok (Pandas (dropna_all (pct_change df)))
    | Spark _ =>
        raise "AttributeError"
              "'DataFrame' object has no attribute 'pct_change'"
    end
  else
    (* [is_spark] holds; price_cols = prices.columns;
       price_cols.remove("date_index"); for col in price_cols: ...
       The two loops of the source differ by the final logarithm. *)
    match prices with
    | Spark sdf =>
        let price_cols := list_remove "date_index" (scolumns sdf) in
        rbind (spark_return_loop log_returns price_cols sdf)
              (fun r => ok (Spark r))
    | Pandas _ =>
        raise "AttributeError" "'Index' object has no attribute 'remove'"
    end.

(** Cell of column number [j] at row number [t]. *)
Definition lookup_cell (df : DataFrame) (j t : nat) : option float :=
  match nth_error (cols df) j with
  | Some c => nth_error (snd c) t
  | None => None
  end.

(** Every cell is a finite number above zero. *)
Definition positive_col (c : list float) : Prop :=
  Forall (fun v => exists x, v = Num x /\ 0 < x) c.

Definition positive_prices (df : DataFrame) : Prop :=
  Forall (fun c => positive_col (snd c)) (cols df).

(** A column that starts with a missing cell followed by [m] valid ones. *)
Definition leading_nan (m : nat) (c : list float) : Prop :=
  exists xs, c = NaN :: xs /\ length xs = m /\
             Forall (fun v => notna v = true) xs.


(** ** Pseudo-prices from returns *)

(** [df.iloc[0] = v]: every cell of the first row becomes [v]; a table
    without rows cannot be enlarged this way. *)
Definition iloc0_set (v : float) (df : DataFrame) : result DataFrame :=
  match index df with
  | [] => raise "IndexError" "iloc cannot enlarge its target object"
  | _ :: _ =>
      ok (mkDF (index df)
               (map (fun c => (fst c,
                               match snd c with
                               | [] => []
                               | _ :: rest => v :: rest
                               end))
                    (cols df)))
  end.

(** [Series.cumprod()]: the running product; a missing cell stays
    missing and does not enter the product. *)
Fixpoint cumprod_from (acc : float) (c : list float) : list float :=
  match c with
  | [] => []
  | x :: c' =>
      if isnan x then NaN :: cumprod_from acc c'
      else fmul acc x :: cumprod_from (fmul acc x) c'
  end.

Definition cumprod_col (c : list float) : list float :=
  cumprod_from (Num 1) c.

Definition cumprod (df : DataFrame) : DataFrame :=
  mkDF (index df) (map (fun c => (fst c, cumprod_col (snd c))) (cols df)).

(** [prices_from_returns(returns, log_returns=False)]:
    [ret = np.exp(returns)] or [1 + returns]; [ret.iloc[0] = 1];
    [return ret.cumprod()].  [ret] is a new table, so the argument is
    not touched. *)
Definition prices_from_returns (returns : DataFrame) (log_returns : bool)
    : result DataFrame :=
  let ret :=
    if log_returns then map_frame fexp returns
    else map_frame (fadd (Num 1)) returns in
  rbind (iloc0_set (Num 1) ret) (fun ret' => ok (cumprod ret')).

(** [P / P.iloc[0]]: every price over the first price of its column. *)
Definition ratio_to_first_row (df : DataFrame) : DataFrame :=
  mkDF (index df)
       (map (fun c => (fst c, map (fun v => fdiv v (cell (snd c) 0)) (snd c)))
            (cols df)).

(** A table of one asset over three dates, used in examples. *)
Definition one_asset (p0 p1 p2 : R) : DataFrame :=
  mkDF [0%Z; 1%Z; 2%Z] [("A", [Num p0; Num p1; Num p2])].

(** ** Reductions over a column *)

(** The cells that are not missing ([skipna=True]). *)
Definition valid (c : list float) : list float := List.filter notna c.

(** [Series.count()]. *)
Definition col_count (c : list float) : nat := length (valid c).

(** [Series.prod()]: product of the valid cells. *)
Definition col_prod (c : list float) : float := fold_right fmul (Num 1) (valid c).

(** [Series.sum()]. *)
Definition col_sum (c : list float) : float := fold_right fadd (Num 0) (valid c).

(** [Series.mean()]: NaN when no cell is valid. *)
Definition col_mean (c : list float) : float :=
  fdiv (col_sum c) (Num (INR (col_count c))).

(** A reduction applied to every column of a table. *)
Definition reduce (f : list float -> float) (df : DataFrame) : Series :=
  map (fun c => (fst c, f (snd c))) (cols df).

Definition series_map (f : float -> float) (s : Series) : Series :=
  map (fun e => (fst e, f (snd e))) s.

(** Binary operation on two series that carry the same labels. *)
Definition series_zip (f : float -> float -> float) (s1 s2 : Series) : Series :=
  zip_with (fun a b => (fst a, f (snd a) (snd b))) s1 s2.

(** [df.mean(axis=1)]: mean of the valid cells of every row. *)
Definition row_means (df : DataFrame) : list float :=
  map (fun i => col_mean (row_at df i)) (seq 0 (nrows df)).

(** ** Exponentially weighted mean *)

(** The recurrence of [ewm(...).mean()] with its defaults [adjust=True],
    [ignore_na=False] and no minimum number of periods.  [weighted] is
    the average so far (NaN before the first observation) and [old_wt]
    the total weight behind it; the weight decays at every row, missing
    or not, and a missing row repeats the average so far.  It runs on
    the prepared values of the column (see [inf_to_nan] below), in which
    an infinite cell is a missing one. *)
Fixpoint ewm_from (alpha : R) (weighted : float) (old_wt : R)
    (c : list float) : list float :=
  match c with
  | [] => []
  | cur :: c' =>
      if notna weighted then
        let old_wt' := old_wt * (1 - alpha) in
        if notna cur then
          let w := fdiv (fadd (fmul (Num old_wt') weighted) cur)
                        (Num (old_wt' + 1)) in
          w :: ewm_from alpha w (old_wt' + 1) c'
        else weighted :: ewm_from alpha weighted old_wt' c'
      else if notna cur then cur :: ewm_from alpha cur old_wt c'
      else weighted :: ewm_from alpha weighted old_wt c'
  end.

(** The smoothing factor of a span: [alpha = 2 / (span + 1)]. *)
Definition alpha_of_span (span : R) : R := 2 / (span + 1).

(** pandas prepares the values of a window function by turning the
    infinities into missing values ([np.where(np.isinf(values), np.nan,
    values)]). *)
Definition inf_to_nan (v : float) : float :=
  match v with
  | PInf | NInf => NaN
  | _ => v
  end.

Definition ewm_mean_col (span : R) (c : list float) : list float :=
  ewm_from (alpha_of_span span) NaN 1 (map inf_to_nan c).

(** [df.ewm(span=span).mean()]; the span must be at least 1. *)
Definition ewm_mean (span : R) (df : DataFrame) : result DataFrame :=
  if Rltb span 1 then raise "ValueError" "span must satisfy: span >= 1"
  else ok (mkDF (index df)
                (map (fun c => (fst c, ewm_mean_col span (snd c))) (cols df))).

(** [df.iloc[-1]]: the last row, labelled by the columns. *)
Definition iloc_last (df : DataFrame) : result Series :=
  match nrows df with
  | O => raise "IndexError" "single positional indexer is out-of-bounds"
  | S n => ok (reduce (fun c => cell c n) df)
  end.

(** ** Covariance *)

Definition sum_floats (l : list float) : float := fold_right fadd (Num 0) l.

Definition mean_floats (l : list float) : float :=
  fdiv (sum_floats l) (Num (INR (length l))).

(** Sample covariance of two aligned lists of observations, with
    [ddof = 1]; the divisor of one observation or none is zero. *)
Definition sample_cov (a b : list float) : float :=
  let ma := mean_floats a in
  let mb := mean_floats b in
  fdiv (sum_floats (zip_with (fun x y => fmul (fsub x ma) (fsub y mb)) a b))
       (Num (INR (length a - 1))).

(** The observations at which both columns are finite. *)
Definition finite_pairs (a b : list float) : list (float * float) :=
  List.filter (fun xy => isfinite (fst xy) && isfinite (snd xy)) (combine a b).

(** Pairwise covariance over the rows where both columns are finite;
    NaN without any such row. *)
Definition masked_cov (a b : list float) : float :=
  let ps := finite_pairs a b in
  match ps with
  | [] => NaN
  | _ :: _ => sample_cov (map fst ps) (map snd ps)
  end.

Definition no_missing (df : DataFrame) : bool :=
  forallb (fun c => forallb notna (snd c)) (cols df).

(** [df.cov()]: per column label, the covariances with every column.
    A table without missing cells takes the plain sample covariance, any
    other the pairwise one. *)
Definition cov (df : DataFrame) : list (label * Series) :=
  let f := if no_missing df then sample_cov else masked_cov in
  map (fun cb => (fst cb, map (fun ca => (fst ca, f (snd ca) (snd cb))) (cols df)))
      (cols df).

(** Value under the first entry labelled [name]. *)
Fixpoint assoc {A} (name : label) (l : list (label * A)) : option A :=
  match l with
  | [] => None
  | e :: l' => if decide (fst e = name) then Some (snd e) else assoc name l'
  end.

(** [s.drop(name)]. *)
Definition series_drop (name : label) (s : Series) : Series :=
  List.filter (fun e => negb (bool_decide (fst e = name))) s.

(** ** The store of tables *)

(** A reference to a pandas table held by the caller. *)
Abbreviation loc := nat (only parsing).

Abbreviation store := (gmap nat DataFrame) (only parsing).

(** A computation that reads and updates the store and may raise; an
    update made before an exception stays in the store. *)
Definition M (A : Type) : Type := store -> result A * store.

Definition mret {A} (a : A) : M A := fun s => (ok a, s).

Definition mbind {A B} (m : M A) (k : A -> M B) : M B :=
  fun s =>
    match m s with
    | (inl e, s') => (inl e, s')
    | (inr a, s') => k a s'
    end.

Definition lift {A} (r : result A) : M A := fun s => (r, s).

Notation "'do' x <- m ; k" := (mbind m (fun x => k))
  (at level 10, x name, m at level 100, k at level 200).

(** Reads the table behind a reference. *)
Definition load (l : loc) : M DataFrame :=
  fun s =>
    match s !! l with
    | Some df => (ok df, s)
    | None => (raise "ReferenceError" "no such object", s)
    end.

(** Binds a new table to a reference of its own. *)
Definition alloc (df : DataFrame) : M loc :=
  fun s => let l := fresh (dom s) in (ok l, <[l := df]> s).

(** Replaces the table behind a reference, in place. *)
Definition update (l : loc) (df : DataFrame) : M unit :=
  fun s => (ok tt, <[l := df]> s).

(** [df[name] = vals]: the columns called [name] take the new cells; a
    new column is appended when there is none. *)
Definition setitem (name : label) (vals : list float) (df : DataFrame)
    : DataFrame :=
  if bool_decide (name ∈ columns df) then
    mkDF (index df)
         (map (fun c => if decide (fst c = name) then (name, vals) else c)
              (cols df))
  else mkDF (index df) (cols df ++ [(name, vals)]).

(** [df.columns = names]. *)
Definition set_columns (names : list label) (df : DataFrame)
    : result DataFrame :=
  if decide (length names = length (cols df)) then
    ok (mkDF (index df) (zip_with (fun n c => (n, snd c)) names (cols df)))
  else raise "ValueError" "Length mismatch".

(** Positions of the rows of [idx] labelled [d]. *)
Definition positions (d : Z) (idx : list Z) : list nat :=
  List.filter (fun j => bool_decide (nth_error idx j = Some d))
              (seq 0 (length idx)).

(** The row pairs of a left join on the row labels: every left row with
    each right row of the same label, or with none. *)
Definition left_join_rows (left right : list Z) : list (nat * option nat) :=
  flat_map (fun i =>
              match positions (nth i left 0%Z) right with
              | [] => [(i, None)]
              | js => map (fun j => (i, Some j)) js
              end)
           (seq 0 (length left)).

(** [left.join(right, how="left")]. *)
Definition join_left (left right : DataFrame) : result DataFrame :=
  if bool_decide (Exists (fun n => n ∈ columns left) (columns right)) then
    raise "ValueError" "columns overlap but no suffix specified"
  else
    let rows := left_join_rows (index left) (index right) in
    ok (mkDF (map (fun r => nth (fst r) (index left) 0%Z) rows)
             (map (fun c => (fst c, map (fun r => cell (snd c) (fst r)) rows))
                  (cols left)
              ++
              map (fun c => (fst c,
                             map (fun r => match snd r with
                                           | Some j => cell (snd c) j
                                           | None => NaN
                                           end) rows))
                  (cols right))).

(** A pandas method called on the table: a Spark table has none of
    them. *)
Definition as_pandas (t : table) : result DataFrame :=
  match t with
  | Pandas df => ok df
  | Spark _ => raise "AttributeError" "not a pandas DataFrame"
  end.

(** [returns_from_prices(prices)] on a pandas table held in the store;
    the result is a new table. *)
Definition returns_of (prices : loc) : M loc :=
  do p <- load prices;
  do t <- lift (returns_from_prices (Pandas p) false false);
  do r <- lift (as_pandas t);
  alloc r.

(** ** The estimators *)

(** The estimators take their tables by reference.  The test
    [isinstance(prices, pd.DataFrame)] holds for every such argument, so
    the coercion of other inputs, with its warning, is left out. *)

(** [mean_historical_return(prices, returns_data=False, compounding=True,
    frequency=252)]. *)
Definition mean_historical_return (prices : loc)
    (returns_data compounding : bool) (frequency : R) : M Series :=
  (* returns = prices if returns_data else returns_from_prices(prices) *)
  do returns <- (if returns_data then mret prices else returns_of prices);
  do r <- load returns;
  if compounding then
    (* (1 + returns).prod() ** (frequency / returns.count()) - 1 *)
    mret (series_map (fun v => fsub v (Num 1))
            (series_zip fpow
               (reduce col_prod (map_frame (fadd (Num 1)) r))
               (series_map (fun n => fdiv (Num frequency) n)
                  (reduce (fun c => Num (INR (col_count c))) r))))
  else
    (* returns.mean() * frequency *)
    mret (series_map (fun v => fmul v (Num frequency)) (reduce col_mean r)).

(** [ema_historical_return(prices, returns_data=False, compounding=True,
    span=500, frequency=252)]. *)
Definition ema_historical_return (prices : loc)
    (returns_data compounding : bool) (span frequency : R) : M Series :=
  do returns <- (if returns_data then mret prices else returns_of prices);
  do r <- load returns;
  if compounding then
    (* (1 + returns.ewm(span=span).mean().iloc[-1]) ** frequency - 1 *)
    do e <- lift (ewm_mean span r);
    do v <- lift (iloc_last e);
    mret (series_map (fun x => fsub (fpow (fadd (Num 1) x) (Num frequency)) (Num 1)) v)
  else
    (* returns.ewm(span=span).mean().iloc[-1] * frequency *)
    do e <- lift (ewm_mean span r);
    do v <- lift (iloc_last e);
    mret (series_map (fun x => fmul x (Num frequency)) v).

Definition key_error {A} (name : label) : result A := raise "KeyError" name.

(** [x[name]] on a labelled collection. *)
Definition getitem {A} (name : label) (l : list (label * A)) : result A :=
  match assoc name l with
  | Some a => ok a
  | None => key_error name
  end.

(** [capm_return(prices, market_prices=None, returns_data=False,
    risk_free_rate=0.02, compounding=True, frequency=252)].  With
    [returns_data] the names [returns] and [market_returns] are bound to
    the tables of the caller themselves. *)
Definition capm_return (prices : loc) (market_prices : option loc)
    (returns_data : bool) (risk_free_rate : R) (compounding : bool)
    (frequency : R) : M Series :=
  do refs <-
    (* returns = prices; market_returns = market_prices *)
    (if returns_data then mret (prices, market_prices)
     else
       (* returns = returns_from_prices(prices);
          market_returns = returns_from_prices(market_prices) or None *)
       do returns <- returns_of prices;
       match market_prices with
       | Some mp => do mr <- returns_of mp; mret (returns, Some mr)
       | None => mret (returns, None)
       end);
  let '(returns, market_returns) := refs in
  do returns <-
    match market_returns with
    | None =>
        (* returns["mkt"] = returns.mean(axis=1) *)
        do r <- load returns;
        do _ <- update returns (setitem "mkt" (row_means r) r);
        mret returns
    | Some mr =>
        (* market_returns.columns = ["mkt"] *)
        do m <- load mr;
        do m' <- lift (set_columns ["mkt"] m);
        do _ <- update mr m';
        (* returns = returns.join(market_returns, how="left") *)
        do r <- load returns;
        do m <- load mr;
        do j <- lift (join_left r m);
        alloc j
    end;
  do r <- load returns;
  (* cov = returns.cov() *)
  let cov := cov r in
  (* betas = cov["mkt"] / cov.loc["mkt", "mkt"] *)
  do cov_mkt <- lift (getitem "mkt" cov);
  do var_mkt <- lift (getitem "mkt" cov_mkt);
  let betas := series_map (fun v => fdiv v var_mkt) cov_mkt in
  (* betas = betas.drop("mkt") *)
  do betas <- lift (if bool_decide ("mkt" ∈ map fst betas)
                    then ok (series_drop "mkt" betas)
                    else key_error "mkt");
  (* mkt_mean_ret = (1 + returns["mkt"]).prod() **
                      (frequency / returns["mkt"].count()) - 1
     or returns["mkt"].mean() * frequency *)
  do mkt <- lift (getitem "mkt" (cols r));
  let mkt_mean_ret :=
    if compounding then
      fsub (fpow (col_prod (map (fadd (Num 1)) mkt))
                 (fdiv (Num frequency) (Num (INR (col_count mkt)))))
           (Num 1)
    else fmul (col_mean mkt) (Num frequency) in
  (* return risk_free_rate + betas * (mkt_mean_ret - risk_free_rate) *)
  mret (series_map
          (fun b => fadd (Num risk_free_rate)
                         (fmul b (fsub mkt_mean_ret (Num risk_free_rate))))
          betas).

(** The store of a caller that holds one table, behind reference 0. *)
Definition single_table (df : DataFrame) : store := {[ 0%nat := df ]}.

(** ** The exponentially weighted mean in closed form *)

(** [x_0 + q x_1 + q^2 x_2 + ...] over observations listed from the most
    recent one backwards. *)
Fixpoint weighted_sum (q : R) (recent_first : list R) : R :=
  match recent_first with
  | [] => 0
  | x :: older => x + q * weighted_sum q older
  end.

(** [1 + q + ... + q^(n-1)]. *)
Fixpoint weight_total (q : R) (n : nat) : R :=
  match n with
  | O => 0
  | S n' => 1 + q * weight_total q n'
  end.

(** The weighted average of the [xs] seen so far, with weight [q^i] on
    the observation [i] rows back. *)
Definition ewma (q : R) (xs : list R) : R :=
  weighted_sum q (rev xs) / weight_total q (length xs).

(** The moving averages after each of the rows [xs], given the rows
    [seen] before them (most recent first). *)
Fixpoint ewma_after (q : R) (seen xs : list R) : list R :=
  match xs with
  | [] => []
  | x :: xs' =>
      weighted_sum q (x :: seen) / weight_total q (S (length seen))
      :: ewma_after q (x :: seen) xs'
  end.

(** ** The two phases of [capm_return] *)

(** The first half of [capm_return]: the returns of the assets with the
    market column added, by reference. *)
Definition capm_market_frame (prices : loc) (market_prices : option loc)
    (returns_data : bool) : M loc :=
  do refs <-
    (if returns_data then mret (prices, market_prices)
     else
       do returns <- returns_of prices;
       match market_prices with
       | Some mp => do mr <- returns_of mp; mret (returns, Some mr)
       | None => mret (returns, None)
       end);
  let '(returns, market_returns) := refs in
  match market_returns with
  | None =>
      do r <- load returns;
      do _ <- update returns (setitem "mkt" (row_means r) r);
      mret returns
  | Some mr =>
      do m <- load mr;
      do m' <- lift (set_columns ["mkt"] m);
      do _ <- update mr m';
      do r <- load returns;
      do m <- load mr;
      do j <- lift (join_left r m);
      alloc j
  end.

(** The second half: betas from the covariance matrix, the annualised
    return of the market column, and the pricing formula. *)
Definition capm_pricing (r : DataFrame) (risk_free_rate : R)
    (compounding : bool) (frequency : R) : result Series :=
  let cov := cov r in
  rbind (getitem "mkt" cov) (fun cov_mkt =>
  rbind (getitem "mkt" cov_mkt) (fun var_mkt =>
  let betas := series_map (fun v => fdiv v var_mkt) cov_mkt in
  rbind (if bool_decide ("mkt" ∈ map fst betas)
         then ok (series_drop "mkt" betas)
         else key_error "mkt") (fun betas =>
  rbind (getitem "mkt" (cols r)) (fun mkt =>
  let mkt_mean_ret :=
    if compounding then
      fsub (fpow (col_prod (map (fadd (Num 1)) mkt))
                 (fdiv (Num frequency) (Num (INR (col_count mkt)))))
           (Num 1)
    else fmul (col_mean mkt) (Num frequency) in
  ok (series_map
        (fun b => fadd (Num risk_free_rate)
                       (fmul b (fsub mkt_mean_ret (Num risk_free_rate))))
        betas))))).

(** The covariance [df.cov()] takes for two columns of [df]. *)
Definition cov_of (df : DataFrame) : list float -> list float -> float :=
  if no_missing df then sample_cov else masked_cov.

(** The arithmetic mean of finitely many reals. *)
Definition mean_reals (xs : list R) : R :=
  fold_right Rplus 0 xs / INR (length xs).

(** ** The dispatcher *)

(** The keyword options a caller may pass on; [None] stands for an
    option that is not given.  [market_prices=None] is a given option. *)
Record kwargs : Type := mkKw {
  kw_returns_data : option bool;
  kw_compounding : option bool;
  kw_frequency : option R;
  kw_span : option R;
  kw_market_prices : option (option loc);
  kw_risk_free_rate : option R
}.

Definition no_kwargs : kwargs := mkKw None None None None None None.

Definition given {A} (o : option A) : bool :=
  match o with Some _ => true | None => false end.

Definition unexpected_keyword {A} (name : string) : M A :=
  lift (raise "TypeError" ("got an unexpected keyword argument '" ++ name ++ "'")).

(** [mean_historical_return(prices, **kwargs)]: the options bind the
    parameters of the estimator, the others keep their defaults; an
    option the estimator does not have is a [TypeError]. *)
Definition call_mean_historical_return (prices : loc) (kw : kwargs) : M Series :=
  if given (kw_span kw) then unexpected_keyword "span"
  else if given (kw_market_prices kw) then unexpected_keyword "market_prices"
  else if given (kw_risk_free_rate kw) then unexpected_keyword "risk_free_rate"
  else
    mean_historical_return prices
      (default false (kw_returns_data kw))
      (default true (kw_compounding kw))
      (default 252 (kw_frequency kw)).

Definition call_ema_historical_return (prices : loc) (kw : kwargs) : M Series :=
  if given (kw_market_prices kw) then unexpected_keyword "market_prices"
  else if given (kw_risk_free_rate kw) then unexpected_keyword "risk_free_rate"
  else
    ema_historical_return prices
      (default false (kw_returns_data kw))
      (default true (kw_compounding kw))
      (default 500 (kw_span kw))
      (default 252 (kw_frequency kw)).

Definition call_capm_return (prices : loc) (kw : kwargs) : M Series :=
  if given (kw_span kw) then unexpected_keyword "span"
  else
    capm_return prices
      (default None (kw_market_prices kw))
      (default false (kw_returns_data kw))
      (default 0.02 (kw_risk_free_rate kw))
      (default true (kw_compounding kw))
      (default 252 (kw_frequency kw)).

(** [return_model(prices, method="mean_historical_return", **kwargs)]. *)
Definition return_model (prices : loc) (method : string) (kw : kwargs)
    : M Series :=
  if decide (method = "mean_historical_return") then
    call_mean_historical_return prices kw
  else if decide (method = "ema_historical_return") then
    call_ema_historical_return prices kw
  else if decide (method = "capm_return") then
    call_capm_return prices kw
  else
    lift (raise "NotImplementedError"
                ("Return model " ++ method ++ " not implemented")).

(** ** One price table, two representations *)

(** The rows of a Spark table that carries the dates [ds] in its first
    column and the cells [cells] behind them. *)
Definition spark_rows (ds : list Z) (cells : list (list sval))
    : list (list sval) :=
  zip_with (fun d c => STimestamp d :: c) ds cells.

Definition spark_schema (names : list label) : list (label * stype) :=
  ("date_index", TimestampType) :: map (fun n => (n, DoubleType)) names.

(** The cells of a pandas table, row by row. *)
Definition price_cells (df : DataFrame) : list (list sval) :=
  map (fun i => map SDouble (row_at df i)) (seq 0 (nrows df)).

(** The pandas table [df] as a Spark table: the row labels become the
    column "date_index". *)
Definition to_spark (df : DataFrame) : SparkDataFrame :=
  mkSDF (spark_schema (columns df)) (spark_rows (index df) (price_cells df)).

(** Position of the first row labelled [d]. *)
Fixpoint index_pos (d : Z) (idx : list Z) : option nat :=
  match idx with
  | [] => None
  | d' :: idx' => if decide (d' = d) then Some 0%nat else S <$> index_pos d idx'
  end.

Definition finite_value (v : float) : option R :=
  match v with Num x => Some x | _ => None end.

(** The finite value a pandas table holds for an asset at a date, if
    any. *)
Definition pandas_value (df : DataFrame) (d : Z) (name : label) : option R :=
  match index_pos d (index df), assoc name (cols df) with
  | Some i, Some c => finite_value (cell c i)
  | _, _ => None
  end.

Definition has_date (k : nat) (d : Z) (row : list sval) : bool :=
  match sget row k with
  | STimestamp t => bool_decide (t = d)
  | _ => false
  end.

(** The finite value a Spark table holds for an asset at a date, if
    any. *)
Definition spark_value (sdf : SparkDataFrame) (d : Z) (name : label)
    : option R :=
  match col_pos "date_index" (scolumns sdf), col_pos name (scolumns sdf) with
  | Some k, Some j =>
      match find (has_date k d) (srows sdf) with
      | Some row =>
          match sget row j with
          | SDouble v => finite_value v
          | _ => None
          end
      | None => None
      end
  | _, _ => None
  end.

(** The dates are in ascending order, without repetition. *)
Definition ascending (ds : list Z) : Prop := StronglySorted Z.lt ds.

(** What one turn of the distributed loop writes into a cell, from the
    cell and the one of the row before. *)
Definition spark_return (log_returns : bool) (cur prev : sval) : sval :=
  let pct := sdiv (ssub cur prev) prev in
  if log_returns then slog (sadd (SDouble (Num 1)) pct) else pct.

(** The cells after the turn for price column [j]. *)
Definition step_cells (log_returns : bool) (j : nat)
    (cells : list (list sval)) : list (list sval) :=
  zip_with (fun c prev => <[j := spark_return log_returns (sget c j) prev]> c)
           cells (lag (map (fun c => sget c j) cells)).

Definition loop_cells (log_returns : bool) (js : list nat)
    (cells : list (list sval)) : list (list sval) :=
  fold_left (fun cs j => step_cells log_returns j cs) js cells.

(** Order of two rows in the window over the column "date_index". *)
Definition date_le (r r' : list sval) : Prop :=
  sval_leb (sget r 0) (sget r' 0) = true.

(** The row carries a timestamp in the column "date_index". *)
Definition dated (r : list sval) : Prop := exists t, sget r 0 = STimestamp t.

Definition date_lt (r r' : list sval) : Prop :=
  exists t t', sget r 0 = STimestamp t /\ sget r' 0 = STimestamp t' /\ (t < t')%Z.

(** The cell of row [i], price column [j], and the one of the row
    before it (null for the first row). *)
Definition cell_at (cells : list (list sval)) (i j : nat) : sval :=
  sget (nth i cells []) j.

Definition cell_before (cells : list (list sval)) (i j : nat) : sval :=
  match i with
  | O => SNull
  | S i' => cell_at cells i' j
  end.

(** The columns a table has behind its schema during the loop of the
    distributed path: none, or the lagged column. *)
Definition loop_extra (extra : list (label * stype)) : Prop :=
  extra = [] \/ exists ty, extra = [("tmp_lag_1", ty)].

(** The sample covariance of two equally long lists of reals. *)
Definition cov_reals (xs ys : list R) : R :=
  fold_right Rplus 0
    (zip_with (fun x y => (x - mean_reals xs) * (y - mean_reals ys)) xs ys)
  / INR (length xs - 1).

(** ** Seconds in days *)

(** [_sec_in_days(num_days)], on Python's unbounded integers:
    [return_sec = num_days * 86400]. *)
Definition _sec_in_days (num_days : Z) : Z := (num_days * 86400)%Z.

(** ** Tables used to state further properties *)

(** Every price of the table multiplied by [k]. *)
Definition scale_prices (k : R) (df : DataFrame) : DataFrame :=
  map_frame (fmul (Num k)) df.

(** The returns of a price table with the leading row kept, as
    [prices.pct_change()] (and [np.log(1 + ...)] of it) leaves them. *)
Definition undropped_returns (log_returns : bool) (df : DataFrame) : DataFrame :=
  if log_returns
  then map_frame flog (map_frame (fadd (Num 1)) (pct_change df))
  else pct_change df.

(** A table of [n] rows in which every asset has one constant return:
    [assets] lists the column labels with their returns. *)
Definition constant_returns (idx : list Z) (assets : list (label * R))
    : DataFrame :=
  mkDF idx (map (fun a => (fst a, map Num (repeat (snd a) (length idx)))) assets).

(** The growth factor of one return: [exp r] for a logarithmic return,
    [1 + r] for a percentage return. *)
Definition gross (log_returns : bool) (r : R) : R :=
  if log_returns then exp r else 1 + r.

(** [a g1], [a g1 g2], ...: the running products of the factors [gs]
    from the start value [a]. *)
Fixpoint running_product (a : R) (gs : list R) : list R :=
  match gs with
  | [] => []
  | g :: gs' => a * g :: running_product (a * g) gs'
  end.

(** A column of returns whose rows after the first are finite and, for
    percentage returns, above -1. *)
Definition returns_col (log_returns : bool) (c : list float) : Prop :=
  exists v rs, c = v :: map Num rs /\
               (log_returns = false -> Forall (fun r => -1 < r) rs).

(** What the in-memory transform makes of a column [c] of [m + 1]
    finite prices above zero: the column [r] of its [m] returns. *)
Definition returns_shape (log_returns : bool) (m : nat)
    (c r : label * list float) : Prop :=
  fst r = fst c /\
  exists p0 ps, snd c = map Num (p0 :: ps) /\ length ps = m /\
    Forall (fun p => 0 < p) (p0 :: ps) /\
    snd r = map Num (zip_with
                       (fun p q => if log_returns then ln (p / q) else p / q - 1)
                       ps (p0 :: ps)).

(** ** Tables of finite returns *)

(** A table whose cells are all finite: per asset, its name and its
    returns. *)
Definition real_frame (idx : list Z) (assets : list (label * list R)) : DataFrame :=
  mkDF idx (map (fun a => (fst a, map Num (snd a))) assets).

(** The row-wise mean of a table of finite returns with [n] rows. *)
Definition market_proxy (n : nat) (assets : list (label * list R)) : list R :=
  map (fun i => mean_reals (map (fun a => nth i (snd a) 0) assets)) (seq 0 n).

(** The beta of the returns [xs] against the market returns [ms]. *)
Definition beta (xs ms : list R) : R := cov_reals xs ms / cov_reals ms ms.

(** The market returns [capm_return] prices against, on finite data:
    without a market table the row-wise mean of the asset returns; with
    one, the returns of its single column (given, or computed from its
    prices) on the dates [idx] of the asset returns.  The market table
    is held by the caller and, when the tables already hold returns, is
    not the table of the assets. *)
Definition market_returns (s : store) (prices : loc)
    (market_prices : option loc) (returns_data : bool) (idx : list Z)
    (assets : list (label * list R)) (ms : list R) : Prop :=
  match market_prices with
  | None => ms = market_proxy (length idx) assets
  | Some mp =>
      exists mdf name,
        s !! mp = Some mdf /\
        (returns_data = true -> mp <> prices) /\
        (if returns_data then mdf else dropna_all (pct_change mdf)) =
          real_frame idx [(name, ms)] /\
        length ms = length idx
  end.

(** * Properties *)

(** ** Comparisons on reals *)

Lemma Rltb_true x y : x < y -> Rltb x y = true.
Proof. intros H. unfold Rltb. destruct (Rlt_dec x y); [reflexivity | contradiction]. Qed.

Lemma Rltb_false x y : ~ x < y -> Rltb x y = false.
Proof. intros H. unfold Rltb. destruct (Rlt_dec x y); [contradiction | reflexivity]. Qed.

Lemma Reqb_true x y : x = y -> Reqb x y = true.
Proof. intros H. unfold Reqb. destruct (Req_dec_T x y); [reflexivity | contradiction]. Qed.

Lemma Reqb_false x y : x <> y -> Reqb x y = false.
Proof. intros H. unfold Reqb. destruct (Req_dec_T x y); [contradiction | reflexivity]. Qed.

(** ** Lists and masks *)

Lemma zip_with_firstn {A B C} (g : A -> B -> C) (a : list A) (b : list B) :
  zip_with g a (firstn (length a) b) = zip_with g a b.
Proof.
  revert b. induction a as [|x a IH]; intros [|y b]; simpl; try reflexivity.
  now rewrite IH.
Qed.

Lemma mask_filter_all_true {A} (l : list A) :
  mask_filter (repeat true (length l)) l = l.
Proof. induction l as [|x l IH]; simpl; [reflexivity | now rewrite IH]. Qed.

Lemma mask_filter_drop_first {A} (l : list A) m :
  length l = S m -> mask_filter (false :: repeat true m) l = tl l.
Proof.
  destruct l as [|x l]; simpl; intros H; [discriminate|].
  injection H as <-. apply mask_filter_all_true.
Qed.

(** ** Columns of finite prices *)

Lemma positive_col_repr c :
  positive_col c -> exists ps, c = map Num ps /\ Forall (fun p => 0 < p) ps.
Proof.
  induction 1 as [|v c (x & -> & Hx) _ (ps & -> & Hps)].
  - exists []. split; [reflexivity | constructor].
  - exists (x :: ps). split; [reflexivity | now constructor].
Qed.

Lemma ffill_from_nums last ps : ffill_from last (map Num ps) = map Num ps.
Proof.
  revert last. induction ps as [|p ps IH]; intros last; simpl; [reflexivity|].
  now rewrite IH.
Qed.

Lemma pct_change_col_nums p0 ps :
  Forall (fun p => 0 < p) (p0 :: ps) ->
  pct_change_col (map Num (p0 :: ps)) =
  NaN :: map Num (zip_with (fun p q => p / q - 1) ps (p0 :: ps)).
Proof.
  intros Hpos. unfold pct_change_col, ffill, shift.
  rewrite ffill_from_nums, zip_with_firstn. simpl. f_equal.
  revert p0 Hpos. induction ps as [|p ps IH]; intros p0 Hpos; simpl; [reflexivity|].
  inversion Hpos as [|? ? Hp0 Hrest]; subst.
  rewrite Reqb_false by lra. simpl.
  rewrite IH by assumption. reflexivity.
Qed.

(** ** Dropping the rows that are missing everywhere *)

Lemma map_const_repeat {A B} (f : A -> B) (b : B) (l : list A) :
  (forall i, In i l -> f i = b) -> map f l = repeat b (length l).
Proof.
  induction l as [|x l IH]; intros H; simpl; [reflexivity|].
  rewrite H by now left. f_equal. apply IH. intros i Hi. apply H. now right.
Qed.

Lemma dropna_mask_leading_nan df m :
  cols df <> [] ->
  nrows df = S m ->
  Forall (fun c => leading_nan m (snd c)) (cols df) ->
  dropna_mask df = false :: repeat true m.
Proof.
  intros Hne Hn Hcols. unfold dropna_mask. rewrite Hn. simpl. f_equal.
  - unfold row_at. clear Hne. induction Hcols as [|c cs (xs & Hc & _) _ IH]; simpl.
    + reflexivity.
    + rewrite Hc. simpl. exact IH.
  - rewrite (map_const_repeat _ true).
    + now rewrite length_seq.
    + intros i Hi. apply in_seq in Hi.
      destruct (cols df) as [|c cs] eqn:E; [contradiction|].
      unfold row_at. rewrite E. simpl.
      inversion Hcols as [|? ? (xs & Hc & Hlen & Hxs) _]; subst.
      rewrite Hc. unfold cell.
      destruct i as [|i]; [lia|]. simpl.
      rewrite List.Forall_forall in Hxs.
      rewrite (Hxs (nth i xs NaN)); [reflexivity|].
      apply nth_In. lia.
Qed.

Lemma dropna_all_leading_nan df m :
  cols df <> [] ->
  nrows df = S m ->
  Forall (fun c => leading_nan m (snd c)) (cols df) ->
  dropna_all df =
  mkDF (tl (index df)) (map (fun c => (fst c, tl (snd c))) (cols df)).
Proof.
  intros Hne Hn Hcols. unfold dropna_all.
  rewrite (dropna_mask_leading_nan df m) by assumption.
  f_equal.
  - now apply mask_filter_drop_first.
  - apply map_ext_Forall. eapply Forall_impl; [exact Hcols|].
    intros c (xs & Hc & Hlen & _). cbv beta. f_equal.
    apply mask_filter_drop_first. rewrite Hc. simpl. now rewrite Hlen.
Qed.

Lemma nth_error_zip_with {A B C} (g : A -> B -> C) a b t x y :
  nth_error a t = Some x -> nth_error b t = Some y ->
  nth_error (zip_with g a b) t = Some (g x y).
Proof.
  revert a b. induction t as [|t IH]; intros [|x' a] [|y' b]; simpl;
    try discriminate.
  - now intros [= ->] [= ->].
  - apply IH.
Qed.

Lemma length_zip_with_tl {A C} (g : A -> A -> C) (l : list A) :
  length (zip_with g (tl l) l) = pred (length l).
Proof.
  destruct l as [|x l]; [reflexivity|]. simpl.
  revert x. induction l as [|y l IH]; intros x; simpl; [reflexivity|].
  now rewrite IH.
Qed.

(** ** Claim C1: percentage and logarithmic returns of a price table *)

(** The return of one period, as the specification writes it. *)
Lemma log_return_cell p q :
  0 < p -> 0 < q ->
  flog (fadd (Num 1) (Num (p / q - 1))) = Num (ln (p / q)).
Proof.
  intros Hp Hq. simpl.
  assert (Hr : 0 < p / q) by now apply Rdiv_lt_0_compat.
  rewrite Rltb_true by lra. do 2 f_equal. ring.
Qed.

Lemma returns_col_shape (lg : bool) p0 ps :
  Forall (fun p => 0 < p) (p0 :: ps) ->
  let f := fun p q => if lg then ln (p / q) else p / q - 1 in
  (if lg then map flog (map (fadd (Num 1)) (pct_change_col (map Num (p0 :: ps))))
   else pct_change_col (map Num (p0 :: ps)))
  = NaN :: map Num (zip_with f ps (p0 :: ps)).
Proof.
  intros Hpos f. rewrite pct_change_col_nums by assumption.
  destruct lg; [|reflexivity]. simpl. f_equal.
  revert p0 Hpos. induction ps as [|p ps IH]; intros p0 Hpos; [reflexivity|].
  inversion Hpos as [|? ? Hp0 Hrest]; subst.
  inversion Hrest as [|? ? Hp _]; subst.
  cbn [zip_with map]. rewrite log_return_cell by assumption.
  f_equal. now apply IH.
Qed.

Lemma returns_frame_shape (lg : bool) df m :
  well_formed df ->
  nrows df = S m ->
  cols df <> [] ->
  positive_prices df ->
  let raw := if lg then map_frame flog (map_frame (fadd (Num 1)) (pct_change df))
             else pct_change df in
  Forall2 (fun c r =>
             fst r = fst c /\
             exists p0 ps, snd c = map Num (p0 :: ps) /\ length ps = m /\
               Forall (fun p => 0 < p) (p0 :: ps) /\
               snd r = map Num (zip_with
                                  (fun p q => if lg then ln (p / q) else p / q - 1)
                                  ps (p0 :: ps)))
          (cols df) (cols (dropna_all raw))
  /\ index (dropna_all raw) = tl (index df).
Proof.
  intros Hwf Hn Hne Hpos raw.
  assert (Hcols : Forall (fun c => exists p0 ps,
             snd c = map Num (p0 :: ps) /\ length ps = m /\
             Forall (fun p => 0 < p) (p0 :: ps)) (cols df)).
  { unfold well_formed in Hwf. unfold positive_prices in Hpos.
    rewrite List.Forall_forall in *. intros c Hc.
    destruct (positive_col_repr _ (Hpos c Hc)) as (ps & Hps & Hp).
    specialize (Hwf c Hc). rewrite Hps, length_map, Hn in Hwf.
    destruct ps as [|p0 ps]; [discriminate|].
    exists p0, ps. repeat split; [assumption | simpl in Hwf; lia | assumption]. }
  assert (Hraw : cols raw =
            map (fun c => (fst c,
                           if lg then map flog (map (fadd (Num 1)) (pct_change_col (snd c)))
                           else pct_change_col (snd c))) (cols df)).
  { unfold raw. destruct lg; simpl; [|reflexivity].
    rewrite !map_map. reflexivity. }
  assert (Hidx : index raw = index df) by (unfold raw; now destruct lg).
  assert (Hlead : Forall (fun c => leading_nan m (snd c)) (cols raw)).
  { rewrite Hraw. rewrite List.Forall_map. eapply Forall_impl; [exact Hcols|].
    intros c (p0 & ps & Hc & Hlen & Hp). cbv beta. simpl.
    rewrite Hc, (returns_col_shape lg) by assumption.
    eexists. split; [reflexivity|]. split.
    - rewrite length_map. change (p0 :: ps) with (tl (p0 :: p0 :: ps)) at 1.
      change ps with (tl (p0 :: ps)) at 1.
      rewrite length_zip_with_tl. simpl. exact Hlen.
    - rewrite List.Forall_map. apply List.Forall_forall. reflexivity. }
  rewrite (dropna_all_leading_nan raw m).
  - simpl. split; [|now rewrite Hidx].
    rewrite Hraw, map_map. simpl.
    clear Hraw Hlead Hne Hwf Hpos.
    induction Hcols as [|c cs (p0 & ps & Hc & Hlen & Hp) _ IH]; simpl; constructor.
    + split; [reflexivity|]. exists p0, ps. repeat split; try assumption.
      simpl. rewrite Hc, (returns_col_shape lg) by assumption. reflexivity.
    + exact IH.
  - rewrite Hraw. destruct (cols df); [contradiction | discriminate].
  - unfold nrows. now rewrite Hidx.
  - exact Hlead.
Qed.

Lemma nth_error_map_Num l n p :
  nth_error (map Num l) n = Some (Num p) -> nth_error l n = Some p.
Proof.
  rewrite nth_error_map. destruct (nth_error l n); simpl; [|discriminate].
  now intros [= ->].
Qed.

Lemma lookup_cell_cols df j t :
  lookup_cell df j t =
  match nth_error (cols df) j with
  | Some c => nth_error (snd c) t
  | None => None
  end.
Proof. reflexivity. Qed.

(** C1.  For a price table with at least two rows, at least one asset
    column and finite prices above zero, the in-memory path of
    [returns_from_prices] succeeds; the result keeps the columns, loses
    exactly the first date row, and its cell at row [t] is
    [p[t+1] / p[t] - 1] (percentage returns) or [ln (p[t+1] / p[t])]
    (logarithmic returns) of the prices of its column. *)
Theorem returns_from_prices_cellwise (df : DataFrame) (log_returns : bool) :
  well_formed df ->
  (2 <= nrows df)%nat ->
  cols df <> [] ->
  positive_prices df ->
  exists r,
    returns_from_prices (Pandas df) log_returns false = ok (Pandas r) /\
    index r = tl (index df) /\
    nrows df = S (nrows r) /\
    columns r = columns df /\
    well_formed r /\
    forall j t p q,
      lookup_cell df j (S t) = Some (Num p) ->
      lookup_cell df j t = Some (Num q) ->
      lookup_cell r j t =
      Some (Num (if log_returns then ln (p / q) else p / q - 1)).
Proof.
  intros Hwf Hn Hne Hpos.
  destruct (nrows df) as [|m] eqn:En; [lia|].
  pose proof (returns_frame_shape log_returns df m Hwf En Hne Hpos) as [Hcols Hidx].
  cbv zeta in Hcols, Hidx.
  set (r := dropna_all (if log_returns
                        then map_frame flog (map_frame (fadd (Num 1)) (pct_change df))
                        else pct_change df)) in *.
  exists r. split; [|split; [|split; [|split; [|split]]]].
  - unfold returns_from_prices. simpl. destruct log_returns; reflexivity.
  - exact Hidx.
  - unfold nrows in *. rewrite Hidx. destruct (index df); simpl in *; lia.
  - unfold columns. clear -Hcols.
    induction Hcols as [|c c' cs cs' [Hf _] _ IH]; simpl; [reflexivity|].
    now rewrite Hf, IH.
  - unfold well_formed, nrows. rewrite Hidx.
    assert (Hlen : length (tl (index df)) = m).
    { unfold nrows in En. destruct (index df); simpl in *; lia. }
    rewrite Hlen. clear -Hcols.
    induction Hcols as [|c c' cs cs' (_ & p0 & ps & _ & Hl & _ & Hr) _ IH];
      constructor; [|exact IH].
    rewrite Hr, length_map.
    change ps with (tl (p0 :: ps)) at 1. now rewrite length_zip_with_tl.
  - intros j t p q. rewrite !lookup_cell_cols.
    clear -Hcols. revert j.
    induction Hcols as [|c c' cs cs' (_ & p0 & ps & Hc & _ & _ & Hr) _ IH];
      intros [|j]; try discriminate; [|apply IH].
    cbn [nth_error]. rewrite Hc, Hr. intros E1 E2.
    apply nth_error_map_Num in E1, E2.
    rewrite nth_error_map.
    erewrite nth_error_zip_with; [reflexivity | exact E1 | exact E2].
Qed.

(** ** Claim C4: from prices to returns and back *)

Lemma cumprod_from_ratios a p1 rest :
  0 < a -> 0 < p1 -> Forall (fun p => 0 < p) rest ->
  cumprod_from (Num (a / p1))
    (map Num (zip_with (fun p q => p / q) rest (a :: rest))) =
  map Num (map (fun p => p / p1) rest).
Proof.
  intros Ha Hp1 Hrest. revert a Ha.
  induction Hrest as [|p rest Hp _ IH]; intros a Ha; [reflexivity|].
  cbn [zip_with map cumprod_from isnan fmul].
  replace (a / p1 * (p / a)) with (p / p1) by (field; lra).
  f_equal. now apply IH.
Qed.

(** What [1 + r] and [exp r] make of a column of returns: the price
    ratios of consecutive rows. *)
Lemma gross_returns_col (lg : bool) p0 ps :
  Forall (fun p => 0 < p) (p0 :: ps) ->
  map (if lg then fexp else fadd (Num 1))
      (map Num (zip_with (fun p q => if lg then ln (p / q) else p / q - 1)
                  ps (p0 :: ps))) =
  map Num (zip_with (fun p q => p / q) ps (p0 :: ps)).
Proof.
  intros Hpos. revert p0 Hpos.
  induction ps as [|p ps IH]; intros p0 Hpos; [reflexivity|].
  inversion Hpos as [|? ? Hp0 Hrest]; subst.
  inversion Hrest as [|? ? Hp _]; subst.
  cbn [zip_with map]. rewrite IH by assumption. f_equal.
  destruct lg; simpl; f_equal.
  - apply exp_ln. now apply Rdiv_lt_0_compat.
  - ring.
Qed.

Lemma anchored_cumprod_col (lg : bool) p0 p1 ps :
  Forall (fun p => 0 < p) (p0 :: p1 :: ps) ->
  cumprod_col
    (match map (if lg then fexp else fadd (Num 1))
               (map Num (zip_with
                           (fun p q => if lg then ln (p / q) else p / q - 1)
                           (p1 :: ps) (p0 :: p1 :: ps))) with
     | [] => []
     | _ :: rest => Num 1 :: rest
     end) =
  map Num (map (fun p => p / p1) (p1 :: ps)).
Proof.
  intros Hpos. rewrite gross_returns_col by assumption.
  inversion Hpos as [|? ? Hp0 Hrest]; subst.
  inversion Hrest as [|? ? Hp1 Hps]; subst.
  cbn [zip_with map]. unfold cumprod_col. cbn [cumprod_from isnan fmul].
  replace (1 * 1) with (p1 / p1) by (field; lra).
  f_equal. now apply cumprod_from_ratios.
Qed.

(** The composite [prices_from_returns (returns_from_prices P)] on a
    table of finite prices above zero: it starts at the second date row
    of [P], and every column is divided by its second price. *)
Lemma roundtrip_shape (lg : bool) df m :
  well_formed df ->
  nrows df = S (S m) ->
  cols df <> [] ->
  positive_prices df ->
  exists r q,
    returns_from_prices (Pandas df) lg false = ok (Pandas r) /\
    prices_from_returns r lg = ok q /\
    index q = tl (index df) /\
    Forall2 (fun c c' =>
               fst c' = fst c /\
               exists p0 p1 ps, snd c = map Num (p0 :: p1 :: ps) /\
                 length ps = m /\
                 snd c' = map Num (map (fun p => p / p1) (p1 :: ps)))
            (cols df) (cols q).
Proof.
  intros Hwf Hn Hne Hpos.
  pose proof (returns_frame_shape lg df (S m) Hwf Hn Hne Hpos) as [Hcols Hidx].
  cbv zeta in Hcols, Hidx.
  set (r := dropna_all (if lg
                        then map_frame flog (map_frame (fadd (Num 1)) (pct_change df))
                        else pct_change df)) in *.
  assert (Hret : (if lg then map_frame fexp r else map_frame (fadd (Num 1)) r) =
                 map_frame (if lg then fexp else fadd (Num 1)) r)
    by now destruct lg.
  unfold nrows in Hn.
  destruct (index df) as [|d0 [|d1 ds]] eqn:Ei; try discriminate.
  cbn [tl] in Hidx.
  eexists r, _. split; [|split; [|split]].
  - unfold returns_from_prices. simpl. destruct lg; reflexivity.
  - unfold prices_from_returns. rewrite Hret. unfold iloc0_set.
    cbn [map_frame index]. rewrite Hidx. cbn [rbind raise ok]. reflexivity.
  - reflexivity.
  - cbn [cumprod cols map_frame]. rewrite !map_map. cbn [fst snd].
    clear -Hcols.
    induction Hcols as [|c c' cs cs' (Hf & p0 & ps & Hc & Hl & Hp & Hr) _ IH];
      cbn [map]; constructor; [|exact IH].
    split; [exact Hf|].
    destruct ps as [|p1 ps]; [discriminate|].
    exists p0, p1, ps. split; [exact Hc|]. split; [simpl in Hl; lia|].
    cbn [fst snd]. rewrite Hr. now apply anchored_cumprod_col.
Qed.

Lemma Forall2_nth_error_l {A B} (P : A -> B -> Prop) l l' j c :
  Forall2 P l l' -> nth_error l j = Some c ->
  exists c', nth_error l' j = Some c' /\ P c c'.
Proof.
  intros H. revert j. induction H as [|x y l l' Hxy _ IH]; intros [|j]; simpl;
    try discriminate.
  - intros [= ->]. now exists y.
  - apply IH.
Qed.

Lemma Forall2_map_fst {A B C} (l : list (A * B)) (l' : list (A * C)) P :
  Forall2 (fun c c' => fst c' = fst c /\ P c c') l l' ->
  map fst l' = map fst l.
Proof.
  induction 1 as [|c c' cs cs' [Hf _] _ IH]; simpl; [reflexivity|].
  now rewrite Hf, IH.
Qed.

Lemma one_asset_well_formed p0 p1 p2 : well_formed (one_asset p0 p1 p2).
Proof. repeat constructor. Qed.

Lemma one_asset_positive p0 p1 p2 :
  0 < p0 -> 0 < p1 -> 0 < p2 -> positive_prices (one_asset p0 p1 p2).
Proof.
  intros H0 H1 H2. repeat constructor; eexists; (split; [reflexivity|assumption]).
Qed.

(** C4, as the code has it.  On a table of finite prices above zero with
    at least two rows and one column, [prices_from_returns] applied to
    the result of [returns_from_prices] (same convention on both sides)
    returns the table that starts at the second date row of [P] and
    holds every price over the second price of its column: it has one
    row fewer than [P], and it is [P[1:] / P[1]], not [P / P[0]]. *)
Theorem prices_from_returns_roundtrip (df : DataFrame) (log_returns : bool) :
  well_formed df ->
  (2 <= nrows df)%nat ->
  cols df <> [] ->
  positive_prices df ->
  exists r q,
    returns_from_prices (Pandas df) log_returns false = ok (Pandas r) /\
    prices_from_returns r log_returns = ok q /\
    index q = tl (index df) /\
    nrows df = S (nrows q) /\
    columns q = columns df /\
    forall j t p p1,
      lookup_cell df j (S t) = Some (Num p) ->
      lookup_cell df j 1 = Some (Num p1) ->
      lookup_cell q j t = Some (Num (p / p1)).
Proof.
  intros Hwf Hn Hne Hpos.
  destruct (nrows df) as [|[|m]] eqn:En; try lia.
  destruct (roundtrip_shape log_returns df m Hwf En Hne Hpos)
    as (r & q & Hr & Hq & Hidx & Hcols).
  exists r, q. split; [exact Hr|]. split; [exact Hq|]. split; [exact Hidx|].
  split; [|split].
  - unfold nrows in *. rewrite Hidx. destruct (index df); simpl in *; lia.
  - unfold columns. eapply Forall2_map_fst. exact Hcols.
  - intros j t p p1. rewrite !lookup_cell_cols.
    destruct (nth_error (cols df) j) as [c|] eqn:Ec; [|discriminate].
    destruct (Forall2_nth_error_l _ _ _ _ _ Hcols Ec)
      as (c' & -> & _ & p0 & p1' & ps & Hc & _ & Hc').
    rewrite Hc, Hc'. intros E1 E2.
    apply nth_error_map_Num in E1, E2. simpl in E2. injection E2 as ->.
    rewrite nth_error_map. simpl in E1.
    rewrite (nth_error_map (fun p => p / p1) t (p1 :: ps)), E1. reflexivity.
Qed.

(** C4, as the specification states it, fails: for the prices
    [100, 110, 132] of one asset the composite does not return
    [P / P[0]].  It returns two rows where [P] has three, and its second
    row holds [132 / 110] where [P / P[0]] holds [110 / 100]. *)
Lemma roundtrip_counterexample :
  ~ (exists r, returns_from_prices (Pandas (one_asset 100 110 132)) false false = ok (Pandas r) /\
               prices_from_returns r false = ok (ratio_to_first_row (one_asset 100 110 132))) /\
  exists r q, returns_from_prices (Pandas (one_asset 100 110 132)) false false = ok (Pandas r) /\
              prices_from_returns r false = ok q /\
              nrows q = 2%nat /\ nrows (ratio_to_first_row (one_asset 100 110 132)) = 3%nat /\
              lookup_cell q 0 1 = Some (Num (132 / 110)) /\
              lookup_cell (ratio_to_first_row (one_asset 100 110 132)) 0 1 = Some (Num (110 / 100)) /\
              132 / 110 <> 110 / 100.
Proof.
  set (P := one_asset 100 110 132).
  assert (Hpos : positive_prices P) by (apply one_asset_positive; lra).
  destruct (roundtrip_shape false P 1 (one_asset_well_formed _ _ _)
              eq_refl ltac:(discriminate) Hpos)
    as (r & q & Hr & Hq & Hidx & Hcols).
  split.
  - intros (r' & Hr' & Hq'). rewrite Hr in Hr'. injection Hr' as <-.
    rewrite Hq in Hq'. injection Hq' as ->. discriminate Hidx.
  - exists r, q. split; [exact Hr|]. split; [exact Hq|].
    split; [unfold nrows; now rewrite Hidx|]. split; [reflexivity|].
    split; [|split].
    + inversion Hcols as [|c c' cs cs' (_ & p0 & p1 & ps & Hc & _ & Hc') _ E1 E2].
      rewrite lookup_cell_cols. rewrite <- E2. cbn [nth_error].
      rewrite Hc'. subst c. simpl in Hc. injection Hc as <- <- Hps.
      destruct ps as [|p2 [|? ?]]; try discriminate.
      injection Hps as <-. reflexivity.
    + unfold lookup_cell, ratio_to_first_row, P, one_asset, cell. simpl.
      rewrite Reqb_false by lra. reflexivity.
    + lra.
Qed.

(** ** The store *)

(** One step of a computation in the store. *)
Ltac mstep := cbv beta iota delta [mbind mret lift ok].

Lemma load_some (s : store) l df :
  s !! l = Some df -> load l s = (ok df, s).
Proof. intros H. unfold load. now rewrite H. Qed.

Lemma fresh_loc_unused (s : store) : s !! fresh (dom s) = None.
Proof. apply not_elem_of_dom. apply is_fresh. Qed.

(** [returns_from_prices] never fails on a pandas table in the in-memory
    mode; the estimators bind its result to a fresh reference. *)
Lemma returns_of_spec (s : store) l df :
  s !! l = Some df ->
  returns_of l s =
  (ok (fresh (dom s)), <[fresh (dom s) := dropna_all (pct_change df)]> s).
Proof.
  intros H. unfold returns_of, mbind. rewrite (load_some s l df H). reflexivity.
Qed.

Lemma load_after_alloc (s : store) df :
  load (fresh (dom s)) (<[fresh (dom s) := df]> s) =
  (ok df, <[fresh (dom s) := df]> s).
Proof. apply load_some. apply lookup_insert_eq. Qed.

(** ** Claim C2: the historical mean *)

Lemma fpow_pos x y :
  0 < x -> y <> 0 -> fpow (Num x) (Num y) = Num (Rpower x y).
Proof.
  intros Hx Hy. unfold fpow. now rewrite Reqb_false, Rltb_true.
Qed.

Lemma fdiv_num x y : y <> 0 -> fdiv (Num x) (Num y) = Num (x / y).
Proof. intros Hy. unfold fdiv. now rewrite Reqb_false. Qed.

Lemma valid_nums xs : valid (map Num xs) = map Num xs.
Proof. induction xs as [|x xs IH]; [reflexivity|]. unfold valid in *. simpl. now rewrite IH. Qed.

Lemma col_mean_nums xs :
  xs <> [] -> col_mean (map Num xs) = Num (mean_reals xs).
Proof.
  intros Hne. unfold col_mean, col_sum, col_count, mean_reals.
  rewrite valid_nums, length_map.
  assert (Hs : fold_right fadd (Num 0) (map Num xs) = Num (fold_right Rplus 0 xs)).
  { clear. induction xs as [|x xs IH]; [reflexivity|]. simpl. now rewrite IH. }
  rewrite Hs. apply fdiv_num. apply not_0_INR.
  destruct xs; [contradiction | discriminate].
Qed.

Lemma col_count_nums xs : col_count (map Num xs) = length xs.
Proof. unfold col_count. now rewrite valid_nums, length_map. Qed.

Lemma col_prod_gross_nums rs :
  col_prod (map (fadd (Num 1)) (map Num rs)) =
  Num (fold_right Rmult 1 (map (fun r => 1 + r) rs)).
Proof.
  unfold col_prod. rewrite map_map. cbn [fadd].
  rewrite <- (map_map (fun r => 1 + r) Num), valid_nums.
  induction (map (fun r => 1 + r) rs) as [|x xs IH]; [reflexivity|].
  cbn [map fold_right]. now rewrite IH.
Qed.

(** The series arithmetic of the compounding branch, column by column. *)
Lemma compounding_series frequency (df : DataFrame) :
  series_map (fun v => fsub v (Num 1))
    (series_zip fpow
       (reduce col_prod (map_frame (fadd (Num 1)) df))
       (series_map (fun n => fdiv (Num frequency) n)
          (reduce (fun c => Num (INR (col_count c))) df))) =
  map (fun c =>
         (fst c,
          fsub (fpow (col_prod (map (fadd (Num 1)) (snd c)))
                     (fdiv (Num frequency) (Num (INR (col_count (snd c))))))
               (Num 1)))
      (cols df).
Proof.
  unfold series_map, series_zip, reduce, map_frame. cbn [cols].
  induction (cols df) as [|c cs IH]; [reflexivity|].
  cbn [map zip_with fst snd]. f_equal. exact IH.
Qed.

Lemma arithmetic_series frequency (df : DataFrame) :
  series_map (fun v => fmul v (Num frequency)) (reduce col_mean df) =
  map (fun c => (fst c, fmul (col_mean (snd c)) (Num frequency))) (cols df).
Proof. unfold series_map, reduce. now rewrite map_map. Qed.

(** The annualised mean of one column of returns, as the specification
    writes it. *)
Lemma mean_historical_return_on (s : store) l r compounding frequency :
  s !! l = Some r ->
  mean_historical_return l true compounding frequency s =
  (ok (map (fun c =>
              (fst c,
               if compounding
               then fsub (fpow (col_prod (map (fadd (Num 1)) (snd c)))
                               (fdiv (Num frequency)
                                     (Num (INR (col_count (snd c))))))
                         (Num 1)
               else fmul (col_mean (snd c)) (Num frequency)))
           (cols r)),
   s).
Proof.
  intros H. unfold mean_historical_return. mstep.
  rewrite (load_some s l r H). mstep.
  destruct compounding.
  - now rewrite compounding_series.
  - now rewrite arithmetic_series.
Qed.

Lemma one_asset_returns p0 p1 p2 :
  0 < p0 -> 0 < p1 -> 0 < p2 ->
  dropna_all (pct_change (one_asset p0 p1 p2)) =
  mkDF [1%Z; 2%Z] [("A", [Num (p1 / p0 - 1); Num (p2 / p1 - 1)])].
Proof.
  intros H0 H1 H2.
  assert (Hc : pct_change_col [Num p0; Num p1; Num p2] =
               [NaN; Num (p1 / p0 - 1); Num (p2 / p1 - 1)]).
  { apply (pct_change_col_nums p0 [p1; p2]). repeat constructor; assumption. }
  rewrite (dropna_all_leading_nan _ 2).
  - unfold pct_change, one_asset. cbn [index cols map fst snd tl]. now rewrite Hc.
  - discriminate.
  - reflexivity.
  - unfold pct_change, one_asset. cbn [index cols map fst snd]. rewrite Hc.
    repeat constructor. eexists. split; [reflexivity|]. now repeat constructor.
Qed.

(** The result of [mean_historical_return] on every table, column by
    column. *)
Lemma mean_historical_return_run (s : store) l df
    (returns_data compounding : bool) frequency :
  s !! l = Some df ->
  let r := if returns_data then df else dropna_all (pct_change df) in
  mean_historical_return l returns_data compounding frequency s =
  (ok (map (fun c =>
              (fst c,
               if compounding
               then fsub (fpow (col_prod (map (fadd (Num 1)) (snd c)))
                               (fdiv (Num frequency)
                                     (Num (INR (col_count (snd c))))))
                         (Num 1)
               else fmul (col_mean (snd c)) (Num frequency)))
           (cols r)),
   if returns_data then s else <[fresh (dom s) := r]> s).
Proof.
  intros H r. destruct returns_data.
  - now apply mean_historical_return_on.
  - unfold mean_historical_return. mstep.
    rewrite (returns_of_spec s l df H). mstep.
    rewrite load_after_alloc. mstep.
    destruct compounding.
    + now rewrite compounding_series.
    + now rewrite arithmetic_series.
Qed.

Lemma valid_gross c : valid (map (fadd (Num 1)) c) = map (fadd (Num 1)) (valid c).
Proof.
  unfold valid. induction c as [|x c IH]; [reflexivity|].
  cbn [map List.filter]. rewrite IH. now destruct x.
Qed.

(** The reductions of a column whose valid cells are the finite [xs]. *)
Lemma col_prod_gross_valid c xs :
  valid c = map Num xs ->
  col_prod (map (fadd (Num 1)) c) =
  Num (fold_right Rmult 1 (map (fun x => 1 + x) xs)).
Proof.
  intros H. unfold col_prod. rewrite valid_gross, H. clear H.
  induction xs as [|x xs IH]; [reflexivity|].
  cbn [map fold_right fadd]. rewrite IH. reflexivity.
Qed.

Lemma col_count_valid c xs : valid c = map Num xs -> col_count c = length xs.
Proof. intros H. unfold col_count. now rewrite H, length_map. Qed.

Lemma col_mean_valid c xs :
  valid c = map Num xs -> xs <> [] ->
  col_mean c = Num (fold_right Rplus 0 xs / INR (length xs)).
Proof.
  intros H Hne. unfold col_mean, col_sum. rewrite (col_count_valid c xs H), H.
  assert (Hs : fold_right fadd (Num 0) (map Num xs) = Num (fold_right Rplus 0 xs)).
  { clear. induction xs as [|x xs IH]; [reflexivity|]. simpl. now rewrite IH. }
  rewrite Hs. apply fdiv_num. apply not_0_INR.
  destruct xs; [contradiction | discriminate].
Qed.

Lemma gross_product_pos xs :
  Forall (fun x => -1 < x) xs ->
  0 < fold_right Rmult 1 (map (fun x => 1 + x) xs).
Proof.
  induction 1 as [|x xs Hx _ IH]; cbn [map fold_right]; [lra|].
  apply Rmult_lt_0_compat; lra.
Qed.

(** The power of the compounding branch on a base above zero, with any
    exponent. *)
Lemma fpow_base_pos x y : 0 < x -> fpow (Num x) (Num y) = Num (Rpower x y).
Proof.
  intros Hx. destruct (Req_dec_T y 0) as [->|Hy].
  - unfold fpow. rewrite Reqb_true by reflexivity.
    now rewrite Rpower_O by exact Hx.
  - now apply fpow_pos.
Qed.

(** The value an asset gets from the returns [xs] that are not missing. *)
Lemma annualised_value_pos (compounding : bool) frequency c xs :
  valid c = map Num xs ->
  xs <> [] ->
  (compounding = true -> 0 < fold_right Rmult 1 (map (fun x => 1 + x) xs)) ->
  (if compounding
   then fsub (fpow (col_prod (map (fadd (Num 1)) c))
                   (fdiv (Num frequency) (Num (INR (col_count c)))))
             (Num 1)
   else fmul (col_mean c) (Num frequency)) =
  Num (if compounding
       then Rpower (fold_right Rmult 1 (map (fun x => 1 + x) xs))
                   (frequency / INR (length xs)) - 1
       else fold_right Rplus 0 xs / INR (length xs) * frequency).
Proof.
  intros Hv Hne Hpos.
  assert (Hn : INR (length xs) <> 0).
  { apply not_0_INR. destruct xs; [contradiction | discriminate]. }
  destruct compounding.
  - rewrite (col_prod_gross_valid c xs Hv), (col_count_valid c xs Hv).
    rewrite fdiv_num by exact Hn.
    rewrite fpow_base_pos by now apply Hpos.
    reflexivity.
  - now rewrite (col_mean_valid c xs Hv Hne).
Qed.

Lemma annualised_value (compounding : bool) frequency c xs :
  valid c = map Num xs ->
  xs <> [] ->
  (compounding = true -> Forall (fun x => -1 < x) xs) ->
  (if compounding
   then fsub (fpow (col_prod (map (fadd (Num 1)) c))
                   (fdiv (Num frequency) (Num (INR (col_count c)))))
             (Num 1)
   else fmul (col_mean c) (Num frequency)) =
  Num (if compounding
       then Rpower (fold_right Rmult 1 (map (fun x => 1 + x) xs))
                   (frequency / INR (length xs)) - 1
       else fold_right Rplus 0 xs / INR (length xs) * frequency).
Proof.
  intros Hv Hne Hpos. apply annualised_value_pos; [assumption..|].
  intros E. apply gross_product_pos. now apply Hpos.
Qed.

(** C2.  On a table of returns, [mean_historical_return] returns one
    value per asset, in the order of the columns.  For an asset whose
    returns that are not missing are the finite numbers [xs] (above -1
    when compounding), the value is
    [(prod (1 + x)) ^ (frequency / count) - 1] when compounding and
    [(sum x / count) * frequency] otherwise, the power being the real
    power function and [count] the number of [xs].  On a table of
    prices the same holds of the returns computed from it, which are
    bound to a fresh reference.  For the prices [100, 110, 121] of one
    asset and [frequency = 2] the result is [0.21] with compounding and
    [0.20] without; with [frequency = 4] and compounding it is
    [1.21 ^ 2 - 1 = 0.4641]. *)
Theorem mean_historical_return_spec (s : store) (l : loc) (df : DataFrame)
    (returns_data compounding : bool) (frequency : R) :
  s !! l = Some df ->
  let r := if returns_data then df else dropna_all (pct_change df) in
  (exists out,
     mean_historical_return l returns_data compounding frequency s =
       (ok out, if returns_data then s else <[fresh (dom s) := r]> s) /\
     map fst out = columns r /\
     forall j name c xs,
       nth_error (cols r) j = Some (name, c) ->
       valid c = map Num xs ->
       xs <> [] ->
       (compounding = true -> Forall (fun x => -1 < x) xs) ->
       nth_error out j =
       Some (name,
             Num (if compounding
                  then Rpower (fold_right Rmult 1 (map (fun x => 1 + x) xs))
                              (frequency / INR (length xs)) - 1
                  else fold_right Rplus 0 xs / INR (length xs) * frequency)))
  /\ fst (mean_historical_return 0%nat false true 2
            (single_table (one_asset 100 110 121))) = ok [("A", Num 0.21)]
  /\ fst (mean_historical_return 0%nat false false 2
            (single_table (one_asset 100 110 121))) = ok [("A", Num 0.20)]
  /\ fst (mean_historical_return 0%nat false true 4
            (single_table (one_asset 100 110 121))) = ok [("A", Num 0.4641)].
Proof.
  intros H r.
  assert (Hex : forall compounding frequency,
            fst (mean_historical_return 0%nat false compounding frequency
                   (single_table (one_asset 100 110 121))) =
            ok [("A",
                 Num (if compounding
                      then Rpower ((1 + (110 / 100 - 1)) *
                                   ((1 + (121 / 110 - 1)) * 1))
                                  (frequency / (1 + 1)) - 1
                      else (110 / 100 - 1 + (121 / 110 - 1 + 0)) / (1 + 1)
                           * frequency))]).
  { intros c f.
    rewrite (mean_historical_return_run _ 0%nat (one_asset 100 110 121) false c f)
      by apply lookup_singleton_eq.
    cbv zeta. rewrite one_asset_returns by lra. cbn [cols].
    change (map ?g [?x]) with [g x]. cbn [fst snd].
    rewrite (annualised_value c f _ [110 / 100 - 1; 121 / 110 - 1]);
      [reflexivity | reflexivity | discriminate |].
    intros _. repeat constructor; lra. }
  split; [|split; [|split]].
  - rewrite (mean_historical_return_run s l df returns_data compounding
               frequency H). fold r.
    eexists. split; [reflexivity|]. split.
    + rewrite map_map. reflexivity.
    + intros j name c xs Hj Hv Hne Hpos.
      rewrite nth_error_map, Hj. cbn [option_map fst snd].
      now rewrite (annualised_value compounding frequency c xs Hv Hne Hpos).
  - rewrite Hex. do 4 f_equal.
    replace (2 / (1 + 1)) with 1 by lra.
    rewrite Rpower_1 by lra. lra.
  - rewrite Hex. do 4 f_equal. lra.
  - rewrite Hex. do 4 f_equal.
    replace (4 / (1 + 1)) with (INR 2) by (simpl; lra).
    rewrite Rpower_pow by lra. lra.
Qed.

(** ** Claim C8: the exponentially weighted mean *)

Lemma weight_total_pos q n : 0 <= q -> 0 < weight_total q (S n).
Proof.
  intros Hq. induction n as [|n IH].
  - simpl. lra.
  - change (0 < 1 + q * weight_total q (S n)). nra.
Qed.

Lemma ewm_from_seen alpha seen xs :
  0 <= 1 - alpha ->
  seen <> [] ->
  let q := 1 - alpha in
  ewm_from alpha
    (Num (weighted_sum q seen / weight_total q (length seen)))
    (weight_total q (length seen)) (map Num xs) =
  map Num (ewma_after q seen xs).
Proof.
  intros Hq Hseen q. revert seen Hseen.
  induction xs as [|x xs IH]; intros seen Hseen; [reflexivity|].
  cbn [map ewm_from notna isnan negb ewma_after].
  assert (HW : 0 < weight_total q (length seen)).
  { destruct seen; [contradiction|]. now apply weight_total_pos. }
  assert (HW' : 0 < weight_total q (S (length seen))) by now apply weight_total_pos.
  cbn [weight_total] in HW'. fold q.
  cbn [fmul fadd]. rewrite fdiv_num by lra.
  replace ((weight_total q (length seen) * q *
            (weighted_sum q seen / weight_total q (length seen)) + x) /
           (weight_total q (length seen) * q + 1))
    with (weighted_sum q (x :: seen) / weight_total q (S (length seen)))
    by (cbn [weighted_sum weight_total]; field; lra).
  replace (weight_total q (length seen) * q + 1)
    with (weight_total q (length (x :: seen)))
    by (cbn [length weight_total]; ring).
  change (S (length seen)) with (length (x :: seen)) at 1.
  rewrite IH by discriminate. reflexivity.
Qed.

(** On a column without missing cells, [ewm(span).mean()] is the moving
    weighted average with weights [(1 - alpha)^i], [alpha = 2/(span+1)]. *)
Lemma ewm_mean_col_closed span xs :
  1 <= span ->
  ewm_mean_col span (map Num xs) =
  map Num (ewma_after (1 - alpha_of_span span) [] xs).
Proof.
  intros Hspan. unfold ewm_mean_col.
  rewrite map_map. cbn [inf_to_nan]. change (map (fun x => Num x) xs) with (map Num xs).
  assert (Hq : 0 <= 1 - alpha_of_span span).
  { unfold alpha_of_span.
    assert (Hi : 0 < / (span + 1)) by (apply Rinv_0_lt_compat; lra).
    assert (He : / (span + 1) * (span + 1) = 1) by (field; lra).
    unfold Rdiv. nra. }
  destruct xs as [|x xs]; [reflexivity|].
  cbn [map ewm_from notna isnan negb ewma_after].
  pose proof (ewm_from_seen (alpha_of_span span) [x] xs Hq ltac:(discriminate)) as H.
  cbv zeta in H. cbn [length weight_total weighted_sum] in H.
  cbn [length weight_total weighted_sum].
  replace ((x + (1 - alpha_of_span span) * 0) / (1 + (1 - alpha_of_span span) * 0))
    with x in * by (field; lra).
  replace (1 + (1 - alpha_of_span span) * 0) with 1 in H by ring.
  now rewrite H.
Qed.

Lemma ewma_after_nth q seen xs k :
  (k < length xs)%nat ->
  nth k (ewma_after q seen xs) 0 =
  weighted_sum q (rev (firstn (S k) xs) ++ seen) /
  weight_total q (S k + length seen).
Proof.
  revert seen k. induction xs as [|x xs IH]; intros seen k Hk; [simpl in Hk; lia|].
  destruct k as [|k].
  - reflexivity.
  - cbn [ewma_after nth]. rewrite IH by (simpl in Hk; lia).
    cbn [firstn rev length]. rewrite <- !app_assoc. cbn [app].
    now rewrite Nat.add_succ_r.
Qed.

Lemma length_ewma_after q seen xs :
  length (ewma_after q seen xs) = length xs.
Proof.
  revert seen. induction xs as [|x xs IH]; intros seen; simpl; [reflexivity|].
  now rewrite IH.
Qed.

Lemma ewm_last_closed span xs n :
  1 <= span ->
  length xs = S n ->
  cell (ewm_mean_col span (map Num xs)) n =
  Num (ewma (1 - alpha_of_span span) xs).
Proof.
  intros Hspan Hlen. rewrite ewm_mean_col_closed by assumption.
  unfold cell.
  rewrite (nth_indep _ NaN (Num 0))
    by (rewrite length_map, length_ewma_after; lia).
  rewrite map_nth, ewma_after_nth by lia. unfold ewma.
  rewrite <- Hlen, firstn_all, app_nil_r. cbn [length]. now rewrite Nat.add_0_r.
Qed.

Lemma ewm_mean_ok span df :
  1 <= span ->
  ewm_mean span df =
  ok (mkDF (index df)
           (map (fun c => (fst c, ewm_mean_col span (snd c))) (cols df))).
Proof. intros H. unfold ewm_mean. rewrite Rltb_false by lra. reflexivity. Qed.

Lemma ema_historical_return_run (s : store) l df
    (returns_data compounding : bool) span frequency n :
  s !! l = Some df ->
  1 <= span ->
  let r := if returns_data then df else dropna_all (pct_change df) in
  nrows r = S n ->
  ema_historical_return l returns_data compounding span frequency s =
  (ok (map (fun c =>
              (fst c,
               let v := cell (ewm_mean_col span (snd c)) n in
               if compounding
               then fsub (fpow (fadd (Num 1) v) (Num frequency)) (Num 1)
               else fmul v (Num frequency)))
           (cols r)),
   if returns_data then s else <[fresh (dom s) := r]> s).
Proof.
  intros H Hspan r Hn.
  assert (Hlast : iloc_last
            (mkDF (index r)
               (map (fun c => (fst c, ewm_mean_col span (snd c))) (cols r))) =
          ok (map (fun c => (fst c, cell (ewm_mean_col span (snd c)) n)) (cols r))).
  { unfold iloc_last, nrows in *. cbn [index]. rewrite Hn.
    unfold reduce. cbn [cols]. now rewrite map_map. }
  unfold ema_historical_return. mstep.
  destruct returns_data.
  - rewrite (load_some s l df H). mstep.
    destruct compounding; rewrite ewm_mean_ok by assumption; mstep;
      fold r; rewrite Hlast; mstep; unfold series_map; now rewrite map_map.
  - rewrite (returns_of_spec s l df H). mstep.
    rewrite load_after_alloc. mstep.
    destruct compounding; rewrite ewm_mean_ok by assumption; mstep;
      fold r; rewrite Hlast; mstep; unfold series_map; now rewrite map_map.
Qed.

Lemma weight_total_nonneg q n : 0 <= q -> 0 <= weight_total q n.
Proof.
  intros Hq. destruct n; [simpl; lra|]. left. now apply weight_total_pos.
Qed.

Lemma weighted_sum_bounds q lo hi l :
  0 <= q ->
  Forall (fun x => lo <= x <= hi) l ->
  lo * weight_total q (length l) <= weighted_sum q l <= hi * weight_total q (length l).
Proof.
  intros Hq. induction 1 as [|x l Hx Hl IH]; [simpl; lra|].
  cbn [length weighted_sum weight_total].
  pose proof (weight_total_nonneg q (length l) Hq). nra.
Qed.

Lemma ewma_bounds q lo hi xs :
  0 <= q -> xs <> [] ->
  Forall (fun x => lo <= x <= hi) xs ->
  lo <= ewma q xs <= hi.
Proof.
  intros Hq Hne Hxs. unfold ewma.
  assert (Hr : Forall (fun x => lo <= x <= hi) (rev xs)).
  { apply List.Forall_forall. intros x Hx. apply in_rev in Hx.
    revert x Hx. now apply List.Forall_forall. }
  pose proof (weighted_sum_bounds q lo hi (rev xs) Hq Hr) as Hb.
  rewrite length_rev in Hb.
  assert (Hw : 0 < weight_total q (length xs)).
  { destruct xs; [contradiction|]. now apply weight_total_pos. }
  set (w := weight_total q (length xs)) in *.
  assert (Hi : 0 < / w) by now apply Rinv_0_lt_compat.
  assert (He : w * / w = 1) by (field; lra).
  set (a := weighted_sum q (rev xs)) in *. destruct Hb as [Hlo Hhi].
  assert (H1 : 0 <= (a - lo * w) * / w) by (apply Rmult_le_pos; lra).
  assert (H2 : 0 <= (hi * w - a) * / w) by (apply Rmult_le_pos; lra).
  replace ((a - lo * w) * / w) with (a / w - lo) in H1 by (field; lra).
  replace ((hi * w - a) * / w) with (hi - a / w) in H2 by (field; lra).
  lra.
Qed.

Lemma ewma_most_recent xs : xs <> [] -> ewma 0 xs = List.last xs 0.
Proof.
  intros Hne. destruct (exists_last Hne) as (ys & y & ->).
  unfold ewma. rewrite rev_app_distr, length_app, last_last.
  cbn [rev app weighted_sum length]. rewrite Nat.add_comm.
  cbn [Nat.add weight_total]. field.
Qed.

Lemma decay_nonneg span : 1 <= span -> 0 <= 1 - alpha_of_span span.
Proof.
  intros Hspan. unfold alpha_of_span.
  assert (Hi : 0 < / (span + 1)) by (apply Rinv_0_lt_compat; lra).
  assert (He : / (span + 1) * (span + 1) = 1) by (field; lra).
  unfold Rdiv. nra.
Qed.

(** Sums over positions. *)
Lemma sum_scale_l {A} (f : A -> R) c l :
  fold_right Rplus 0 (map (fun a => c * f a) l) = c * fold_right Rplus 0 (map f l).
Proof. induction l as [|a l IH]; cbn [map fold_right]; [ring | rewrite IH; ring]. Qed.

Lemma weighted_sum_index q l :
  weighted_sum q l =
  fold_right Rplus 0 (map (fun i => q ^ i * nth i l 0) (seq 0 (length l))).
Proof.
  induction l as [|x l IH]; [reflexivity|].
  cbn [weighted_sum length seq map fold_right nth pow].
  rewrite <- seq_shift, map_map. cbn [nth pow].
  rewrite (map_ext (fun i => q * q ^ i * nth i l 0)
                   (fun i => q * (q ^ i * nth i l 0)))
    by (intros; ring).
  rewrite sum_scale_l, <- IH. ring.
Qed.

Lemma weight_total_index q n :
  weight_total q n = fold_right Rplus 0 (map (fun i => q ^ i) (seq 0 n)).
Proof.
  induction n as [|n IH]; [reflexivity|].
  cbn [weight_total seq map fold_right pow].
  rewrite <- seq_shift, map_map. cbn [pow].
  rewrite sum_scale_l, IH. reflexivity.
Qed.

(** The average in closed form: weight [q^i] on the observation [i]
    rows before the last. *)
Lemma ewma_closed q xs n :
  length xs = S n ->
  ewma q xs =
  fold_right Rplus 0 (map (fun i => q ^ i * nth (n - i) xs 0) (seq 0 (S n)))
  / fold_right Rplus 0 (map (fun i => q ^ i) (seq 0 (S n))).
Proof.
  intros Hlen. unfold ewma.
  rewrite weighted_sum_index, weight_total_index, length_rev, Hlen.
  f_equal. f_equal. apply map_ext_in. intros i Hi. apply in_seq in Hi.
  f_equal. rewrite rev_nth by lia. rewrite Hlen. reflexivity.
Qed.

Lemma returns_bounds xs :
  Forall (fun x => -1 < x) xs ->
  exists lo hi, -1 < lo /\ Forall (fun x => lo <= x <= hi) xs.
Proof.
  induction 1 as [|x xs Hx _ (lo & hi & Hlo & IH)].
  - exists 0, 0. split; [lra | constructor].
  - exists (Rmin x lo), (Rmax x hi). split; [now apply Rmin_glb_lt|].
    constructor.
    + split; [apply Rmin_l | apply Rmax_l].
    + eapply Forall_impl; [exact IH|]. intros y [H1 H2]. cbn beta.
      pose proof (Rmin_r x lo). pose proof (Rmax_r x hi). lra.
Qed.

(** C8.  With a span of at least 1 and at least one row of returns,
    [ema_historical_return] returns one value per asset, in the order
    of the columns: the last value [v] of the exponentially weighted
    moving average of its returns, annualised.  For an asset whose
    returns [xs] are all finite, [v] is the average of the returns with
    weight [q^i] on the return [i] rows before the last, with the decay
    [q = 1 - 2 / (span + 1)], and the asset gets
    [(1 + v)^frequency - 1] when compounding (returns above -1, real
    power) and [v * frequency] otherwise.  This is the value
    [mean_historical_return] gives a table whose only return is [v]. *)
Theorem ema_historical_return_spec (s : store) (l : loc) (df : DataFrame)
    (returns_data compounding : bool) (span frequency : R) (n : nat) :
  s !! l = Some df ->
  1 <= span ->
  let r := if returns_data then df else dropna_all (pct_change df) in
  nrows r = S n ->
  let q := 1 - 2 / (span + 1) in
  let annualise := fun v : float =>
    if compounding
    then fsub (fpow (fadd (Num 1) v) (Num frequency)) (Num 1)
    else fmul v (Num frequency) in
  fst (ema_historical_return l returns_data compounding span frequency s) =
    ok (map (fun c =>
               (fst c, annualise (cell (ewm_mean_col span (snd c)) n)))
            (cols r))
  /\ (forall xs,
        length xs = S n ->
        (compounding = true -> Forall (fun x => -1 < x) xs) ->
        let v :=
          fold_right Rplus 0
            (map (fun i => q ^ i * nth (n - i) xs 0) (seq 0 (S n)))
          / fold_right Rplus 0 (map (fun i => q ^ i) (seq 0 (S n))) in
        annualise (cell (ewm_mean_col span (map Num xs)) n) =
        Num (if compounding then Rpower (1 + v) frequency - 1
             else v * frequency))
  /\ (forall name d v,
        (compounding = true -> -1 < v) ->
        fst (mean_historical_return 0%nat true compounding frequency
               (single_table (mkDF [d] [(name, [Num v])]))) =
        ok [(name,
             Num (if compounding then Rpower (1 + v) frequency - 1
                  else v * frequency))]).
Proof.
  intros H Hspan r Hn q annualise. split; [|split].
  - now rewrite (ema_historical_return_run s l df returns_data compounding
                   span frequency n H Hspan Hn).
  - intros xs Hxs Hpos v. rewrite ewm_last_closed by assumption.
    assert (Hq : 1 - alpha_of_span span = q) by reflexivity.
    rewrite Hq, (ewma_closed q xs n Hxs). fold v.
    unfold annualise. destruct compounding; [|reflexivity].
    cbn [fadd]. rewrite fpow_base_pos; [reflexivity|].
    destruct (returns_bounds xs (Hpos eq_refl)) as (lo & hi & Hlo & Hb).
    assert (Hne : xs <> []) by (destruct xs; [discriminate | congruence]).
    pose proof (ewma_bounds q lo hi xs (decay_nonneg span Hspan) Hne Hb) as Hv.
    rewrite (ewma_closed q xs n Hxs) in Hv. fold v in Hv. lra.
  - intros name d v Hv.
    rewrite (mean_historical_return_run _ 0%nat (mkDF [d] [(name, [Num v])])
               true compounding frequency)
      by apply lookup_singleton_eq.
    cbn [fst cols]. change (map ?g [?x]) with [g x]. cbn [fst snd].
    rewrite (annualised_value compounding frequency [Num v] [v] eq_refl
               ltac:(discriminate)).
    + do 4 f_equal. destruct compounding; cbn [map fold_right length INR].
      * replace ((1 + v) * 1) with (1 + v) by ring.
        replace (frequency / 1) with frequency by field. reflexivity.
      * field.
    + intros E. repeat constructor. now apply Hv.
Qed.

(** ** The capital asset pricing model *)

Lemma mbind_lift {A B} (r : result A) (k : A -> M B) (s : store) :
  mbind (lift r) k s =
  match r with inl e => (inl e, s) | inr a => k a s end.
Proof. reflexivity. Qed.

(** [capm_return] is its two phases in sequence. *)
Lemma capm_return_phases prices market_prices returns_data rf compounding
    frequency (s : store) :
  capm_return prices market_prices returns_data rf compounding frequency s =
  mbind (capm_market_frame prices market_prices returns_data)
        (fun returns =>
           do r <- load returns;
           lift (capm_pricing r rf compounding frequency)) s.
Proof.
  unfold capm_return, capm_market_frame, capm_pricing.
  cbv beta iota zeta delta [mbind mret lift ok rbind alloc update].
  destruct returns_data, market_prices as [mp|];
    repeat (cbv beta iota;
            first [ reflexivity
                  | match goal with
                    | |- context [load ?l ?t] => destruct (load l t) as [[?|?] ?]
                    | |- context [returns_of ?l ?t] =>
                        destruct (returns_of l t) as [[?|?] ?]
                    | |- context [set_columns ?n ?d] =>
                        destruct (set_columns n d)
                    | |- context [join_left ?a ?b] => destruct (join_left a b)
                    | |- context [getitem ?n ?l] => destruct (getitem n l)
                    | |- context [bool_decide ?P] => destruct (bool_decide P)
                    end ]).
Qed.

Lemma assoc_map_snd {A B} name (h : A -> B) (l : list (label * A)) :
  assoc name (map (fun c => (fst c, h (snd c))) l) = option_map h (assoc name l).
Proof.
  induction l as [|c l IH]; [reflexivity|]. cbn [map assoc fst snd].
  destruct (decide (fst c = name)); [reflexivity | exact IH].
Qed.

Lemma assoc_some_in {A} name (l : list (label * A)) a :
  assoc name l = Some a -> name ∈ map fst l.
Proof.
  induction l as [|c l IH]; [discriminate|]. cbn [assoc map].
  destruct (decide (fst c = name)) as [<-|Hne].
  - intros _. apply list_elem_of_here.
  - intros H. apply list_elem_of_further. now apply IH.
Qed.

Lemma assoc_none_notin {A} name (l : list (label * A)) :
  name ∉ map fst l -> assoc name l = None.
Proof.
  induction l as [|c l IH]; [reflexivity|]. cbn [assoc map]. intros Hn.
  destruct (decide (fst c = name)) as [<-|Hne].
  - exfalso. apply Hn. apply list_elem_of_here.
  - apply IH. intros Hin. apply Hn. now apply list_elem_of_further.
Qed.

Lemma filter_map_fst {A B} (p : label -> bool) (g : label * A -> B)
    (l : list (label * A)) :
  List.filter (fun e => p (fst e)) (map (fun c => (fst c, g c)) l) =
  map (fun c => (fst c, g c)) (List.filter (fun c => p (fst c)) l).
Proof.
  induction l as [|c l IH]; [reflexivity|]. cbn [map List.filter fst].
  destruct (p (fst c)); cbn [map]; now rewrite IH.
Qed.

Lemma sum_floats_nums xs :
  sum_floats (map Num xs) = Num (fold_right Rplus 0 xs).
Proof.
  unfold sum_floats. induction xs as [|x xs IH]; [reflexivity|].
  cbn [map fold_right]. now rewrite IH.
Qed.

Lemma mean_floats_nums xs :
  xs <> [] -> mean_floats (map Num xs) = Num (mean_reals xs).
Proof.
  intros Hne. unfold mean_floats, mean_reals.
  rewrite sum_floats_nums, length_map. apply fdiv_num. apply not_0_INR.
  destruct xs; [contradiction | discriminate].
Qed.

(** On finite observations the covariance of the model is the textbook
    sample covariance, with the divisor [n - 1]. *)
Lemma sample_cov_nums xs ys :
  (2 <= length xs)%nat ->
  length ys = length xs ->
  sample_cov (map Num xs) (map Num ys) = Num (cov_reals xs ys).
Proof.
  intros Hn Hlen. unfold sample_cov, cov_reals.
  rewrite !mean_floats_nums by (intros ->; simpl in *; lia).
  rewrite length_map.
  assert (Hz : forall a b l1 l2,
            zip_with (fun x y => fmul (fsub x (Num a)) (fsub y (Num b)))
                     (map Num l1) (map Num l2) =
            map Num (zip_with (fun x y => (x - a) * (y - b)) l1 l2)).
  { intros a b l1. induction l1 as [|x l1 IH]; intros [|y l2]; try reflexivity.
    cbn [map zip_with]. now rewrite IH. }
  rewrite Hz, sum_floats_nums. apply fdiv_num. apply not_0_INR. lia.
Qed.

(** The pricing phase on a table that has a market column. *)
Lemma capm_pricing_value r rf (compounding : bool) frequency mkt :
  assoc "mkt" (cols r) = Some mkt ->
  capm_pricing r rf compounding frequency =
  ok (map (fun a =>
             (fst a,
              fadd (Num rf)
                (fmul (fdiv (cov_of r (snd a) mkt) (cov_of r mkt mkt))
                   (fsub (if compounding
                          then fsub (fpow (col_prod (map (fadd (Num 1)) mkt))
                                          (fdiv (Num frequency)
                                                (Num (INR (col_count mkt)))))
                                    (Num 1)
                          else fmul (col_mean mkt) (Num frequency))
                         (Num rf)))))
          (List.filter (fun a => negb (bool_decide (fst a = "mkt"))) (cols r))).
Proof.
  intros Hm. unfold capm_pricing, cov. fold (cov_of r).
  unfold getitem at 1.
  rewrite (assoc_map_snd "mkt"
             (fun b => map (fun ca => (fst ca, cov_of r (snd ca) b)) (cols r))).
  rewrite Hm. cbn [option_map rbind ok].
  unfold getitem at 1.
  rewrite (assoc_map_snd "mkt" (fun a => cov_of r a mkt)), Hm.
  cbn [option_map rbind ok].
  rewrite bool_decide_eq_true_2.
  2:{ unfold series_map. rewrite !map_map. cbn [fst].
      eapply assoc_some_in. exact Hm. }
  cbn [rbind ok]. unfold getitem. rewrite Hm. cbn [rbind ok].
  f_equal. unfold series_map, series_drop. rewrite !map_map. cbn [fst snd].
  pose proof (filter_map_fst (fun n => negb (bool_decide (n = "mkt")))
                (fun x => fdiv (cov_of r (snd x) mkt) (cov_of r mkt mkt))
                (cols r)) as Hf.
  cbv beta in Hf. rewrite Hf, map_map. reflexivity.
Qed.

Lemma assoc_app_notin {A} name (l1 l2 : list (label * A)) :
  name ∉ map fst l1 -> assoc name (l1 ++ l2) = assoc name l2.
Proof.
  induction l1 as [|c l1 IH]; [reflexivity|]. cbn [app assoc map]. intros Hn.
  destruct (decide (fst c = name)) as [<-|Hne].
  - exfalso. apply Hn. apply list_elem_of_here.
  - apply IH. intros Hin. apply Hn. now apply list_elem_of_further.
Qed.

Lemma columns_returns df : columns (dropna_all (pct_change df)) = columns df.
Proof. unfold columns, dropna_all, pct_change. cbn [cols]. now rewrite !map_map. Qed.

Lemma assoc_setitem name vals df :
  assoc name (cols (setitem name vals df)) = Some vals.
Proof.
  unfold setitem. destruct (bool_decide (name ∈ columns df)) eqn:E.
  - apply bool_decide_eq_true_1 in E. unfold columns in E. cbn [cols].
    induction (cols df) as [|c l IH]; [inversion E|].
    cbn [map assoc]. destruct (decide (fst c = name)) as [Heq|Hne].
    + cbn [fst]. destruct (decide (name = name)); [reflexivity|contradiction].
    + destruct (decide (fst c = name)); [contradiction|].
      apply IH. cbn [map] in E. apply elem_of_cons in E.
      destruct E as [E|E]; [congruence|exact E].
  - apply bool_decide_eq_false_1 in E. cbn [cols].
    rewrite assoc_app_notin by exact E. cbn [assoc fst snd].
    destruct (decide (name = name)); [reflexivity|contradiction].
Qed.

(** Without a market table, the market column is written into the table
    of returns itself. *)
Lemma capm_market_frame_none (s : store) prices df (returns_data : bool) :
  s !! prices = Some df ->
  let r := if returns_data then df else dropna_all (pct_change df) in
  let lr := if returns_data then prices else fresh (dom s) in
  capm_market_frame prices None returns_data s =
  (ok lr, <[lr := setitem "mkt" (row_means r) r]>
            (if returns_data then s else <[lr := r]> s)).
Proof.
  intros H r lr. unfold capm_market_frame. mstep.
  destruct returns_data.
  - mstep. rewrite (load_some s prices df H). reflexivity.
  - rewrite (returns_of_spec s prices df H). mstep.
    rewrite load_after_alloc. reflexivity.
Qed.

Lemma fresh_loc_ne (s : store) l df : s !! l = Some df -> fresh (dom s) <> l.
Proof.
  intros H E. pose proof (fresh_loc_unused s) as Hf. rewrite E in Hf. congruence.
Qed.

Lemma set_columns_single m :
  length (cols m) = 1%nat ->
  exists c, cols m = [c] /\
            set_columns ["mkt"] m = ok (mkDF (index m) [("mkt", snd c)]).
Proof.
  intros Hl. destruct (cols m) as [|c [|c' l]] eqn:E; try discriminate.
  exists c. split; [reflexivity|]. unfold set_columns. rewrite E.
  destruct (decide (length ["mkt"] = length [c])) as [_|Hn]; [reflexivity|].
  exfalso. apply Hn. reflexivity.
Qed.



Lemma filter_not_mkt_app {A} (a : list (label * A)) x :
  "mkt" ∉ map fst a ->
  List.filter (fun e => negb (bool_decide (fst e = "mkt"))) (a ++ [("mkt", x)]) = a.
Proof.
  induction a as [|c a IH]; intros Hn.
  - reflexivity.
  - cbn [app List.filter]. cbn [map] in Hn. apply not_elem_of_cons in Hn as [Hc Ha].
    rewrite bool_decide_eq_false_2 by (intros E; apply Hc; symmetry; exact E).
    cbn [negb].
    now rewrite IH.
Qed.

Lemma cols_setitem_new name vals df :
  name ∉ columns df ->
  setitem name vals df = mkDF (index df) (cols df ++ [(name, vals)]).
Proof. intros H. unfold setitem. now rewrite bool_decide_eq_false_2. Qed.

Lemma market_mean_is_historical_mean (compounding : bool) frequency idx mkt :
  fst (mean_historical_return 0%nat true compounding frequency
         (single_table (mkDF idx [("mkt", mkt)]))) =
  ok [("mkt",
       if compounding
       then fsub (fpow (col_prod (map (fadd (Num 1)) mkt))
                       (fdiv (Num frequency) (Num (INR (col_count mkt)))))
                 (Num 1)
       else fmul (col_mean mkt) (Num frequency))].
Proof.
  rewrite (mean_historical_return_on _ 0%nat (mkDF idx [("mkt", mkt)]))
    by apply lookup_singleton_eq.
  reflexivity.
Qed.

Lemma cell_nums ps i :
  (i < length ps)%nat -> cell (map Num ps) i = Num (nth i ps 0).
Proof.
  intros Hi. unfold cell. apply nth_error_nth.
  rewrite nth_error_map. erewrite nth_error_nth'; [reflexivity | exact Hi].
Qed.

Lemma row_means_real idx (assets : list (label * list R)) :
  assets <> [] ->
  Forall (fun a => length (snd a) = length idx) assets ->
  row_means (real_frame idx assets) =
  map Num (market_proxy (length idx) assets).
Proof.
  intros Hne Hlen. unfold row_means, market_proxy, nrows, real_frame.
  cbn [index]. rewrite map_map. apply map_ext_in. intros i Hi.
  apply in_seq in Hi. unfold row_at. cbn [cols]. rewrite map_map. cbn [snd].
  rewrite <- col_mean_nums by (destruct assets; [contradiction | discriminate]).
  f_equal. rewrite map_map. apply map_ext_Forall.
  eapply Forall_impl; [exact Hlen|]. intros a Ha. cbn beta in Ha.
  apply cell_nums. lia.
Qed.

Lemma forallb_notna_nums xs : forallb notna (map Num xs) = true.
Proof. induction xs as [|x xs IH]; [reflexivity | exact IH]. Qed.

Lemma no_missing_real idx (assets : list (label * list R)) ms :
  no_missing (mkDF idx (cols (real_frame idx assets) ++ [("mkt", map Num ms)])) = true.
Proof.
  unfold no_missing, real_frame. cbn [cols]. rewrite forallb_app.
  apply andb_true_intro. split.
  - apply forallb_forall. intros c Hc. apply in_map_iff in Hc as (a & <- & _).
    apply forallb_notna_nums.
  - cbn [forallb snd]. now rewrite forallb_notna_nums.
Qed.

Lemma length_market_proxy n assets : length (market_proxy n assets) = n.
Proof. unfold market_proxy. now rewrite length_map, length_seq. Qed.

(** *** A market table on the dates of the assets *)









(** *** The pricing of finite returns *)




(** ** Claim C5: the market proxy *)

Lemma cell_row_means r i :
  (i < nrows r)%nat -> cell (row_means r) i = col_mean (row_at r i).
Proof.
  intros Hi. unfold cell, row_means.
  rewrite (nth_indep _ NaN (col_mean (row_at r 0)))
    by (now rewrite length_map, length_seq).
  rewrite (map_nth (fun i => col_mean (row_at r i))), seq_nth by exact Hi.
  reflexivity.
Qed.

(** C5.  Called without a market table, and no asset being called
    "mkt", [capm_return] appends to the table of returns a column "mkt"
    whose cell at every row is the mean of the returns of that row that
    are not missing (the arithmetic mean of the row when none is
    missing), and prices the assets against that table. *)
Theorem capm_market_proxy (s : store) (prices : loc) (returns_data : bool)
    (risk_free_rate : R) (compounding : bool) (frequency : R)
    (df : DataFrame) :
  s !! prices = Some df ->
  "mkt" ∉ columns df ->
  let r := if returns_data then df else dropna_all (pct_change df) in
  let combined := mkDF (index r) (cols r ++ [("mkt", row_means r)]) in
  exists lc s',
    capm_market_frame prices None returns_data s = (ok lc, s') /\
    s' !! lc = Some combined /\
    capm_return prices None returns_data risk_free_rate compounding frequency s =
      (capm_pricing combined risk_free_rate compounding frequency, s') /\
    assoc "mkt" (cols combined) = Some (row_means r) /\
    length (row_means r) = nrows r /\
    (forall i, (i < nrows r)%nat ->
               cell (row_means r) i = col_mean (row_at r i)) /\
    (forall i xs, (i < nrows r)%nat -> xs <> [] ->
                  row_at r i = map Num xs ->
                  cell (row_means r) i = Num (mean_reals xs)).
Proof.
  intros Hp Hn r combined.
  assert (Hnr : "mkt" ∉ columns r).
  { unfold r. destruct returns_data; [exact Hn | now rewrite columns_returns]. }
  assert (Hc : setitem "mkt" (row_means r) r = combined)
    by now apply cols_setitem_new.
  pose proof (capm_market_frame_none s prices df returns_data Hp) as Hrun.
  cbv zeta in Hrun. fold r in Hrun. rewrite Hc in Hrun.
  eexists _, _. split; [exact Hrun|].
  split; [apply lookup_insert_eq|]. split; [|split; [|split; [|split]]].
  - rewrite capm_return_phases. unfold mbind at 1. rewrite Hrun. mstep.
    erewrite load_some by apply lookup_insert_eq. reflexivity.
  - rewrite <- Hc. apply assoc_setitem.
  - unfold row_means. now rewrite length_map, length_seq.
  - intros i Hi. now apply cell_row_means.
  - intros i xs Hi Hne Hrow. rewrite cell_row_means by exact Hi.
    rewrite Hrow. now apply col_mean_nums.
Qed.

(** ** Claim C10: what the estimators do to the tables of the caller *)

Lemma insert_fresh_preserves (s : store) (d : DataFrame) l' d' :
  s !! l' = Some d' -> <[fresh (dom s) := d]> s !! l' = Some d'.
Proof.
  intros H. rewrite lookup_insert_ne; [exact H|].
  now apply (fresh_loc_ne s l' d').
Qed.

(** The historical mean leaves every table of the caller as it was. *)
Lemma mean_historical_return_frame (s : store) l df
    (returns_data compounding : bool) frequency l' d' :
  s !! l = Some df ->
  s !! l' = Some d' ->
  snd (mean_historical_return l returns_data compounding frequency s) !! l'
  = Some d'.
Proof.
  intros H H'. unfold mean_historical_return. mstep.
  destruct returns_data.
  - rewrite (load_some s l df H). mstep. destruct compounding; exact H'.
  - rewrite (returns_of_spec s l df H). mstep. rewrite load_after_alloc. mstep.
    destruct compounding; now apply insert_fresh_preserves.
Qed.

(** So does the exponentially weighted mean, whether it returns or
    raises. *)
Lemma ema_historical_return_frame (s : store) l df
    (returns_data compounding : bool) span frequency l' d' :
  s !! l = Some df ->
  s !! l' = Some d' ->
  snd (ema_historical_return l returns_data compounding span frequency s) !! l'
  = Some d'.
Proof.
  intros H H'. unfold ema_historical_return. mstep.
  destruct returns_data.
  - rewrite (load_some s l df H). mstep.
    destruct compounding; mstep;
      destruct (ewm_mean span df) as [e|w]; try exact H';
      destruct (iloc_last w); exact H'.
  - rewrite (returns_of_spec s l df H). mstep. rewrite load_after_alloc. mstep.
    destruct compounding; mstep;
      destruct (ewm_mean span (dropna_all (pct_change df))) as [e|w];
      try (now apply insert_fresh_preserves);
      destruct (iloc_last w); now apply insert_fresh_preserves.
Qed.

(** On prices, [capm_return] writes the market column into the fresh
    table of returns: the table of the caller is as it was. *)
Lemma capm_return_prices_frame (s : store) prices df rf (compounding : bool)
    frequency :
  s !! prices = Some df ->
  snd (capm_return prices None false rf compounding frequency s) !! prices
  = Some df.
Proof.
  intros H. rewrite capm_return_phases. unfold mbind at 1.
  rewrite (capm_market_frame_none s prices df false H). cbv zeta. mstep.
  erewrite load_some by apply lookup_insert_eq. mstep.
  cbn [snd]. rewrite insert_insert_eq. now apply insert_fresh_preserves.
Qed.

(** On returns, the table of the caller is the one that is written. *)
Lemma capm_return_returns_store (s : store) prices df rf (compounding : bool)
    frequency :
  s !! prices = Some df ->
  snd (capm_return prices None true rf compounding frequency s) =
  <[prices := setitem "mkt" (row_means df) df]> s.
Proof.
  intros H. rewrite capm_return_phases. unfold mbind at 1.
  rewrite (capm_market_frame_none s prices df true H). cbv zeta. mstep.
  erewrite load_some by apply lookup_insert_eq. reflexivity.
Qed.

(** On returns, a supplied market table has its column renamed in
    place, whether the call then returns or raises. *)
Lemma capm_return_renames_market (s : store) prices mp df mdf c rf
    (compounding : bool) frequency :
  s !! prices = Some df ->
  s !! mp = Some mdf ->
  cols mdf = [c] ->
  mp <> prices ->
  snd (capm_return prices (Some mp) true rf compounding frequency s) !! mp
  = Some (mkDF (index mdf) [("mkt", snd c)]).
Proof.
  intros Hp Hm Hc Hne.
  destruct (set_columns_single mdf) as (c' & Hc' & Hset);
    [now rewrite Hc|].
  rewrite Hc in Hc'. injection Hc' as <-.
  rewrite capm_return_phases. unfold mbind at 1, capm_market_frame. mstep.
  rewrite (load_some s mp mdf Hm). mstep. rewrite Hset. mstep.
  unfold update. mstep.
  erewrite (load_some _ prices df); [|rewrite lookup_insert_ne; auto].
  mstep. rewrite (load_some _ mp _ (lookup_insert_eq _ _ _)). mstep.
  destruct (join_left df _) as [e|j]; [apply lookup_insert_eq|].
  unfold alloc. mstep. rewrite load_after_alloc. mstep. cbn [snd].
  apply insert_fresh_preserves. apply lookup_insert_eq.
Qed.

(** C10 fails on the code.  [capm_return] called with [returns_data]
    on the returns [0.1, 0.2, 0.3] of one asset "A" and no market table
    leaves the table of the caller with a second column, "mkt". *)
Theorem capm_return_persists_market_column :
  let df := one_asset 0.1 0.2 0.3 in
  let s' := snd (capm_return 0%nat None true 0.02 true 252 (single_table df)) in
  columns df = ["A"] /\
  exists df', s' !! 0%nat = Some df' /\ columns df' = ["A"; "mkt"] /\
              assoc "mkt" (cols df') = Some (row_means df).
Proof.
  intros df s'. split; [reflexivity|].
  assert (H0 : single_table df !! 0%nat = Some df) by apply lookup_singleton_eq.
  unfold s'. rewrite (capm_return_returns_store _ 0%nat df _ _ _ H0).
  exists (setitem "mkt" (row_means df) df). split; [apply lookup_insert_eq|].
  split; [|apply assoc_setitem].
  rewrite cols_setitem_new; [reflexivity|].
  unfold df, one_asset, columns. cbn [cols map fst].
  intros Hin. apply list_elem_of_singleton in Hin. discriminate.
Qed.

(** ** Claim C9: the dispatcher *)

(** C9.  [return_model] hands the table and the keyword options, as they
    are, to [mean_historical_return], [ema_historical_return] or
    [capm_return] when [method] is the name of that estimator, and for
    every other name raises a [NotImplementedError] without touching the
    store. *)
Theorem return_model_dispatch (prices : loc) (method : string) (kw : kwargs)
    (s : store) :
  return_model prices "mean_historical_return" kw =
    call_mean_historical_return prices kw /\
  return_model prices "ema_historical_return" kw =
    call_ema_historical_return prices kw /\
  return_model prices "capm_return" kw = call_capm_return prices kw /\
  (forall rd c f,
     return_model prices "mean_historical_return"
       (mkKw (Some rd) (Some c) (Some f) None None None) =
     mean_historical_return prices rd c f) /\
  (forall rd c sp f,
     return_model prices "ema_historical_return"
       (mkKw (Some rd) (Some c) (Some f) (Some sp) None None) =
     ema_historical_return prices rd c sp f) /\
  (forall rd c f mp rf,
     return_model prices "capm_return"
       (mkKw (Some rd) (Some c) (Some f) None (Some mp) (Some rf)) =
     capm_return prices mp rd rf c f) /\
  (method <> "mean_historical_return" ->
   method <> "ema_historical_return" ->
   method <> "capm_return" ->
   return_model prices method kw s =
   (raise "NotImplementedError"
          ("Return model " ++ method ++ " not implemented"), s)).
Proof.
  repeat split.
  intros H1 H2 H3. unfold return_model.
  destruct (decide (method = "mean_historical_return")); [contradiction|].
  destruct (decide (method = "ema_historical_return")); [contradiction|].
  destruct (decide (method = "capm_return")); [contradiction|].
  reflexivity.
Qed.

(** ** Claim C7: misuse of the distributed mode *)

Lemma parse_attribute_error n : forall in_quote prev tmp parts name e,
  (String.length name <= n)%nat ->
  parse_attribute in_quote prev tmp parts name = inl e ->
  exn_class e = "AnalysisException" \/ exn_class e = "Py4JJavaError".
Proof.
  induction n as [|n IH]; intros in_quote prev tmp parts name e Hlen.
  - destruct name; [|cbn in Hlen; lia]. cbn [parse_attribute].
    destruct in_quote; [|discriminate]. intros [= <-]. now left.
  - destruct name as [|c rest].
    { cbn [parse_attribute]. destruct in_quote; [|discriminate].
      intros [= <-]. now left. }
    cbn [String.length] in Hlen. cbn [parse_attribute].
    destruct in_quote.
    + destruct (is_backquote c).
      * destruct rest as [|c' rest'].
        -- apply IH. cbn. lia.
        -- destruct (is_backquote c'); [apply IH; cbn in *; lia|].
           destruct (is_dot c'); [apply IH; cbn in *; lia|].
           intros [= <-]. now left.
      * apply IH. lia.
    + destruct (is_backquote c).
      * destruct tmp; [apply IH; lia|]. intros [= <-]. now left.
      * destruct (is_dot c); [|apply IH; lia].
        destruct prev as [p|]; [|intros [= <-]; now right].
        destruct (is_dot p || bool_decide (rest = EmptyString));
          [intros [= <-]; now left | apply IH; lia].
Qed.

Lemma find_column_error name sdf e :
  find_column name sdf = inl e ->
  exn_class e = "AnalysisException" \/ exn_class e = "Py4JJavaError".
Proof.
  unfold find_column, rbind, parse_attribute_name.
  destruct (parse_attribute false None "" [] name) as [e'|parts] eqn:E.
  - intros [= <-]. exact (parse_attribute_error _ _ _ _ _ _ _ (le_n _) E).
  - destruct parts as [|part [|part' parts]]; [discriminate| |];
      destruct (name_positions part (scolumns sdf)) as [|j [|j' js]];
      try discriminate; try (intros [= <-]; now left).
    destruct (nth_error (schema sdf) j) as [[? ?]|]; discriminate.
Qed.

Lemma resolve_error name sdf e :
  resolve name sdf = inl e ->
  exn_class e = "AnalysisException" \/ exn_class e = "Py4JJavaError".
Proof.
  unfold resolve, rbind. destruct (decide (name = "*")).
  - intros [= <-]. now left.
  - destruct (find_column name sdf) as [e'|[r|]] eqn:E.
    + intros [= <-]. exact (find_column_error _ _ _ E).
    + discriminate.
    + intros [= <-]. now left.
Qed.

Lemma drop_column_error name sdf e :
  drop_column name sdf = inl e ->
  exn_class e = "AnalysisException" \/ exn_class e = "Py4JJavaError".
Proof.
  unfold drop_column, rbind. destruct (decide (name = "*")); [discriminate|].
  destruct (find_column name sdf) as [e'|[[j ty]|]] eqn:E; try discriminate.
  intros [= <-]. exact (find_column_error _ _ _ E).
Qed.

(** The loop of the distributed path raises nothing but the errors of
    Spark. *)
Lemma spark_return_step_error lg col sdf e :
  spark_return_step lg col sdf = inl e ->
  exn_class e = "AnalysisException" \/ exn_class e = "Py4JJavaError".
Proof.
  unfold spark_return_step, rbind.
  repeat (match goal with
          | |- context [resolve ?n ?d] =>
              let E := fresh "E" in
              destruct (resolve n d) as [?|[? ?]] eqn:E;
              [intros [= <-]; exact (resolve_error _ _ _ E)|]
          | |- context [drop_column ?n ?d] =>
              let E := fresh "E" in
              destruct (drop_column n d) as [?|?] eqn:E;
              [intros [= <-]; exact (drop_column_error _ _ _ E)|]
          | |- context [match ?t with DoubleType => _ | TimestampType => _ end] =>
              destruct t
          | |- context [if ?b then _ else _] => destruct b
          end);
    try discriminate; intros [= <-]; now left.
Qed.

Lemma spark_return_loop_error lg price_cols sdf e :
  spark_return_loop lg price_cols sdf = inl e ->
  exn_class e = "AnalysisException" \/ exn_class e = "Py4JJavaError".
Proof.
  revert sdf. induction price_cols as [|col rest IH]; intros sdf; [discriminate|].
  cbn [spark_return_loop]. unfold rbind at 1.
  destruct (spark_return_step lg col sdf) as [e'|sdf'] eqn:E.
  - intros [= <-]. exact (spark_return_step_error _ _ _ _ E).
  - apply IH.
Qed.

(** C7, as the code has it.  With the distributed mode requested,
    [returns_from_prices] raises a [RuntimeError], and returns nothing,
    exactly when the table is not a Spark table or is a Spark table
    without a column "date_index". *)
Theorem returns_from_prices_misuse (prices : table) (log_returns : bool) :
  (is_spark_frame prices = false \/ "date_index" ∉ table_columns prices) <->
  (exists msg,
     returns_from_prices prices log_returns true = raise "RuntimeError" msg).
Proof.
  unfold returns_from_prices, has_date_index. split.
  - intros [H|H].
    + rewrite H. cbn [andb negb]. eexists. reflexivity.
    + destruct (is_spark_frame prices); cbn [andb negb]; [|eexists; reflexivity].
      rewrite bool_decide_eq_false_2 by exact H. cbn [negb].
      eexists. reflexivity.
  - intros [msg H].
    destruct prices as [df|sdf]; [now left|]. right.
    cbn [is_spark_frame andb negb] in H.
    destruct (bool_decide ("date_index" ∈ table_columns (Spark sdf))) eqn:E.
    + exfalso. cbn [negb] in H. destruct log_returns; cbn [andb negb] in H;
        unfold rbind in H;
        destruct (spark_return_loop _ _ sdf) as [e|r] eqn:El;
        try discriminate;
        apply spark_return_loop_error in El; injection H as ->;
        destruct El; discriminate.
    + now apply bool_decide_eq_false_1 in E.
Qed.

(** C7, as the specification states it, fails: the error raised in the
    misuse cases is a [RuntimeError], not an [InputError]. *)
Lemma misuse_error_class_counterexample :
  exists e,
    returns_from_prices (Pandas (one_asset 100 110 121)) false true = inl e /\
    exn_class e = "RuntimeError" /\
    exn_class e <> "InputError".
Proof.
  eexists. split; [reflexivity|]. split; [reflexivity|]. discriminate.
Qed.

(** ** Claim C6: the distributed path against the in-memory path *)

(** *** The window order *)

Lemma insert_row_perm r rs : Permutation (insert_row 0 r rs) (r :: rs).
Proof.
  induction rs as [|r' rs IH]; [reflexivity|]. cbn [insert_row].
  destruct (sval_leb (sget r 0) (sget r' 0)); [reflexivity|].
  rewrite IH. apply perm_swap.
Qed.

Lemma sort_rows_perm rs : Permutation (sort_rows 0 rs) rs.
Proof.
  induction rs as [|r rs IH]; [reflexivity|]. cbn [sort_rows].
  rewrite insert_row_perm. now constructor.
Qed.

Lemma date_le_total r r' : dated r -> dated r' -> date_le r r' \/ date_le r' r.
Proof.
  intros [t Ht] [t' Ht']. unfold date_le. rewrite Ht, Ht'. cbn [sval_leb].
  destruct (Z.leb_spec t t'); [now left|]. right. apply Z.leb_le. lia.
Qed.

Lemma date_le_trans r1 r2 r3 :
  dated r1 -> dated r2 -> dated r3 ->
  date_le r1 r2 -> date_le r2 r3 -> date_le r1 r3.
Proof.
  intros [t1 H1] [t2 H2] [t3 H3]. unfold date_le. rewrite H1, H2, H3.
  cbn [sval_leb]. rewrite !Z.leb_le. lia.
Qed.

Lemma insert_row_sorted r rs :
  dated r -> Forall dated rs ->
  StronglySorted date_le rs -> StronglySorted date_le (insert_row 0 r rs).
Proof.
  intros Hr Hrs Hs. induction Hs as [|r' rs Hs IH Hall]; cbn [insert_row].
  - repeat constructor.
  - inversion Hrs as [|? ? Hr' Hrs']; subst.
    destruct (sval_leb (sget r 0) (sget r' 0)) eqn:E.
    + constructor; [now constructor|]. constructor; [exact E|].
      rewrite List.Forall_forall in *. intros x Hx.
      exact (date_le_trans r r' x Hr Hr' (Hrs' x Hx) E (Hall x Hx)).
    + constructor; [now apply IH|].
      assert (Hle : date_le r' r).
      { destruct (date_le_total r r' Hr Hr') as [H|H]; [|exact H].
        unfold date_le in H. congruence. }
      rewrite List.Forall_forall in *. intros x Hx.
      apply (Permutation_in _ (insert_row_perm r rs)) in Hx.
      destruct Hx as [<-|Hx]; [exact Hle | now apply Hall].
Qed.

Lemma sort_rows_sorted rs :
  Forall dated rs -> StronglySorted date_le (sort_rows 0 rs).
Proof.
  induction 1 as [|r rs Hr Hrs IH]; cbn [sort_rows]; [constructor|].
  apply insert_row_sorted; [exact Hr | | exact IH].
  rewrite List.Forall_forall in *. intros x Hx. apply Hrs.
  now apply (Permutation_in _ (sort_rows_perm rs)).
Qed.

Lemma spark_rows_cons d ds c cells :
  spark_rows (d :: ds) (c :: cells) = (STimestamp d :: c) :: spark_rows ds cells.
Proof. reflexivity. Qed.

Lemma spark_rows_dates ds cells r :
  In r (spark_rows ds cells) -> exists d, In d ds /\ sget r 0 = STimestamp d.
Proof.
  revert cells. induction ds as [|d ds IH]; intros [|c cells]; try contradiction.
  rewrite spark_rows_cons. intros [<-|Hin].
  - exists d. split; [now left | reflexivity].
  - destruct (IH cells Hin) as (d' & Hd' & Hk). exists d'. split; [now right | exact Hk].
Qed.

Lemma spark_rows_strictly_sorted ds cells :
  ascending ds -> StronglySorted date_lt (spark_rows ds cells).
Proof.
  intros Hs. revert cells. induction Hs as [|d ds Hs IH Hall]; intros [|c cells];
    try constructor.
  - apply IH.
  - apply List.Forall_forall. intros r Hr.
    destruct (spark_rows_dates _ _ _ Hr) as (d' & Hd' & Hk).
    exists d, d'. split; [reflexivity|]. split; [exact Hk|].
    rewrite List.Forall_forall in Hall. now apply Hall.
Qed.

Lemma date_lt_le r r' : date_lt r r' -> date_le r r'.
Proof.
  intros (t & t' & H & H' & Hlt). unfold date_le. rewrite H, H'.
  apply Z.leb_le. lia.
Qed.

Lemma date_lt_not_ge r r' : date_lt r r' -> date_le r' r -> False.
Proof.
  intros (t & t' & H & H' & Hlt). unfold date_le. rewrite H, H'.
  cbn [sval_leb]. rewrite Z.leb_le. lia.
Qed.

Lemma strictly_sorted_trichotomy l x y :
  StronglySorted date_lt l -> In x l -> In y l ->
  x = y \/ date_lt x y \/ date_lt y x.
Proof.
  induction 1 as [|z l Hs IH Hall]; [contradiction|].
  rewrite List.Forall_forall in Hall.
  intros [<-|Hx] [<-|Hy]; auto.
Qed.

Lemma strictly_sorted_weaken l :
  StronglySorted date_lt l -> StronglySorted date_le l.
Proof.
  induction 1 as [|z l Hs IH Hall]; constructor; [exact IH|].
  eapply Forall_impl; [exact Hall|]. intros r. apply date_lt_le.
Qed.

(** Whatever the order of the rows in the table, the window over
    "date_index" sees them in the order of their dates. *)
Lemma sort_rows_canonical rows ds cells :
  ascending ds ->
  Permutation rows (spark_rows ds cells) ->
  sort_rows 0 rows = spark_rows ds cells.
Proof.
  intros Hasc Hperm.
  pose proof (spark_rows_strictly_sorted ds cells Hasc) as Hstrict.
  assert (Hdated : Forall dated rows).
  { apply List.Forall_forall. intros r Hr.
    apply (Permutation_in _ Hperm) in Hr.
    destruct (spark_rows_dates _ _ _ Hr) as (d & _ & Hk). now exists d. }
  apply (StronglySorted_unique_strong date_le).
  - intros x1 x2 H1 H2 H12 H21.
    apply list_elem_of_In in H1, H2.
    apply (Permutation_in _ (sort_rows_perm rows)) in H1.
    apply (Permutation_in _ Hperm) in H1.
    destruct (strictly_sorted_trichotomy _ x1 x2 Hstrict H1 H2) as [E|[Hlt|Hlt]];
      [exact E | |]; exfalso; eauto using date_lt_not_ge.
  - now apply sort_rows_sorted.
  - now apply strictly_sorted_weaken.
  - rewrite sort_rows_perm. exact Hperm.
Qed.

(** *** Column positions *)

Lemma col_pos_nth name names j :
  List.NoDup names -> nth_error names j = Some name ->
  col_pos name names = Some j.
Proof.
  intros Hnd. revert j. induction Hnd as [|n names Hn Hnd IH]; intros [|j];
    cbn [nth_error col_pos]; try discriminate.
  - intros [= ->]. destruct (decide (name = name)); [reflexivity|contradiction].
  - intros Hj. destruct (decide (n = name)) as [->|Hne].
    + exfalso. apply Hn. eapply nth_error_In. exact Hj.
    + now rewrite (IH j Hj).
Qed.

Lemma col_pos_app_l name names extra j :
  col_pos name names = Some j -> col_pos name (names ++ extra) = Some j.
Proof.
  revert j. induction names as [|n names IH]; intros j; [discriminate|].
  cbn [app col_pos]. destruct (decide (n = name)); [trivial|].
  destruct (col_pos name names) as [j'|]; [|discriminate].
  now rewrite (IH j' eq_refl).
Qed.

Lemma scolumns_spark_schema names rows :
  scolumns (mkSDF (spark_schema names) rows) = "date_index" :: names.
Proof.
  unfold scolumns, spark_schema. cbn [schema map fst]. f_equal.
  rewrite map_map. cbn [fst]. apply map_id.
Qed.

(** *** Rows as lists *)

Lemma sget_app_l (a b : list sval) j :
  (j < length a)%nat -> sget (a ++ b) j = sget a j.
Proof. intros H. unfold sget. now apply app_nth1. Qed.

Lemma sget_app_end (a : list sval) v : sget (a ++ [v]) (length a) = v.
Proof. unfold sget. now rewrite nth_middle. Qed.

Lemma sget_insert (c : list sval) j v :
  (j < length c)%nat -> sget (<[j := v]> c) j = v.
Proof.
  revert j. induction c as [|x c IH]; intros [|j] H; simpl in *; try lia.
  - reflexivity.
  - apply IH. lia.
Qed.

Lemma mask_filter_keep_app {A} (a b : list A) m :
  mask_filter (repeat true (length a) ++ m) (a ++ b) = a ++ mask_filter m b.
Proof. induction a as [|x a IH]; [reflexivity|]. simpl. now rewrite IH. Qed.

Lemma zip_with_map_r {A B C} (g : A -> B -> C) (h : A -> B) (l : list A) :
  zip_with g l (map h l) = map (fun x => g x (h x)) l.
Proof. induction l as [|x l IH]; [reflexivity|]. simpl. now rewrite IH. Qed.

Lemma map_zip_with {A B C D} (f : C -> D) (g : A -> B -> C) l1 l2 :
  map f (zip_with g l1 l2) = zip_with (fun a b => f (g a b)) l1 l2.
Proof.
  revert l2. induction l1 as [|x l1 IH]; intros [|y l2]; simpl; try reflexivity.
  now rewrite IH.
Qed.

Lemma zip_with_stamped {B} (P : list sval -> Prop)
    (f : list sval -> B -> list sval) (g : list sval -> B -> list sval)
    ds cells (vs : list B) :
  (forall d c v, P c -> f (STimestamp d :: c) v = STimestamp d :: g c v) ->
  Forall P cells ->
  zip_with f (spark_rows ds cells) vs = spark_rows ds (zip_with g cells vs).
Proof.
  intros Hfg Hall. revert ds vs.
  induction Hall as [|c cells Hc Hall IH]; intros [|d ds] [|v vs];
    try reflexivity.
  rewrite spark_rows_cons. cbn [zip_with]. rewrite spark_rows_cons.
  now rewrite Hfg, IH.
Qed.

Lemma list_insert_same {A} (l : list A) j x :
  nth_error l j = Some x -> <[j := x]> l = l.
Proof.
  revert j. induction l as [|y l IH]; intros [|j]; cbn; try discriminate.
  - now intros [= ->].
  - intros H. f_equal. now apply IH.
Qed.

Lemma list_insert_app_l {A} (a b : list A) j x :
  (j < length a)%nat -> <[j := x]> (a ++ b) = <[j := x]> a ++ b.
Proof.
  revert j. induction a as [|y a IH]; intros [|j] H; simpl in *; try lia.
  - reflexivity.
  - f_equal. apply IH. lia.
Qed.

(** One turn of the loop on a dated row that carries the lagged value
    [v] at its end: the row keeps its date and takes the return in
    column [j]. *)
Lemma row_step (lg : bool) k j d (c : list sval) v :
  length c = k -> (j < k)%nat ->
  let row := (STimestamp d :: c) ++ [v] in
  let x := sdiv (ssub (sget row (S j)) (sget row (S k))) (sget row (S k)) in
  let row3 := mask_filter (true :: repeat true k ++ [false]) (<[S j := x]> row) in
  (if lg
   then <[S j := slog (sadd (SDouble (Num 1)) (sget row3 (S j)))]> row3
   else row3)
  = STimestamp d :: <[j := spark_return lg (sget c j) v]> c.
Proof.
  intros Hk Hj row x row3.
  assert (Hx : x = sdiv (ssub (sget c j) v) v).
  { unfold x, row. cbn [app]. unfold sget at 1 2 3. cbn [nth].
    fold (sget (c ++ [v]) j). fold (sget (c ++ [v]) k).
    rewrite sget_app_l by lia. rewrite <- Hk, sget_app_end. reflexivity. }
  assert (H3 : row3 = STimestamp d :: <[j := x]> c).
  { unfold row3, row. cbn [app]. change (<[S j := x]> (STimestamp d :: c ++ [v]))
      with (STimestamp d :: <[j := x]> (c ++ [v])).
    rewrite list_insert_app_l by lia. cbn [mask_filter]. f_equal.
    rewrite <- Hk, <- (length_insert c j x).
    rewrite mask_filter_keep_app. cbn [mask_filter]. apply app_nil_r. }
  rewrite H3. unfold spark_return. rewrite <- Hx. destruct lg; [|reflexivity].
  change (<[S j := ?y]> (STimestamp d :: ?l)) with (STimestamp d :: <[j := y]> l).
  f_equal. unfold sget at 1. cbn [nth]. fold (sget (<[j := x]> c) j).
  rewrite sget_insert by lia. apply list_insert_insert_eq.
Qed.

Lemma price_column_stamped ds (cells : list (list sval)) j :
  length cells = length ds ->
  map (fun r => sget r (S j)) (spark_rows ds cells) =
  map (fun c => sget c j) cells.
Proof.
  revert ds. induction cells as [|c cells IH]; intros [|d ds] H;
    try discriminate; [reflexivity|].
  rewrite spark_rows_cons. cbn [map]. f_equal. apply IH. simpl in H. lia.
Qed.

(** *** Resolution of names in the loop *)

Lemma string_app_nil_r (s : string) : (s ++ "")%string = s.
Proof.
  induction s as [|c s IH]; [reflexivity|].
  change (String c (s ++ "")%string = String c s). now rewrite IH.
Qed.

Lemma string_app_snoc (s : string) c n :
  ((s ++ String c "") ++ n)%string = (s ++ String c n)%string.
Proof.
  induction s as [|c' s IH]; [reflexivity|].
  change (String c' ((s ++ String c "") ++ n)%string =
          String c' (s ++ String c n)%string).
  now rewrite IH.
Qed.

Lemma parse_attribute_plain prev tmp parts n :
  forallb (fun c => negb (is_dot c || is_backquote c)) (list_ascii_of_string n)
  = true ->
  parse_attribute false prev tmp parts n = ok (parts ++ [(tmp ++ n)%string]).
Proof.
  revert prev tmp. induction n as [|c n IH]; intros prev tmp H.
  - cbn [parse_attribute]. now rewrite string_app_nil_r.
  - cbn [list_ascii_of_string forallb] in H.
    apply andb_prop in H as [Hc Hn]. apply negb_true_iff in Hc.
    apply orb_false_elim in Hc as [Hd Hb].
    cbn [parse_attribute]. rewrite Hb, Hd. rewrite (IH _ _ Hn).
    now rewrite string_app_snoc.
Qed.

Lemma parse_plain_name n :
  plain_name n = true -> parse_attribute_name n = ok [n] /\ n <> "*".
Proof.
  unfold plain_name. intros H. apply andb_prop in H as [Hs Hc]. split.
  - unfold parse_attribute_name. now rewrite parse_attribute_plain.
  - apply negb_true_iff in Hs. now apply bool_decide_eq_false_1 in Hs.
Qed.

Lemma name_positions_none part names :
  ~ In (lower part) (map lower names) -> name_positions part names = [].
Proof.
  induction names as [|n names IH]; [reflexivity|]. cbn [map name_positions].
  intros Hn. unfold same_name. rewrite bool_decide_eq_false_2.
  - rewrite IH; [reflexivity|]. intros Hin. apply Hn. now right.
  - intros E. apply Hn. now left.
Qed.

Lemma name_positions_unique names j col :
  List.NoDup (map lower names) ->
  nth_error names j = Some col ->
  name_positions col names = [j].
Proof.
  revert j. induction names as [|n names IH]; intros [|j] Hnd;
    cbn [nth_error map name_positions] in *; try discriminate.
  - intros [= ->]. apply NoDup_cons_iff in Hnd as [Hn _].
    unfold same_name. rewrite bool_decide_eq_true_2 by reflexivity.
    now rewrite (name_positions_none col names Hn).
  - intros Hj. apply NoDup_cons_iff in Hnd as [Hn Hnd].
    unfold same_name. rewrite bool_decide_eq_false_2.
    + now rewrite (IH j Hnd Hj).
    + intros E. apply Hn. rewrite E. apply in_map. eapply nth_error_In. exact Hj.
Qed.

Lemma existsb_same_name name names j :
  nth_error names j = Some name ->
  existsb (fun n => same_name n name) names = true.
Proof.
  intros Hj. apply existsb_exists. exists name. split.
  - eapply nth_error_In. exact Hj.
  - unfold same_name. now apply bool_decide_eq_true_2.
Qed.

Lemma existsb_same_name_none name names :
  ~ In (lower name) (map lower names) ->
  existsb (fun n => same_name n name) names = false.
Proof.
  intros Hn. apply not_true_is_false. intros H.
  apply existsb_exists in H as (n & Hin & Hs). apply Hn.
  unfold same_name in Hs. apply bool_decide_eq_true_1 in Hs. rewrite <- Hs.
  now apply in_map.
Qed.

Lemma imap_update {A} (v : A) (x : list A) j :
  imap (fun i a => if bool_decide (i = j) then v else a) x = <[j := v]> x.
Proof.
  revert j. induction x as [|a x IH]; intros j; [now destruct j|].
  rewrite imap_cons. destruct j as [|j].
  - rewrite bool_decide_eq_true_2 by reflexivity. cbn. f_equal.
    rewrite (imap_ext _ (const (fun a : A => a))).
    + rewrite imap_const. apply list_fmap_id.
    + intros i y _. cbn. now rewrite bool_decide_eq_false_2 by lia.
  - rewrite bool_decide_eq_false_2 by lia.
    change (<[S j := v]> (a :: x)) with (a :: <[j := v]> x). f_equal.
    rewrite <- (IH j). apply imap_ext. intros i y _. cbn.
    destruct (decide (i = j)) as [->|Hne].
    + now rewrite !bool_decide_eq_true_2.
    + now rewrite !bool_decide_eq_false_2 by lia.
Qed.

(** Replacing the one column of a name is an update in place. *)
Lemma replace_hits_unique {A} names name j (v : A) (x : list A) :
  List.NoDup (map lower names) ->
  nth_error names j = Some name ->
  replace_hits (map (fun n => same_name n name) names) v x = <[j := v]> x.
Proof.
  intros Hnd Hj. unfold replace_hits. rewrite <- imap_update.
  apply imap_ext. intros i a _. cbn.
  destruct (nth_error names i) as [n|] eqn:Hi.
  - rewrite (nth_indep _ false (same_name n name))
      by (rewrite length_map; apply nth_error_Some; congruence).
    rewrite (map_nth (fun n => same_name n name)).
    rewrite (nth_error_nth _ _ n Hi). unfold same_name.
    destruct (decide (i = j)) as [->|Hne].
    + rewrite Hi in Hj. injection Hj as ->.
      now rewrite !bool_decide_eq_true_2.
    + rewrite (bool_decide_eq_false_2 (i = j)) by exact Hne.
      rewrite bool_decide_eq_false_2; [reflexivity|]. intros E. apply Hne.
      apply (proj1 (List.NoDup_nth_error (map lower names)) Hnd).
      * rewrite length_map. apply nth_error_Some. congruence.
      * rewrite !nth_error_map, Hi, Hj. cbn. now rewrite E.
  - apply nth_error_None in Hi.
    rewrite nth_overflow by (now rewrite length_map).
    rewrite bool_decide_eq_false_2; [reflexivity|]. intros ->.
    assert (j < length names)%nat by (apply nth_error_Some; congruence). lia.
Qed.

Lemma distinct_names_split names :
  List.NoDup (map lower ("date_index" :: "tmp_lag_1" :: names)) ->
  List.NoDup (map lower (("date_index" :: names) ++ ["tmp_lag_1"])) /\
  List.NoDup names /\ ~ In "date_index" names /\ ~ In "tmp_lag_1" names.
Proof.
  intros H. split; [|split; [|split]].
  - eapply Permutation_NoDup; [|exact H]. apply Permutation_map.
    cbn [app]. apply perm_skip. apply Permutation_cons_append.
  - cbn [map] in H. apply NoDup_cons_iff in H as [_ H].
    apply NoDup_cons_iff in H as [_ H]. now apply NoDup_map_inv in H.
  - cbn [map] in H. apply NoDup_cons_iff in H as [H _].
    intros Hin. apply H. right. now apply (in_map lower) in Hin.
  - cbn [map] in H. apply NoDup_cons_iff in H as [_ H].
    apply NoDup_cons_iff in H as [H _].
    intros Hin. apply H. now apply (in_map lower) in Hin.
Qed.

Section price_columns.
Variable names : list string.
Hypothesis names_plain : Forall (fun n => plain_name n = true) names.
Hypothesis names_distinct :
  List.NoDup (map lower (("date_index" :: names) ++ ["tmp_lag_1"])).

Lemma names_nodup : List.NoDup names.
Proof using names_distinct.
  rewrite map_app in names_distinct.
  apply NoDup_app_remove_r in names_distinct. cbn [map] in names_distinct.
  apply NoDup_cons_iff in names_distinct as [_ H]. now apply NoDup_map_inv in H.
Qed.

Lemma no_date_index : ~ In "date_index" names.
Proof using names_distinct.
  rewrite map_app in names_distinct.
  apply NoDup_app_remove_r in names_distinct. cbn [map] in names_distinct.
  apply NoDup_cons_iff in names_distinct as [H _].
  intros Hin. apply H. now apply (in_map lower) in Hin.
Qed.

Lemma loop_names_distinct extra :
  loop_extra extra ->
  List.NoDup (map lower (("date_index" :: names) ++ map fst extra)).
Proof using names_distinct.
  intros [->|[ty ->]]; [|exact names_distinct].
  rewrite app_nil_r. rewrite map_app in names_distinct.
  now apply NoDup_app_remove_r in names_distinct.
Qed.

Lemma price_col_pos col j extra :
  nth_error names j = Some col ->
  col_pos col (("date_index" :: names) ++ extra) = Some (S j).
Proof using names_distinct.
  intros Hj. apply col_pos_app_l. cbn [col_pos].
  destruct (decide ("date_index" = col)) as [<-|_].
  - exfalso. apply no_date_index. eapply nth_error_In. exact Hj.
  - now rewrite (col_pos_nth col names j names_nodup Hj).
Qed.

Lemma scolumns_extended extra rows :
  scolumns (mkSDF (spark_schema names ++ extra) rows) =
  ("date_index" :: names) ++ map fst extra.
Proof using Type.
  unfold scolumns. cbn [schema]. rewrite map_app. f_equal.
  apply (scolumns_spark_schema names rows).
Qed.

Lemma price_schema_entry col j extra :
  nth_error names j = Some col ->
  nth_error (spark_schema names ++ extra) (S j) = Some (col, DoubleType).
Proof using Type.
  intros Hj. rewrite nth_error_app1.
  - unfold spark_schema. cbn [nth_error]. now rewrite nth_error_map, Hj.
  - unfold spark_schema. cbn [length]. rewrite length_map.
    assert (j < length names)%nat by (apply nth_error_Some; congruence). lia.
Qed.

Lemma price_name_entry col j (extra : list (string * stype)) :
  nth_error names j = Some col ->
  nth_error (("date_index" :: names) ++ map fst extra) (S j) = Some col.
Proof using Type.
  intros Hj. rewrite nth_error_app1; [exact Hj|]. cbn [length].
  assert (j < length names)%nat by (apply nth_error_Some; congruence). lia.
Qed.

Lemma find_price col j extra rows :
  loop_extra extra ->
  nth_error names j = Some col ->
  find_column col (mkSDF (spark_schema names ++ extra) rows) =
  ok (Some (S j, DoubleType)) /\ col <> "*".
Proof using names_plain names_distinct.
  intros Hex Hj.
  assert (Hp : plain_name col = true).
  { rewrite List.Forall_forall in names_plain. apply names_plain.
    eapply nth_error_In. exact Hj. }
  destruct (parse_plain_name col Hp) as [Hparse Hstar]. split; [|exact Hstar].
  unfold find_column. rewrite Hparse. cbn [rbind ok].
  rewrite scolumns_extended.
  rewrite (name_positions_unique _ (S j) col (loop_names_distinct extra Hex)
             (price_name_entry col j extra Hj)).
  cbn [schema]. now rewrite (price_schema_entry col j extra Hj).
Qed.

Lemma resolve_price col j extra rows :
  loop_extra extra ->
  nth_error names j = Some col ->
  resolve col (mkSDF (spark_schema names ++ extra) rows) =
  ok (S j, DoubleType).
Proof using names_plain names_distinct.
  intros Hex Hj. destruct (find_price col j extra rows Hex Hj) as [Hf Hstar].
  unfold resolve. destruct (decide (col = "*")); [contradiction|].
  now rewrite Hf.
Qed.

Lemma resolve_date extra rows :
  loop_extra extra ->
  resolve "date_index" (mkSDF (spark_schema names ++ extra) rows) =
  ok (0%nat, TimestampType).
Proof using names_distinct.
  intros Hex. unfold resolve.
  destruct (decide ("date_index" = "*")); [discriminate|].
  unfold find_column.
  destruct (parse_plain_name "date_index" eq_refl) as [-> _]. cbn [rbind ok].
  rewrite scolumns_extended.
  rewrite (name_positions_unique _ 0 "date_index"
             (loop_names_distinct extra Hex) eq_refl).
  reflexivity.
Qed.

Lemma tmp_name_entry :
  nth_error (("date_index" :: names) ++ ["tmp_lag_1"]) (S (length names))
  = Some "tmp_lag_1".
Proof using Type.
  cbn [app nth_error]. rewrite nth_error_app2 by lia.
  now rewrite Nat.sub_diag.
Qed.

Lemma find_tmp ty rows :
  find_column "tmp_lag_1"
    (mkSDF (spark_schema names ++ [("tmp_lag_1", ty)]) rows) =
  ok (Some (S (length names), ty)).
Proof using names_distinct.
  unfold find_column.
  destruct (parse_plain_name "tmp_lag_1" eq_refl) as [-> _]. cbn [rbind ok].
  rewrite scolumns_extended. cbn [map fst].
  rewrite (name_positions_unique _ (S (length names)) "tmp_lag_1"
             names_distinct tmp_name_entry).
  cbn [schema]. unfold spark_schema. cbn [app nth_error].
  rewrite nth_error_app2 by (rewrite length_map; lia).
  rewrite length_map, Nat.sub_diag. reflexivity.
Qed.

Lemma resolve_tmp ty rows :
  resolve "tmp_lag_1"
    (mkSDF (spark_schema names ++ [("tmp_lag_1", ty)]) rows) =
  ok (S (length names), ty).
Proof using names_distinct.
  unfold resolve. destruct (decide ("tmp_lag_1" = "*")); [discriminate|].
  now rewrite find_tmp.
Qed.

Lemma with_column_tmp ty vals rows :
  with_column "tmp_lag_1" ty vals (mkSDF (spark_schema names) rows) =
  mkSDF (spark_schema names ++ [("tmp_lag_1", ty)])
        (zip_with (fun row v => row ++ [v]) rows vals).
Proof using names_distinct.
  unfold with_column. rewrite scolumns_spark_schema.
  rewrite existsb_same_name_none; [reflexivity|].
  pose proof names_distinct as H. rewrite map_app in H.
  apply NoDup_remove_2 in H. now rewrite app_nil_r in H.
Qed.

Lemma with_column_price col j extra vals rows :
  loop_extra extra ->
  nth_error names j = Some col ->
  with_column col DoubleType vals (mkSDF (spark_schema names ++ extra) rows) =
  mkSDF (spark_schema names ++ extra)
        (zip_with (fun row v => <[S j := v]> row) rows vals).
Proof using names_distinct.
  intros Hex Hj. unfold with_column.
  rewrite scolumns_extended.
  rewrite (existsb_same_name col _ (S j) (price_name_entry col j extra Hj)).
  cbn [schema srows]. f_equal.
  - rewrite (replace_hits_unique _ col (S j) _ _ (loop_names_distinct extra Hex)
               (price_name_entry col j extra Hj)).
    now rewrite (list_insert_same _ _ _ (price_schema_entry col j extra Hj)).
  - apply zip_with_ext; [|reflexivity..]. intros row v.
    apply (replace_hits_unique _ col (S j) _ _ (loop_names_distinct extra Hex)
             (price_name_entry col j extra Hj)).
Qed.

Lemma keep_mask_last n :
  map (fun i => negb (bool_decide (i = n))) (seq 0 (S n)) =
  repeat true n ++ [false].
Proof using Type.
  rewrite seq_S, map_app. cbn [map Nat.add]. f_equal.
  - rewrite (map_const_repeat _ true), length_seq; [reflexivity|].
    intros i Hi. apply in_seq in Hi.
    now rewrite bool_decide_eq_false_2 by lia.
  - now rewrite bool_decide_eq_true_2.
Qed.

Lemma drop_column_tmp ty rows :
  drop_column "tmp_lag_1"
    (mkSDF (spark_schema names ++ [("tmp_lag_1", ty)]) rows) =
  ok (mkSDF (spark_schema names)
        (map (mask_filter (true :: repeat true (length names) ++ [false])) rows)).
Proof using names_distinct.
  unfold drop_column. destruct (decide ("tmp_lag_1" = "*")); [discriminate|].
  rewrite find_tmp. cbn [rbind ok schema srows].
  assert (Hl : length (spark_schema names ++ [("tmp_lag_1", ty)]) =
               S (S (length names))).
  { rewrite length_app. unfold spark_schema. cbn [length].
    rewrite length_map. lia. }
  rewrite Hl, (keep_mask_last (S (length names))). cbn [repeat app].
  do 2 f_equal.
  unfold spark_schema. cbn [app mask_filter]. f_equal.
  rewrite <- (length_map (fun n => (n, DoubleType)) names).
  rewrite mask_filter_keep_app. cbn [mask_filter]. apply app_nil_r.
Qed.
End price_columns.

(** *** One turn of the loop, and the loop *)

Lemma spark_return_step_cells (lg : bool) names rows ds cells j col :
  Forall (fun n => plain_name n = true) names ->
  List.NoDup (map lower (("date_index" :: names) ++ ["tmp_lag_1"])) ->
  nth_error names j = Some col ->
  sort_rows 0 rows = spark_rows ds cells ->
  length cells = length ds ->
  Forall (fun c => length c = length names) cells ->
  spark_return_step lg col (mkSDF (spark_schema names) rows) =
  ok (mkSDF (spark_schema names) (spark_rows ds (step_cells lg j cells))).
Proof.
  intros Hplain Hdist Hj Hsort Hlen Hcells.
  assert (Hjk : (j < length names)%nat) by (apply nth_error_Some; congruence).
  assert (Hnone : loop_extra []) by now left.
  assert (Htmp : forall ty, loop_extra [("tmp_lag_1", ty)])
    by (intros ty; right; now exists ty).
  pose proof (resolve_price names Hplain Hdist col j [] rows Hnone Hj) as Hr1.
  pose proof (resolve_date names Hdist [] rows Hnone) as Hr2.
  rewrite app_nil_r in Hr1, Hr2.
  unfold spark_return_step. rewrite Hr1. cbn [rbind ok]. rewrite Hr2.
  cbn [rbind ok schema srows]. rewrite Hsort.
  rewrite (with_column_tmp names Hdist).
  rewrite (resolve_price names Hplain Hdist col j _ _ (Htmp _) Hj).
  cbn [rbind ok].
  rewrite (resolve_tmp names Hdist). cbn [rbind ok srows].
  rewrite (with_column_price names Hdist col j _ _ _ (Htmp _) Hj).
  rewrite (drop_column_tmp names Hdist). cbn [rbind ok].
  rewrite zip_with_map_r, map_map.
  rewrite (price_column_stamped ds cells j Hlen).
  set (lagv := lag (map (fun c => sget c j) cells)).
  destruct lg.
  - pose proof (resolve_price names Hplain Hdist col j []
                  (map (fun x => mask_filter (true :: repeat true (length names) ++ [false])
                     (<[S j := sdiv (ssub (sget x (S j)) (sget x (S (length names))))
                                    (sget x (S (length names)))]> x))
                     (zip_with (fun row v => row ++ [v]) (spark_rows ds cells) lagv))
                  Hnone Hj) as Hr3.
    rewrite app_nil_r in Hr3. rewrite Hr3. cbn [rbind ok].
    pose proof (with_column_price names Hdist col j []) as Hw.
    rewrite app_nil_r in Hw. rewrite (Hw _ _ Hnone Hj). cbn [srows].
    do 2 f_equal.
    rewrite zip_with_map_r, map_map, map_zip_with.
    apply (zip_with_stamped (fun c => length c = length names)); [|exact Hcells].
    intros d c v Hc.
    exact (row_step true (length names) j d c v Hc Hjk).
  - do 2 f_equal. rewrite map_zip_with.
    apply (zip_with_stamped (fun c => length c = length names)); [|exact Hcells].
    intros d c v Hc.
    exact (row_step false (length names) j d c v Hc Hjk).
Qed.

Lemma length_lag (l : list sval) : length (lag l) = length l.
Proof. unfold lag. rewrite length_firstn. simpl. lia. Qed.

Lemma length_step_cells lg j cells :
  length (step_cells lg j cells) = length cells.
Proof.
  unfold step_cells. rewrite length_zip_with, length_lag, length_map. lia.
Qed.

Lemma Forall_zip_with_l {A B} (P : A -> Prop) (f : A -> B -> A) l1 l2 :
  (forall a b, P a -> P (f a b)) -> Forall P l1 -> Forall P (zip_with f l1 l2).
Proof.
  intros Hf H. revert l2. induction H as [|a l1 Ha H IH]; intros [|b l2];
    simpl; constructor; auto.
Qed.

Lemma step_cells_widths lg j k cells :
  Forall (fun c => length c = k) cells ->
  Forall (fun c => length c = k) (step_cells lg j cells).
Proof.
  intros H. unfold step_cells. apply Forall_zip_with_l; [|exact H].
  intros c v Hc. now rewrite length_insert.
Qed.

Lemma skipn_nth_error {A} (l : list A) j x :
  nth_error l j = Some x -> skipn j l = x :: skipn (S j) l.
Proof.
  revert j. induction l as [|y l IH]; intros [|j]; simpl; try discriminate.
  - now intros [= ->].
  - intros H. rewrite (IH j H). reflexivity.
Qed.

Lemma spark_return_loop_cells (lg : bool) names ds :
  Forall (fun n => plain_name n = true) names ->
  List.NoDup (map lower (("date_index" :: names) ++ ["tmp_lag_1"])) ->
  ascending ds ->
  forall m j rows cells,
    (j + m = length names)%nat ->
    sort_rows 0 rows = spark_rows ds cells ->
    length cells = length ds ->
    Forall (fun c => length c = length names) cells ->
    spark_return_loop lg (skipn j names) (mkSDF (spark_schema names) rows) =
    ok (mkSDF (spark_schema names)
              (match m with
               | O => rows
               | S _ => spark_rows ds (loop_cells lg (seq j m) cells)
               end)).
Proof.
  intros Hplain Hdist Hasc. induction m as [|m IH];
    intros j rows cells Hjm Hsort Hlen Hw.
  - rewrite skipn_all2 by lia. reflexivity.
  - destruct (nth_error names j) as [col|] eqn:Hj.
    2:{ apply nth_error_None in Hj. lia. }
    rewrite (skipn_nth_error _ _ _ Hj). cbn [spark_return_loop].
    rewrite (spark_return_step_cells lg names rows ds cells j col
               Hplain Hdist Hj Hsort Hlen Hw).
    cbn [rbind ok].
    rewrite (IH (S j) _ (step_cells lg j cells)).
    + destruct m; reflexivity.
    + lia.
    + now apply sort_rows_canonical.
    + now rewrite length_step_cells.
    + now apply step_cells_widths.
Qed.

(** *** The cells after the loop *)

Lemma nth_lag (l : list sval) i :
  (i < length l)%nat ->
  nth i (lag l) SNull = match i with O => SNull | S i' => nth i' l SNull end.
Proof.
  intros Hi. unfold lag. rewrite nth_firstn.
  destruct (Nat.ltb_spec i (length l)); [|lia]. now destruct i.
Qed.

Lemma nth_zip_with {A B C} (f : A -> B -> C) l1 l2 i da db dc :
  (i < length l1)%nat -> (i < length l2)%nat ->
  nth i (zip_with f l1 l2) dc = f (nth i l1 da) (nth i l2 db).
Proof.
  revert l2 i. induction l1 as [|a l1 IH]; intros [|b l2] [|i] H1 H2;
    simpl in *; try lia; [reflexivity|]. apply IH; lia.
Qed.

Lemma nth_step_cells lg j cells i :
  (i < length cells)%nat ->
  nth i (step_cells lg j cells) [] =
  <[j := spark_return lg (cell_at cells i j) (cell_before cells i j)]>
    (nth i cells []).
Proof.
  intros Hi. unfold step_cells.
  rewrite (nth_zip_with _ _ _ _ [] SNull) by (rewrite ?length_lag, ?length_map; lia).
  rewrite nth_lag by (rewrite length_map; lia).
  unfold cell_at, cell_before. destruct i as [|i]; [reflexivity|].
  rewrite (nth_indep _ SNull (sget [] j)) by (rewrite length_map; lia).
  now rewrite (map_nth (fun c => sget c j)).
Qed.

Lemma sget_insert_ne (c : list sval) j j' v :
  j <> j' -> sget (<[j := v]> c) j' = sget c j'.
Proof.
  revert j j'. induction c as [|x c IH]; intros [|j] [|j'] H; simpl; try reflexivity;
    try lia. apply IH. lia.
Qed.

Lemma cell_at_step lg j cells i j' k :
  (i < length cells)%nat ->
  Forall (fun c => length c = k) cells ->
  (j < k)%nat ->
  cell_at (step_cells lg j cells) i j' =
  if decide (j' = j)
  then spark_return lg (cell_at cells i j) (cell_before cells i j)
  else cell_at cells i j'.
Proof.
  intros Hi Hw Hj. unfold cell_at at 1. rewrite nth_step_cells by exact Hi.
  destruct (decide (j' = j)) as [->|Hne].
  - apply sget_insert. rewrite List.Forall_forall in Hw.
    rewrite (Hw (nth i cells [])); [exact Hj|]. now apply nth_In.
  - apply sget_insert_ne. congruence.
Qed.

Lemma cell_before_step lg j cells i j' k :
  (i < length cells)%nat ->
  Forall (fun c => length c = k) cells ->
  (j < k)%nat -> j' <> j ->
  cell_before (step_cells lg j cells) i j' = cell_before cells i j'.
Proof.
  intros Hi Hw Hj Hne. destruct i as [|i]; [reflexivity|]. cbn [cell_before].
  rewrite (cell_at_step lg j cells i j' k) by (auto; lia).
  destruct (decide (j' = j)); [contradiction | reflexivity].
Qed.

(** After the loop over the columns [js], each of them holds the return
    computed from the original cells; the other columns are untouched. *)
Lemma cell_at_loop lg k js :
  List.NoDup js ->
  Forall (fun j => (j < k)%nat) js ->
  forall cells i j,
    (i < length cells)%nat ->
    Forall (fun c => length c = k) cells ->
    cell_at (loop_cells lg js cells) i j =
    if in_dec Nat.eq_dec j js
    then spark_return lg (cell_at cells i j) (cell_before cells i j)
    else cell_at cells i j.
Proof.
  intros Hnd Hjs. induction Hnd as [|j0 js Hn Hnd IH]; intros cells i j Hi Hw.
  - reflexivity.
  - inversion Hjs as [|? ? Hj0 Hjs']; subst. specialize (IH Hjs').
    cbn [loop_cells fold_left]. fold (loop_cells lg js (step_cells lg j0 cells)).
    rewrite IH by (rewrite ?length_step_cells; auto using step_cells_widths).
    destruct (in_dec Nat.eq_dec j (j0 :: js)) as [Hin|Hnin];
      destruct (in_dec Nat.eq_dec j js) as [Hin'|Hnin'].
    + assert (j <> j0) by (intros ->; contradiction).
      rewrite (cell_at_step lg j0 cells i j k), (cell_before_step lg j0 cells i j k)
        by auto.
      destruct (decide (j = j0)); [contradiction | reflexivity].
    + destruct Hin as [<-|Hin]; [|contradiction].
      rewrite (cell_at_step lg j0 cells i j0 k) by auto.
      destruct (decide (j0 = j0)); [reflexivity | contradiction].
    + exfalso. apply Hnin. now right.
    + rewrite (cell_at_step lg j0 cells i j k) by auto.
      destruct (decide (j = j0)) as [->|_]; [|reflexivity].
      exfalso. apply Hnin. now left.
Qed.

(** *** Reading a value by date and asset *)

Lemma index_pos_bound d ds i :
  index_pos d ds = Some i -> (i < length ds)%nat /\ nth i ds 0%Z = d.
Proof.
  revert i. induction ds as [|d' ds IH]; intros i; [discriminate|].
  cbn [index_pos]. destruct (decide (d' = d)) as [->|Hne].
  - intros [= <-]. simpl. split; [lia | reflexivity].
  - destruct (index_pos d ds) as [i'|]; [|discriminate]. intros [= <-].
    destruct (IH i' eq_refl). simpl. split; [lia | assumption].
Qed.

Lemma index_pos_notin d ds : ~ In d ds -> index_pos d ds = None.
Proof.
  induction ds as [|d' ds IH]; [reflexivity|]. cbn [index_pos]. intros Hn.
  destruct (decide (d' = d)) as [->|Hne].
  - exfalso. apply Hn. now left.
  - rewrite IH; [reflexivity|]. intros Hin. apply Hn. now right.
Qed.

Lemma index_pos_tail d d0 ds :
  ascending (d0 :: ds) ->
  index_pos d ds =
  match index_pos d (d0 :: ds) with
  | Some (S i) => Some i
  | _ => None
  end.
Proof.
  intros Hasc. cbn [index_pos]. destruct (decide (d0 = d)) as [->|Hne].
  - apply index_pos_notin. intros Hin.
    inversion Hasc as [|? ? _ Hall]; subst.
    rewrite List.Forall_forall in Hall. specialize (Hall d Hin). lia.
  - destruct (index_pos d ds); reflexivity.
Qed.

Lemma find_has_date ds cells d :
  length cells = length ds ->
  find (has_date 0 d) (spark_rows ds cells) =
  match index_pos d ds with
  | Some i => Some (STimestamp d :: nth i cells [])
  | None => None
  end.
Proof.
  revert cells. induction ds as [|d' ds IH]; intros [|c cells] H;
    try discriminate; [reflexivity|].
  rewrite spark_rows_cons. cbn [find index_pos].
  unfold has_date at 1. unfold sget. cbn [nth].
  destruct (decide (d' = d)) as [->|Hne].
  - rewrite bool_decide_eq_true_2 by reflexivity. reflexivity.
  - rewrite bool_decide_eq_false_2 by exact Hne.
    rewrite IH by (simpl in H; lia).
    destruct (index_pos d ds); reflexivity.
Qed.

Lemma spark_return_first lg a : spark_return lg a SNull = SNull.
Proof. unfold spark_return. destruct a, lg; reflexivity. Qed.

(** The return Spark computes from two finite prices above zero. *)
Lemma spark_return_nums (lg : bool) p q :
  0 < p -> 0 < q ->
  exists x, spark_return lg (SDouble (Num p)) (SDouble (Num q)) = SDouble (Num x) /\
            x = if lg then ln (p / q) else p / q - 1.
Proof.
  intros Hp Hq. unfold spark_return. cbn [ssub fsub fneg fadd sdiv].
  rewrite Reqb_false by lra. rewrite fdiv_num by lra.
  assert (Hr : 0 < p / q) by now apply Rdiv_lt_0_compat.
  assert (He : (p + - q) / q = p / q - 1) by (field; lra).
  destruct lg.
  - cbn [sadd fadd slog]. rewrite Rltb_true by (rewrite He; lra).
    cbn [flog]. rewrite Rltb_true by (rewrite He; lra).
    eexists. split; [reflexivity|]. f_equal. rewrite He. ring.
  - eexists. split; [reflexivity | exact He].
Qed.

Lemma assoc_nth {A} (l : list (string * A)) j e :
  List.NoDup (map fst l) -> nth_error l j = Some e ->
  assoc (fst e) l = Some (snd e).
Proof.
  revert j. induction l as [|x l IH]; intros [|j] Hnd; cbn [nth_error assoc];
    try discriminate.
  - intros [= ->]. destruct (decide (fst e = fst e)); [reflexivity|contradiction].
  - intros Hj. inversion Hnd as [|? ? Hx Hnd']; subst.
    destruct (decide (fst x = fst e)) as [E|_].
    + exfalso. apply Hx. rewrite E. apply in_map. eapply nth_error_In. exact Hj.
    + now apply (IH j).
Qed.

Lemma length_loop_cells lg js cells :
  length (loop_cells lg js cells) = length cells.
Proof.
  revert cells. induction js as [|j js IH]; intros cells; [reflexivity|].
  cbn [loop_cells fold_left]. fold (loop_cells lg js (step_cells lg j cells)).
  now rewrite IH, length_step_cells.
Qed.

Lemma length_price_cells df : length (price_cells df) = length (index df).
Proof. unfold price_cells, nrows. now rewrite length_map, length_seq. Qed.

Lemma price_cells_widths df :
  Forall (fun c => length c = length (columns df)) (price_cells df).
Proof.
  unfold price_cells. apply List.Forall_forall. intros c Hc.
  apply in_map_iff in Hc as (i & <- & _).
  unfold row_at, columns. now rewrite !length_map.
Qed.

(** The distributed path on the Spark form of a pandas table, whatever
    the order of its rows. *)
Lemma spark_side (lg : bool) df rows :
  Forall (fun n => plain_name n = true) (columns df) ->
  List.NoDup (map lower ("date_index" :: "tmp_lag_1" :: columns df)) ->
  ascending (index df) ->
  Permutation rows (srows (to_spark df)) ->
  exists out,
    returns_from_prices (Spark (mkSDF (spark_schema (columns df)) rows)) lg true
    = ok (Spark out) /\
    forall d name j,
      nth_error (columns df) j = Some name ->
      spark_value out d name =
      match index_pos d (index df) with
      | Some i =>
          match spark_return lg (cell_at (price_cells df) i j)
                                (cell_before (price_cells df) i j) with
          | SDouble v => finite_value v
          | _ => None
          end
      | None => None
      end.
Proof.
  intros Hplain Hdistinct Hasc Hperm.
  destruct (distinct_names_split _ Hdistinct) as (Hdist & Hnd & Hdi & Htmp).
  set (names := columns df) in *. set (ds := index df) in *.
  set (cells0 := price_cells df).
  assert (Hsort : sort_rows 0 rows = spark_rows ds cells0)
    by now apply sort_rows_canonical.
  assert (Hlen : length cells0 = length ds) by apply length_price_cells.
  assert (Hw : Forall (fun c => length c = length names) cells0)
    by apply price_cells_widths.
  pose proof (spark_return_loop_cells lg names ds Hplain Hdist Hasc
                (length names) 0%nat rows cells0 eq_refl Hsort Hlen Hw) as Hloop.
  change (skipn 0 names) with names in Hloop.
  eexists. split.
  - unfold returns_from_prices, has_date_index.
    cbn [is_spark_frame andb negb table_columns].
    rewrite scolumns_spark_schema.
    rewrite bool_decide_eq_true_2 by apply list_elem_of_here.
    cbn [negb andb list_remove].
    destruct (decide ("date_index" = "date_index")); [|contradiction].
    assert (Hb : forall (b : bool) (X Y Z : result table),
               (if b && false then X else if negb b && false then Y else Z) = Z)
      by (intros [|]; reflexivity).
    rewrite Hb, Hloop. reflexivity.
  - intros d name j Hj.
    assert (Hjk : (j < length names)%nat) by (apply nth_error_Some; congruence).
    destruct (length names) as [|k'] eqn:Ek; [lia|]. rewrite <- Ek in *.
    unfold spark_value. cbn [srows]. rewrite scolumns_spark_schema.
    pose proof (price_col_pos names Hdist name j [] Hj) as Hcp.
    rewrite app_nil_r in Hcp. rewrite Hcp. cbn [col_pos].
    destruct (decide ("date_index" = "date_index")); [|contradiction].
    rewrite find_has_date by (now rewrite length_loop_cells).
    destruct (index_pos d ds) as [i|] eqn:Ei; [|reflexivity].
    destruct (index_pos_bound _ _ _ Ei) as [Hi _].
    change (sget (STimestamp d :: ?c) (S j)) with (sget c j).
    fold (cell_at (loop_cells lg (seq 0 (length names)) cells0) i j).
    rewrite (cell_at_loop lg (length names)).
    + destruct (in_dec Nat.eq_dec j (seq 0 (length names))) as [_|Hn];
        [reflexivity|].
      exfalso. apply Hn. apply in_seq. lia.
    + apply seq_NoDup.
    + apply List.Forall_forall. intros x Hx. apply in_seq in Hx. lia.
    + lia.
    + exact Hw.
Qed.

Lemma mask_filter_nil_r {A} (m : list bool) : mask_filter m (@nil A) = [].
Proof. destruct m as [|[|] m]; reflexivity. Qed.

Lemma cell_at_price_cells df i j c :
  (i < nrows df)%nat ->
  nth_error (cols df) j = Some c ->
  cell_at (price_cells df) i j = SDouble (cell (snd c) i).
Proof.
  intros Hi Hj. unfold cell_at, price_cells.
  rewrite (nth_indep _ [] (map SDouble (row_at df 0)))
    by (now rewrite length_map, length_seq).
  rewrite (map_nth (fun i => map SDouble (row_at df i))), seq_nth by exact Hi.
  unfold sget. apply nth_error_nth. unfold row_at.
  rewrite !nth_error_map, Hj. reflexivity.
Qed.

(** C6 fails on the code, on asset names that Spark does not read as
    one column name of their own.  For the prices [100, 110] of the
    asset "BRK.B" the in-memory path returns the return of the second
    date, while the distributed path, on the same table behind a column
    "date_index", raises an analysis error and returns nothing: the loop
    passes the name unquoted, and Spark reads "BRK.B" as the field "B"
    of a column "BRK".  Two assets "a" and "A" fail in the same way: the
    name "a" stands for both columns. *)
Theorem distributed_path_fails_on_asset_names :
  let df := mkDF [0%Z; 1%Z] [("BRK.B", [Num 100; Num 110])] in
  let df2 := mkDF [0%Z; 1%Z] [("a", [Num 100; Num 110]);
                              ("A", [Num 50; Num 55])] in
  (well_formed df /\ positive_prices df /\ ascending (index df) /\
   List.NoDup (columns df)) /\
  (exists r,
     returns_from_prices (Pandas df) false false = ok (Pandas r) /\
     pandas_value r 1 "BRK.B" = Some (110 / 100 - 1)) /\
  (exists msg,
     returns_from_prices (Spark (to_spark df)) false true =
     raise "AnalysisException" msg) /\
  ~ (exists out,
       returns_from_prices (Spark (to_spark df)) false true = ok (Spark out)) /\
  (well_formed df2 /\ positive_prices df2 /\ List.NoDup (columns df2)) /\
  (exists r, returns_from_prices (Pandas df2) false false = ok (Pandas r)) /\
  (exists msg,
     returns_from_prices (Spark (to_spark df2)) false true =
     raise "AnalysisException" msg).
Proof.
  intros df df2.
  assert (Hspark : returns_from_prices (Spark (to_spark df)) false true =
                   raise "AnalysisException" "cannot resolve column")
    by reflexivity.
  split; [|split; [|split; [|split; [|split; [|split]]]]].
  - split; [repeat constructor|]. split.
    + repeat constructor; eexists; (split; [reflexivity|lra]).
    + split; [repeat constructor; lia|].
      repeat constructor. intros H. inversion H.
  - assert (Hc : pct_change_col [Num 100; Num 110] = [NaN; Num (110 / 100 - 1)]).
    { apply (pct_change_col_nums 100 [110]). repeat constructor; lra. }
    assert (Hr : dropna_all (pct_change df) =
                 mkDF [1%Z] [("BRK.B", [Num (110 / 100 - 1)])]).
    { rewrite (dropna_all_leading_nan _ 1).
      - unfold pct_change, df. cbn [index cols map fst snd tl]. now rewrite Hc.
      - discriminate.
      - reflexivity.
      - unfold pct_change, df. cbn [index cols map fst snd]. rewrite Hc.
        repeat constructor. eexists. split; [reflexivity|].
        now repeat constructor. }
    eexists. split.
    + unfold returns_from_prices. cbn [andb negb is_spark_frame]. rewrite Hr.
      reflexivity.
    + reflexivity.
  - eexists. exact Hspark.
  - intros [out Hout]. rewrite Hspark in Hout. discriminate.
  - split; [repeat constructor|]. split.
    + repeat constructor; eexists; (split; [reflexivity|lra]).
    + repeat constructor; simpl; intuition discriminate.
  - eexists. reflexivity.
  - eexists. reflexivity.
Qed.

(** * Further properties of the module *)

(** ** Seconds in days *)

(** X1.  [_sec_in_days] is exact on integers: dividing the seconds by
    86400 gives the days back with no remainder, the function is
    additive and one-to-one, and one day has [24 * 60 * 60] seconds. *)
Theorem sec_in_days_exact (n m : Z) :
  (_sec_in_days n / 86400 = n)%Z /\
  (_sec_in_days n mod 86400 = 0)%Z /\
  (_sec_in_days (n + m) = _sec_in_days n + _sec_in_days m)%Z /\
  (_sec_in_days n = _sec_in_days m -> n = m) /\
  (_sec_in_days 1 = 24 * 60 * 60)%Z.
Proof.
  unfold _sec_in_days. repeat split.
  - apply Z.div_mul. lia.
  - apply Z.mod_mul. lia.
  - lia.
  - lia.
Qed.

(** ** The in-memory transform on arbitrary tables *)

Lemma fdiv_nan_r a : fdiv a NaN = NaN.
Proof. now destruct a. Qed.

Lemma pct_change_col_first c : cell (pct_change_col c) 0 = NaN.
Proof.
  unfold pct_change_col, ffill, shift, cell.
  destruct c as [|x c]; [reflexivity|]. cbn [ffill_from length firstn zip_with nth].
  now rewrite fdiv_nan_r.
Qed.

Lemma cell_map_nan (f : float -> float) c i :
  f NaN = NaN -> cell (map f c) i = f (cell c i).
Proof.
  intros Hf. unfold cell. rewrite <- Hf at 1. apply map_nth.
Qed.

Lemma undropped_cols lg df :
  cols (undropped_returns lg df) =
  map (fun c => (fst c,
                 if lg then map flog (map (fadd (Num 1)) (pct_change_col (snd c)))
                 else pct_change_col (snd c))) (cols df).
Proof.
  unfold undropped_returns. destruct lg; cbn [cols map_frame pct_change];
    [|reflexivity]. now rewrite !map_map.
Qed.

Lemma undropped_index lg df : index (undropped_returns lg df) = index df.
Proof. unfold undropped_returns. now destruct lg. Qed.

Lemma undropped_first_row lg df :
  existsb notna (row_at (undropped_returns lg df) 0) = false.
Proof.
  unfold row_at. rewrite undropped_cols, map_map. cbn [snd].
  induction (cols df) as [|c cs IH]; [reflexivity|]. cbn [map existsb].
  rewrite IH, orb_false_r. destruct lg.
  - rewrite !cell_map_nan by reflexivity. now rewrite pct_change_col_first.
  - now rewrite pct_change_col_first.
Qed.

Lemma length_mask_filter {A B} (m : list bool) (l1 : list A) (l2 : list B) :
  length l1 = length l2 ->
  length (mask_filter m l1) = length (mask_filter m l2).
Proof.
  revert l1 l2. induction m as [|b m IH]; intros [|x l1] [|y l2] H;
    try discriminate; try reflexivity.
  cbn [mask_filter]. injection H as H. destruct b; cbn [length];
    now rewrite (IH l1 l2 H).
Qed.

Lemma length_mask_filter_le {A} (m : list bool) (l : list A) :
  (length (mask_filter m l) <= length l)%nat.
Proof.
  revert l. induction m as [|b m IH]; intros [|x l]; cbn [mask_filter length];
    try lia. specialize (IH l). destruct b; cbn [length]; lia.
Qed.

Lemma mask_filter_seq_ge m a n k :
  In k (mask_filter m (seq a n)) -> (a <= k)%nat.
Proof.
  revert a n. induction m as [|b m IH]; intros a [|n]; cbn [seq mask_filter];
    try contradiction.
  destruct b.
  - intros [<-|H]; [lia|]. apply IH in H. lia.
  - intros H. apply IH in H. lia.
Qed.

(** Filtering by a mask reads the kept positions. *)
Lemma mask_filter_positions {A} (d : A) (m : list bool) (l : list A) a :
  mask_filter m l =
  map (fun k => nth (k - a) l d) (mask_filter m (seq a (length l))).
Proof.
  revert m a. induction l as [|x l IH]; intros [|b m] a; try reflexivity.
  cbn [length seq mask_filter].
  assert (Htl : mask_filter m l =
                map (fun k => nth (k - a) (x :: l) d)
                    (mask_filter m (seq (S a) (length l)))).
  { rewrite (IH m (S a)). apply map_ext_in. intros k Hk.
    apply mask_filter_seq_ge in Hk.
    replace (k - a)%nat with (S (k - S a)) by lia. reflexivity. }
  destruct b; cbn [map]; [|exact Htl].
  rewrite Nat.sub_diag. cbn [nth]. now rewrite Htl.
Qed.

Lemma mask_filter_kept {A} (p : A -> bool) (l : list A) x :
  In x (mask_filter (map p l) l) -> p x = true.
Proof.
  induction l as [|y l IH]; [contradiction|]. cbn [map mask_filter].
  destruct (p y) eqn:E.
  - intros [<-|H]; [exact E | now apply IH].
  - exact IH.
Qed.

(** Every row that [dropna(how="all")] keeps has a valid cell. *)
Lemma dropna_all_rows_valid df i :
  well_formed df ->
  (i < nrows (dropna_all df))%nat ->
  existsb notna (row_at (dropna_all df) i) = true.
Proof.
  intros Hwf Hi.
  set (kept := mask_filter (dropna_mask df) (seq 0 (nrows df))).
  assert (Hn : nrows (dropna_all df) = length kept).
  { unfold nrows, dropna_all, kept. cbn [index].
    apply length_mask_filter. now rewrite length_seq. }
  assert (Hrow : row_at (dropna_all df) i = row_at df (nth i kept 0%nat)).
  { unfold row_at, dropna_all. cbn [cols]. rewrite map_map. cbn [snd].
    apply map_ext_Forall. eapply Forall_impl; [exact Hwf|].
    intros c Hc. cbv beta in *. unfold cell.
    rewrite (mask_filter_positions NaN _ (snd c) 0), Hc. fold kept.
    rewrite (nth_indep _ NaN (nth (0 - 0) (snd c) NaN))
      by (rewrite length_map; lia).
    rewrite (map_nth (fun k => nth (k - 0) (snd c) NaN)).
    now rewrite Nat.sub_0_r. }
  rewrite Hrow.
  apply (mask_filter_kept (fun k => existsb notna (row_at df k))
                          (seq 0 (nrows df))).
  change (In (nth i kept 0%nat) kept). apply nth_In. lia.
Qed.

Lemma dropna_all_well_formed df : well_formed df -> well_formed (dropna_all df).
Proof.
  intros Hwf. unfold well_formed, dropna_all, nrows. cbn [cols index].
  rewrite List.Forall_map. eapply Forall_impl; [exact Hwf|].
  intros c Hc. cbn [snd]. now apply length_mask_filter.
Qed.

Lemma undropped_well_formed lg df :
  well_formed df -> well_formed (undropped_returns lg df).
Proof.
  intros Hwf. unfold well_formed, nrows.
  rewrite undropped_cols, undropped_index, List.Forall_map.
  eapply Forall_impl; [exact Hwf|]. intros c Hc. cbn [snd].
  assert (Hp : length (pct_change_col (snd c)) = length (snd c)).
  { unfold pct_change_col, shift, ffill.
    assert (Hf : forall l c0, length (ffill_from l c0) = length c0).
    { intros l c0. revert l. induction c0 as [|x c0 IH]; intros l; simpl;
        [reflexivity | now rewrite IH]. }
    rewrite length_zip_with, length_firstn, Hf. cbn [length]. rewrite Hf. lia. }
  destruct lg; rewrite ?length_map, Hp; exact Hc.
Qed.

Lemma returns_from_prices_pandas lg df :
  returns_from_prices (Pandas df) lg false =
  ok (Pandas (dropna_all (undropped_returns lg df))).
Proof. unfold returns_from_prices, undropped_returns. now destruct lg. Qed.

(** The rows the in-memory path keeps, on any well-formed table. *)
Lemma returns_from_prices_shape_rows df (lg := false) :
  well_formed df ->
  well_formed (dropna_all (undropped_returns lg df)) /\
  (nrows (dropna_all (undropped_returns lg df)) <= nrows df - 1)%nat.
Proof.
  intros Hwf. set (raw := undropped_returns lg df).
  split; [apply dropna_all_well_formed; now apply undropped_well_formed|].
  unfold nrows, dropna_all. cbn [index]. unfold raw at 2.
  rewrite undropped_index. unfold dropna_mask, nrows. unfold raw at 2.
  rewrite undropped_index.
  destruct (index df) as [|d ds]; [now rewrite mask_filter_nil_r|].
  cbn [length seq map mask_filter]. fold raw.
  unfold raw at 1. rewrite undropped_first_row.
  pose proof (length_mask_filter_le
                (map (fun i => existsb notna (row_at raw i)) (seq 1 (length ds)))
                ds). lia.
Qed.

(** X3.  On every well-formed pandas table, whatever its cells, the
    in-memory path of [returns_from_prices] succeeds under both
    conventions.  The result has the columns of the input, is well
    formed and has no row whose cells are all missing.  When the input
    has a row the result has at least one row fewer (the first row is
    gone); a table without rows stays without rows. *)
Theorem returns_from_prices_in_memory_shape (df : DataFrame)
    (log_returns : bool) :
  well_formed df ->
  exists r,
    returns_from_prices (Pandas df) log_returns false = ok (Pandas r) /\
    columns r = columns df /\
    well_formed r /\
    ((1 <= nrows df)%nat -> (nrows r < nrows df)%nat) /\
    (nrows df = 0%nat -> nrows r = 0%nat) /\
    (forall i, (i < nrows r)%nat -> existsb notna (row_at r i) = true).
Proof.
  intros Hwf. set (raw := undropped_returns log_returns df).
  assert (Hraw : well_formed raw) by now apply undropped_well_formed.
  exists (dropna_all raw). split; [apply returns_from_prices_pandas|].
  assert (Hrows : (nrows (dropna_all raw) <= nrows df - 1)%nat).
  { unfold nrows, dropna_all. cbn [index]. unfold raw at 2.
    rewrite undropped_index. unfold dropna_mask, nrows. unfold raw at 2.
    rewrite undropped_index.
    destruct (index df) as [|d ds]; [now rewrite mask_filter_nil_r|].
    cbn [length seq map mask_filter]. fold raw.
    unfold raw at 1. rewrite undropped_first_row.
    pose proof (length_mask_filter_le
                  (map (fun i => existsb notna (row_at raw i)) (seq 1 (length ds)))
                  ds). lia. }
  split; [|split; [|split; [|split]]].
  - unfold columns, dropna_all. cbn [cols]. unfold raw.
    rewrite undropped_cols, !map_map. reflexivity.
  - now apply dropna_all_well_formed.
  - lia.
  - lia.
  - intros i Hi. now apply dropna_all_rows_valid.
Qed.


(** ** Pseudo-prices *)

Lemma length_cumprod_from acc c : length (cumprod_from acc c) = length c.
Proof.
  revert acc. induction c as [|x c IH]; intros acc; [reflexivity|].
  cbn [cumprod_from]. destruct (isnan x); cbn [length]; now rewrite IH.
Qed.

Lemma iloc0_set_some v df d ds :
  index df = d :: ds ->
  iloc0_set v df =
  ok (mkDF (index df)
           (map (fun c => (fst c, match snd c with
                                  | [] => []
                                  | _ :: rest => v :: rest
                                  end)) (cols df))).
Proof. intros H. unfold iloc0_set. now rewrite H. Qed.

Lemma prices_from_returns_cols lg returns d ds :
  index returns = d :: ds ->
  prices_from_returns returns lg =
  ok (mkDF (index returns)
           (map (fun c =>
                   (fst c,
                    cumprod_col
                      (match map (if lg then fexp else fadd (Num 1)) (snd c) with
                       | [] => []
                       | _ :: rest => Num 1 :: rest
                       end)))
                (cols returns))).
Proof.
  intros H. unfold prices_from_returns.
  assert (Hret : (if lg then map_frame fexp returns
                  else map_frame (fadd (Num 1)) returns) =
                 map_frame (if lg then fexp else fadd (Num 1)) returns)
    by now destruct lg.
  rewrite Hret.
  rewrite (iloc0_set_some (Num 1) (map_frame (if lg then fexp else fadd (Num 1)) returns) d ds H).
  cbn [rbind ok index cols map_frame]. rewrite !map_map.
  unfold cumprod. cbn [index cols fst snd]. now rewrite map_map.
Qed.

(** X4.  [prices_from_returns] raises an [IndexError] on a table without
    rows.  On a well-formed table with at least one row it succeeds,
    keeps the row labels and the columns, and its first row is 1 in
    every column, whatever the first row of returns held. *)
Theorem prices_from_returns_anchor (returns : DataFrame) (log_returns : bool) :
  (index returns = [] ->
   exists msg, prices_from_returns returns log_returns = raise "IndexError" msg)
  /\
  (index returns <> [] ->
   well_formed returns ->
   exists q,
     prices_from_returns returns log_returns = ok q /\
     index q = index returns /\
     columns q = columns returns /\
     well_formed q /\
     forall j, (j < length (cols returns))%nat ->
               lookup_cell q j 0 = Some (Num 1)).
Proof.
  split.
  - intros H. unfold prices_from_returns, iloc0_set.
    destruct log_returns; cbn [map_frame index]; rewrite H; eexists; reflexivity.
  - intros Hne Hwf. destruct (index returns) as [|d ds] eqn:Ei; [contradiction|].
    rewrite (prices_from_returns_cols log_returns returns d ds Ei).
    eexists. split; [reflexivity|]. cbn [index cols]. split; [exact Ei|].
    split; [|split].
    + unfold columns. cbn [cols]. now rewrite map_map.
    + unfold well_formed, nrows in *. cbn [cols index].
      rewrite List.Forall_map. eapply Forall_impl; [exact Hwf|].
      intros c Hc. cbn beta in Hc. cbn [snd]. unfold cumprod_col.
      rewrite length_cumprod_from, Ei in *.
      destruct (snd c) as [|x c']; [discriminate|].
      cbn [map length] in *. now rewrite length_map.
    + intros j Hj. unfold lookup_cell. cbn [cols].
      rewrite nth_error_map.
      destruct (nth_error (cols returns) j) as [c|] eqn:Ec.
      2:{ apply nth_error_None in Ec. lia. }
      cbn [option_map snd].
      assert (Hc : length (snd c) = S (length ds)).
      { unfold well_formed, nrows in Hwf. rewrite List.Forall_forall in Hwf.
        rewrite (Hwf c), Ei; [reflexivity|]. eapply nth_error_In. exact Ec. }
      destruct (snd c) as [|x c']; [discriminate|].
      cbn [map]. unfold cumprod_col. cbn [cumprod_from isnan fmul nth_error].
      do 2 f_equal. ring.
Qed.

(** The intended use: returns that still carry their leading row. *)
Lemma undropped_pseudo_prices (lg : bool) p0 ps :
  Forall (fun p => 0 < p) (p0 :: ps) ->
  cumprod_col
    (match map (if lg then fexp else fadd (Num 1))
               (if lg
                then map flog (map (fadd (Num 1)) (pct_change_col (map Num (p0 :: ps))))
                else pct_change_col (map Num (p0 :: ps))) with
     | [] => []
     | _ :: rest => Num 1 :: rest
     end) =
  map Num (map (fun p => p / p0) (p0 :: ps)).
Proof.
  intros Hpos. rewrite (returns_col_shape lg p0 ps Hpos). cbn [map].
  rewrite (gross_returns_col lg p0 ps Hpos).
  inversion Hpos as [|? ? Hp0 Hps]; subst.
  unfold cumprod_col. cbn [cumprod_from isnan fmul].
  replace (1 * 1) with (p0 / p0) by (field; lra).
  f_equal. now apply cumprod_from_ratios.
Qed.

(** X5.  Given the returns of a price table with the leading, missing
    row still in place (what [prices.pct_change()] yields), under either
    convention, [prices_from_returns] gives back every price over the
    first price of its column, on the dates of the price table. *)
Theorem prices_from_undropped_returns (df : DataFrame) (log_returns : bool) :
  well_formed df ->
  (1 <= nrows df)%nat ->
  positive_prices df ->
  exists q,
    prices_from_returns (undropped_returns log_returns df) log_returns = ok q /\
    index q = index df /\
    columns q = columns df /\
    forall j t p p0,
      lookup_cell df j t = Some (Num p) ->
      lookup_cell df j 0 = Some (Num p0) ->
      lookup_cell q j t = Some (Num (p / p0)).
Proof.
  intros Hwf Hn Hpos. unfold nrows in Hn.
  destruct (index df) as [|d ds] eqn:Ei; [simpl in Hn; lia|].
  rewrite (prices_from_returns_cols log_returns _ d ds)
    by (now rewrite undropped_index).
  eexists. split; [reflexivity|]. cbn [index cols].
  rewrite undropped_index, undropped_cols, map_map. cbn [fst snd].
  split; [exact Ei|]. split.
  - unfold columns. cbn [cols]. now rewrite map_map.
  - intros j t p p0. unfold lookup_cell. cbn [cols]. rewrite nth_error_map.
    destruct (nth_error (cols df) j) as [c|] eqn:Ec; [|discriminate].
    cbn [option_map snd].
    assert (Hin : In c (cols df)) by (eapply nth_error_In; exact Ec).
    unfold positive_prices, well_formed, nrows in *.
    rewrite List.Forall_forall in Hpos, Hwf.
    destruct (positive_col_repr _ (Hpos c Hin)) as (ps & Hc & Hps).
    pose proof (Hwf c Hin) as Hlen. rewrite Hc, length_map, Ei in Hlen.
    destruct ps as [|q0 ps]; [discriminate|].
    rewrite Hc, (undropped_pseudo_prices log_returns q0 ps Hps).
    intros E1 E2. apply nth_error_map_Num in E1, E2.
    cbn [nth_error] in E2. injection E2 as ->.
    rewrite nth_error_map, (nth_error_map (fun p => p / p0)), E1. reflexivity.
Qed.

(** ** From returns to pseudo-prices and back *)

Lemma map_Num_inj l1 l2 : map Num l1 = map Num l2 -> l1 = l2.
Proof.
  revert l2. induction l1 as [|x l1 IH]; intros [|y l2]; try discriminate;
    [reflexivity|]. cbn [map]. intros [= -> H]. f_equal. now apply IH.
Qed.

Lemma cumprod_from_running a gs :
  cumprod_from (Num a) (map Num gs) = map Num (running_product a gs).
Proof.
  revert a. induction gs as [|g gs IH]; intros a; [reflexivity|].
  cbn [map cumprod_from isnan fmul running_product]. now rewrite IH.
Qed.

Lemma running_product_pos a gs :
  0 < a -> Forall (fun g => 0 < g) gs ->
  Forall (fun p => 0 < p) (running_product a gs).
Proof.
  intros Ha Hgs. revert a Ha. induction Hgs as [|g gs Hg _ IH]; intros a Ha;
    cbn [running_product]; constructor.
  - now apply Rmult_lt_0_compat.
  - apply IH. now apply Rmult_lt_0_compat.
Qed.

Lemma length_running_product a gs : length (running_product a gs) = length gs.
Proof.
  revert a. induction gs as [|g gs IH]; intros a; simpl; [reflexivity|].
  now rewrite IH.
Qed.

Lemma gross_pos (lg : bool) rs :
  (lg = false -> Forall (fun r => -1 < r) rs) ->
  Forall (fun g => 0 < g) (map (gross lg) rs).
Proof.
  intros H. rewrite List.Forall_map. destruct lg.
  - apply List.Forall_forall. intros r _. apply exp_pos.
  - eapply Forall_impl; [exact (H eq_refl)|]. intros r Hr. unfold gross. lra.
Qed.

Lemma returns_of_running (lg : bool) a rs :
  0 < a ->
  (lg = false -> Forall (fun r => -1 < r) rs) ->
  zip_with (fun p q => if lg then ln (p / q) else p / q - 1)
           (running_product a (map (gross lg) rs))
           (a :: running_product a (map (gross lg) rs)) = rs.
Proof.
  intros Ha Hrs. revert a Ha. induction rs as [|r rs IH]; intros a Ha;
    [reflexivity|].
  assert (Hg : 0 < gross lg r).
  { pose proof (gross_pos lg (r :: rs) Hrs) as H. now inversion H. }
  cbn [map running_product zip_with]. f_equal.
  - unfold gross. destruct lg.
    + replace (a * exp r / a) with (exp r) by (field; lra). apply ln_exp.
    + field. lra.
  - apply IH.
    + intros E. specialize (Hrs E). now inversion Hrs.
    + now apply Rmult_lt_0_compat.
Qed.

Lemma pseudo_price_col (lg : bool) v rs :
  cumprod_col
    (match map (if lg then fexp else fadd (Num 1)) (v :: map Num rs) with
     | [] => []
     | _ :: rest => Num 1 :: rest
     end) =
  map Num (1 * 1 :: running_product (1 * 1) (map (gross lg) rs)).
Proof.
  cbn [map]. unfold cumprod_col. cbn [cumprod_from isnan fmul]. f_equal.
  rewrite <- cumprod_from_running. f_equal. rewrite !map_map.
  apply map_ext. intros r. unfold gross. now destruct lg.
Qed.

(** X6.  The other round trip.  From a table of returns whose rows after
    the first are finite (and above -1 for percentage returns),
    [prices_from_returns] followed by [returns_from_prices], under one
    convention, gives the returns back from the second row on; the first
    row, which [prices_from_returns] overwrites, is gone. *)
Theorem returns_prices_returns (returns : DataFrame) (log_returns : bool) :
  well_formed returns ->
  cols returns <> [] ->
  Forall (fun c => returns_col log_returns (snd c)) (cols returns) ->
  exists q r,
    prices_from_returns returns log_returns = ok q /\
    returns_from_prices (Pandas q) log_returns false = ok (Pandas r) /\
    index r = tl (index returns) /\
    columns r = columns returns /\
    forall j t x,
      lookup_cell returns j (S t) = Some (Num x) ->
      lookup_cell r j t = Some (Num x).
Proof.
  intros Hwf Hne Hcols.
  assert (Hidx : exists d ds, index returns = d :: ds).
  { destruct (cols returns) as [|c cs] eqn:Ec; [contradiction|].
    inversion Hcols as [|? ? (v & rs & Hc & _) _]; subst.
    unfold well_formed, nrows in Hwf. rewrite Ec in Hwf.
    inversion Hwf as [|? ? Hl _]; subst. rewrite Hc in Hl.
    destruct (index returns) as [|d ds]; [discriminate|]. now exists d, ds. }
  destruct Hidx as (d & ds & Ei).
  rewrite (prices_from_returns_cols log_returns returns d ds Ei).
  set (F := fun c : string * list float =>
              (fst c,
               cumprod_col
                 match map (if log_returns then fexp else fadd (Num 1)) (snd c) with
                 | [] => []
                 | _ :: rest => Num 1 :: rest
                 end)).
  set (q := mkDF (index returns) (map F (cols returns))).
  assert (HF : Forall (fun c => exists rs,
                 (log_returns = false -> Forall (fun r => -1 < r) rs) /\
                 length rs = length ds /\
                 (exists v, snd c = v :: map Num rs) /\
                 snd (F c) =
                 map Num (1 * 1 :: running_product (1 * 1)
                                     (map (gross log_returns) rs)))
              (cols returns)).
  { unfold well_formed, nrows in Hwf. rewrite List.Forall_forall in *.
    intros c Hc. destruct (Hcols c Hc) as (v & rs & Hv & Hrs).
    exists rs. split; [exact Hrs|]. split.
    - specialize (Hwf c Hc). rewrite Hv, Ei in Hwf. cbn [length] in Hwf.
      rewrite length_map in Hwf. lia.
    - split; [now exists v|]. unfold F. cbn [snd]. rewrite Hv.
      apply pseudo_price_col. }
  assert (Hq_wf : well_formed q).
  { unfold well_formed, nrows, q. cbn [cols index]. rewrite List.Forall_map.
    eapply Forall_impl; [exact HF|]. intros c (rs & _ & Hl & _ & Hs).
    rewrite Hs, length_map, Ei. cbn [length].
    now rewrite length_running_product, length_map, Hl. }
  assert (Hq_pos : positive_prices q).
  { unfold positive_prices, q. cbn [cols]. rewrite List.Forall_map.
    eapply Forall_impl; [exact HF|]. intros c (rs & Hrs & _ & _ & Hs).
    rewrite Hs. unfold positive_col. rewrite List.Forall_map.
    assert (Hp : Forall (fun p => 0 < p)
                   (1 * 1 :: running_product (1 * 1) (map (gross log_returns) rs))).
    { constructor; [lra|]. apply running_product_pos; [lra|]. now apply gross_pos. }
    eapply Forall_impl; [exact Hp|]. intros p Hp'. now exists p. }
  assert (Hq_ne : cols q <> []).
  { unfold q. cbn [cols]. destruct (cols returns); [contradiction|discriminate]. }
  assert (Hq_n : nrows q = S (length ds)) by (unfold nrows, q; cbn [index]; now rewrite Ei).
  destruct (returns_frame_shape log_returns q (length ds) Hq_wf Hq_n Hq_ne Hq_pos)
    as [Hshape Hri].
  cbv zeta in Hshape, Hri. fold (undropped_returns log_returns q) in Hshape, Hri.
  exists q, (dropna_all (undropped_returns log_returns q)).
  split; [reflexivity|]. split; [apply returns_from_prices_pandas|].
  split; [exact Hri|]. split.
  - unfold columns. rewrite (Forall2_map_fst _ _ _ Hshape). unfold q. cbn [cols].
    now rewrite map_map.
  - intros j t x. unfold lookup_cell.
    destruct (nth_error (cols returns) j) as [c|] eqn:Ec; [|discriminate].
    assert (Hqc : nth_error (cols q) j = Some (F c))
      by (unfold q; cbn [cols]; now rewrite nth_error_map, Ec).
    destruct (Forall2_nth_error_l _ _ _ _ _ Hshape Hqc)
      as (c' & -> & _ & p0 & ps & Hsnd & _ & _ & Hsnd').
    rewrite List.Forall_forall in HF.
    destruct (HF c (nth_error_In _ _ Ec)) as (rs & Hrs & _ & (v & Hv) & Hs).
    rewrite Hs in Hsnd. apply map_Num_inj in Hsnd. injection Hsnd as <- <-.
    rewrite Hsnd', Hv, returns_of_running by (auto; lra).
    cbn [nth_error]. trivial.
Qed.

(** ** Returns do not depend on the unit of the prices *)

Lemma frame_eq (a b : DataFrame) :
  index a = index b -> cols a = cols b -> a = b.
Proof. destruct a, b. cbn. now intros -> ->. Qed.

Lemma scaled_returns (lg : bool) k p0 ps :
  0 < k -> Forall (fun p => 0 < p) (p0 :: ps) ->
  zip_with (fun p q => if lg then ln (p / q) else p / q - 1)
           (map (Rmult k) ps) (k * p0 :: map (Rmult k) ps) =
  zip_with (fun p q => if lg then ln (p / q) else p / q - 1) ps (p0 :: ps).
Proof.
  intros Hk Hpos. revert p0 Hpos. induction ps as [|p ps IH]; intros p0 Hpos;
    [reflexivity|].
  inversion Hpos as [|? ? Hp0 Hrest]; subst.
  inversion Hrest as [|? ? Hp _]; subst.
  cbn [map zip_with]. rewrite (IH p Hrest). f_equal.
  replace (k * p / (k * p0)) with (p / p0) by (field; lra). reflexivity.
Qed.

Lemma scaled_shape_unique (lg : bool) k m l l1 l2 :
  0 < k ->
  Forall2 (returns_shape lg m) l l1 ->
  Forall2 (returns_shape lg m)
          (map (fun c => (fst c, map (fmul (Num k)) (snd c))) l) l2 ->
  l2 = l1.
Proof.
  intros Hk H1. revert l2. induction H1 as [|c r l l1 Hc _ IH]; intros l2 H2.
  - now inversion H2.
  - cbn [map] in H2. inversion H2 as [|c' r' l' l2' Hc' H2']; subst.
    f_equal; [|now apply IH].
    destruct Hc as (Hf & p0 & ps & Hs & _ & Hpos & Hr).
    destruct Hc' as (Hf' & p0' & ps' & Hs' & _ & _ & Hr').
    cbn [fst snd] in Hf', Hs'. rewrite Hs in Hs'.
    assert (Hm : map (fmul (Num k)) (map Num (p0 :: ps)) =
                 map Num (map (Rmult k) (p0 :: ps)))
      by (rewrite !map_map; reflexivity).
    rewrite Hm in Hs'. apply map_Num_inj in Hs'. cbn [map] in Hs'.
    injection Hs' as <- <-.
    rewrite (scaled_returns lg k p0 ps Hk Hpos) in Hr'.
    destruct r as [n1 v1], r' as [n2 v2]. cbn [fst snd] in *. congruence.
Qed.

(** X7.  Returns do not depend on the unit of the prices: multiplying
    every price of a table of finite prices above zero by one factor
    [k > 0] leaves the result of [returns_from_prices] unchanged, under
    both conventions. *)
Theorem returns_scale_invariant (df : DataFrame) (k : R) (log_returns : bool) :
  well_formed df ->
  positive_prices df ->
  0 < k ->
  returns_from_prices (Pandas (scale_prices k df)) log_returns false =
  returns_from_prices (Pandas df) log_returns false.
Proof.
  intros Hwf Hpos Hk. rewrite !returns_from_prices_pandas. do 2 f_equal.
  set (sdf := scale_prices k df).
  assert (Hcols : cols sdf = map (fun c => (fst c, map (fmul (Num k)) (snd c))) (cols df))
    by reflexivity.
  assert (Hidx : index sdf = index df) by reflexivity.
  destruct (nrows df) as [|m] eqn:En.
  - (* no rows: nothing to scale *)
    assert (Hsame : sdf = df).
    { apply frame_eq; [exact Hidx|]. rewrite Hcols.
      transitivity (map (fun c : string * list float => c) (cols df));
        [|apply List.map_id].
      apply map_ext_Forall.
      eapply Forall_impl; [exact Hwf|]. intros [n c] Hc. cbn [fst snd] in *.
      rewrite En in Hc. apply length_zero_iff_nil in Hc. now subst c. }
    now rewrite Hsame.
  - assert (Hdec : cols df = [] \/ cols df <> [])
      by (destruct (cols df); [now left | now right]).
    destruct Hdec as [Ec|Hne].
    { assert (Hsame : sdf = df)
        by (apply frame_eq; [exact Hidx | now rewrite Hcols, Ec]).
      now rewrite Hsame. }
    assert (Hswf : well_formed sdf).
    { unfold well_formed, nrows. rewrite Hcols, Hidx, List.Forall_map.
      eapply Forall_impl; [exact Hwf|]. intros c Hc.
      cbn [snd]. now rewrite length_map. }
    assert (Hspos : positive_prices sdf).
    { unfold positive_prices. rewrite Hcols, List.Forall_map.
      eapply Forall_impl; [exact Hpos|]. intros c Hc. cbn [snd].
      unfold positive_col in *. rewrite List.Forall_map.
      eapply Forall_impl; [exact Hc|]. intros v (x & -> & Hx).
      exists (k * x). split; [reflexivity|]. now apply Rmult_lt_0_compat. }
    assert (Hsn : nrows sdf = S m) by (unfold nrows; now rewrite Hidx).
    assert (Hsne : cols sdf <> []).
    { rewrite Hcols. destruct (cols df); [contradiction | discriminate]. }
    destruct (returns_frame_shape log_returns df m Hwf En Hne Hpos) as [H1 I1].
    destruct (returns_frame_shape log_returns sdf m Hswf Hsn Hsne Hspos) as [H2 I2].
    cbv zeta in H1, I1, H2, I2.
    fold (undropped_returns log_returns df) in H1, I1.
    fold (undropped_returns log_returns sdf) in H2, I2.
    apply frame_eq.
    + now rewrite I1, I2, Hidx.
    + rewrite Hcols in H2.
      exact (scaled_shape_unique log_returns k m _ _ _ Hk H1 H2).
Qed.

(** ** The historical mean on every table *)

Lemma fpow_one_at_infinity frequency :
  fpow (Num 1) (fdiv (Num frequency) (Num (INR 0))) = Num 1.
Proof.
  cbn [INR fdiv]. rewrite Reqb_true by reflexivity. unfold inf_of_sign.
  destruct (Rltb 0 frequency); [|destruct (Rltb frequency 0)]; cbn [fpow];
    rewrite ?Rabs_R1, ?Rltb_false, ?Reqb_true by lra; reflexivity.
Qed.

(** The value an asset without any valid return gets. *)
Lemma no_observation_value (compounding : bool) frequency c :
  col_count c = 0%nat ->
  (if compounding
   then fsub (fpow (col_prod (map (fadd (Num 1)) c))
                   (fdiv (Num frequency) (Num (INR (col_count c)))))
             (Num 1)
   else fmul (col_mean c) (Num frequency))
  = if compounding then Num 0 else NaN.
Proof.
  intros H0. destruct compounding.
  - rewrite H0.
    unfold col_count in H0. apply length_zero_iff_nil in H0.
    unfold col_prod. rewrite valid_gross, H0. cbn [map fold_right].
    rewrite (fpow_one_at_infinity frequency). cbn [fsub fneg fadd].
    f_equal. lra.
  - unfold col_mean, col_sum. rewrite H0.
    unfold col_count in H0. apply length_zero_iff_nil in H0. rewrite H0.
    cbn [fold_right INR fdiv]. rewrite Reqb_true by reflexivity.
    unfold inf_of_sign. rewrite !Rltb_false by lra. reflexivity.
Qed.

(** X8.  [mean_historical_return] never raises on a table of the
    caller: it returns one value per column, in the order of the
    columns.  An asset without a single valid return gets 0 when
    compounding and NaN otherwise; so does every asset of a price table
    that has at most one row. *)
Theorem mean_historical_return_total (s : store) (l : loc) (df : DataFrame)
    (returns_data compounding : bool) (frequency : R) :
  s !! l = Some df ->
  let r := if returns_data then df else dropna_all (undropped_returns false df) in
  exists out s',
    mean_historical_return l returns_data compounding frequency s = (ok out, s') /\
    map fst out = columns df /\
    (forall j name c,
       nth_error (cols r) j = Some (name, c) ->
       col_count c = 0%nat ->
       nth_error out j = Some (name, if compounding then Num 0 else NaN)) /\
    (returns_data = false -> well_formed df -> (nrows df <= 1)%nat ->
     out = map (fun n => (n, if compounding then Num 0 else NaN)) (columns df)).
Proof.
  intros H r.
  rewrite (mean_historical_return_run s l df returns_data compounding frequency H).
  change (pct_change df) with (undropped_returns false df).
  fold r. eexists _, _. split; [reflexivity|].
  assert (Hcols : columns r = columns df).
  { unfold r, columns. destruct returns_data; [reflexivity|].
    unfold dropna_all. cbn [cols]. now rewrite undropped_cols, !map_map. }
  split; [|split].
  - rewrite map_map. cbn [fst]. exact Hcols.
  - intros j name c Hj H0. rewrite nth_error_map, Hj. cbn [option_map fst snd].
    now rewrite no_observation_value.
  - intros -> Hwf Hn. rewrite <- Hcols. unfold columns.
    rewrite map_map. apply map_ext_Forall.
    destruct (returns_from_prices_shape_rows df Hwf) as [Hrwf Hrn].
    fold r in Hrwf, Hrn.
    eapply Forall_impl; [exact Hrwf|]. intros c Hc. cbn beta in Hc.
    f_equal. apply no_observation_value.
    unfold col_count.
    pose proof (filter_length_le notna (snd c)) as Hle. unfold valid. lia.
Qed.

(** ** Failures of the exponentially weighted estimator *)

(** X9.  [ema_historical_return] fails in exactly two ways on a table of
    the caller: with a ValueError when the span is below 1 (whatever the
    table), and with an IndexError when the span is valid but the returns
    have no row, as for a price table with at most one row.  Otherwise it
    returns one value per column, in the order of the columns. *)
Theorem ema_historical_return_failures (s : store) (l : loc) (df : DataFrame)
    (returns_data compounding : bool) (span frequency : R) :
  s !! l = Some df ->
  let r := if returns_data then df else dropna_all (pct_change df) in
  let run := ema_historical_return l returns_data compounding span frequency s in
  (span < 1 -> exists msg, fst run = raise "ValueError" msg) /\
  (1 <= span -> nrows r = 0%nat -> exists msg, fst run = raise "IndexError" msg) /\
  (1 <= span -> returns_data = false -> well_formed df -> (nrows df <= 1)%nat ->
   exists msg, fst run = raise "IndexError" msg) /\
  (1 <= span -> nrows r <> 0%nat ->
   exists out, fst run = ok out /\ map fst out = columns df).
Proof.
  intros H r run.
  assert (Hcols : columns r = columns df).
  { unfold r, columns. destruct returns_data; [reflexivity|].
    unfold dropna_all. cbn [cols].
    change (pct_change df) with (undropped_returns false df).
    now rewrite undropped_cols, !map_map. }
  assert (Hempty : 1 <= span -> nrows r = 0%nat ->
                   exists msg, fst run = raise "IndexError" msg).
  { intros Hs Hn. unfold run, ema_historical_return. mstep.
    destruct returns_data.
    - rewrite (load_some s l df H). mstep.
      destruct compounding; rewrite ewm_mean_ok by assumption; mstep;
        unfold iloc_last, nrows in *; cbn [index]; fold r; rewrite Hn;
        eexists; reflexivity.
    - rewrite (returns_of_spec s l df H). mstep. rewrite load_after_alloc. mstep.
      destruct compounding; rewrite ewm_mean_ok by assumption; mstep;
        unfold iloc_last, nrows in *; cbn [index]; fold r; rewrite Hn;
        eexists; reflexivity. }
  split; [|split; [|split]].
  - intros Hs. unfold run, ema_historical_return. mstep.
    destruct returns_data.
    + rewrite (load_some s l df H). mstep.
      destruct compounding; unfold ewm_mean; rewrite Rltb_true by assumption;
        eexists; reflexivity.
    + rewrite (returns_of_spec s l df H). mstep. rewrite load_after_alloc. mstep.
      destruct compounding; unfold ewm_mean; rewrite Rltb_true by assumption;
        eexists; reflexivity.
  - exact Hempty.
  - intros Hs -> Hwf Hn. apply Hempty; [assumption|].
    destruct (returns_from_prices_shape_rows df Hwf) as [_ Hrn].
    change (undropped_returns false df) with (pct_change df) in Hrn.
    unfold r. lia.
  - intros Hs Hn. destruct (nrows r) as [|n] eqn:En; [congruence|].
    unfold run.
    rewrite (ema_historical_return_run s l df returns_data compounding
               span frequency n H Hs En).
    eexists. split; [reflexivity|]. rewrite map_map. exact Hcols.
Qed.

(** ** The exponentially weighted average as a weighted average *)

(** X10.  On a returns table, for an asset whose returns [xs] are all
    finite, the value [ema_historical_return] annualises is a weighted
    average of those returns: it lies between any bounds [lo] and [hi]
    of the returns, and with a span of exactly 1 it is the most recent
    return.  Without compounding the asset gets that value times the
    frequency; with compounding, returns above -1 and a non-zero
    frequency it gets [(1 + v)^frequency - 1]. *)
Theorem ema_historical_return_weighted_average (s : store) (l : loc)
    (df : DataFrame) (span frequency : R) (n j : nat) (name : label)
    (xs : list R) (lo hi : R) :
  s !! l = Some df ->
  1 <= span ->
  nrows df = S n ->
  nth_error (cols df) j = Some (name, map Num xs) ->
  length xs = S n ->
  Forall (fun x => lo <= x <= hi) xs ->
  exists v arithmetic compounded,
    lo <= v <= hi /\
    (span = 1 -> v = List.last xs 0) /\
    fst (ema_historical_return l true false span frequency s) = ok arithmetic /\
    nth_error arithmetic j = Some (name, Num (v * frequency)) /\
    fst (ema_historical_return l true true span frequency s) = ok compounded /\
    (-1 < lo -> frequency <> 0 ->
     nth_error compounded j = Some (name, Num (Rpower (1 + v) frequency - 1))).
Proof.
  intros H Hspan Hn Hj Hlen Hxs.
  assert (Hne : xs <> []) by (destruct xs; [discriminate|congruence]).
  exists (ewma (1 - alpha_of_span span) xs). eexists _, _.
  pose proof (ewma_bounds _ lo hi xs (decay_nonneg span Hspan) Hne Hxs) as Hb.
  split; [exact Hb|]. split.
  { intros ->. replace (1 - alpha_of_span 1) with 0
      by (unfold alpha_of_span; field).
    now apply ewma_most_recent. }
  rewrite !(ema_historical_return_run s l df true _ span frequency n H Hspan Hn).
  cbn [fst]. split; [reflexivity|]. split; [|split; [reflexivity|]].
  - rewrite nth_error_map, Hj. cbn [option_map fst snd].
    now rewrite ewm_last_closed.
  - intros Hlo Hf. rewrite nth_error_map, Hj. cbn [option_map fst snd].
    rewrite ewm_last_closed by assumption. cbn [fadd].
    rewrite fpow_pos by lra. reflexivity.
Qed.

(** ** Constant returns *)

Lemma prod_gross_repeat r m :
  fold_right Rmult 1 (map (fun x => 1 + x) (repeat r m)) = (1 + r) ^ m.
Proof. induction m as [|m IH]; [reflexivity|]. cbn [repeat map fold_right pow]. now rewrite IH. Qed.

Lemma sum_repeat r m : fold_right Rplus 0 (repeat r m) = INR m * r.
Proof.
  induction m as [|m IH]; [simpl; ring|].
  cbn [repeat fold_right]. rewrite IH, S_INR. ring.
Qed.

Lemma constant_mean_value (compounding : bool) frequency r m :
  -1 < r ->
  let c := map Num (repeat r (S m)) in
  (if compounding
   then fsub (fpow (col_prod (map (fadd (Num 1)) c))
                   (fdiv (Num frequency) (Num (INR (col_count c)))))
             (Num 1)
   else fmul (col_mean c) (Num frequency))
  = Num (if compounding then Rpower (1 + r) frequency - 1 else r * frequency).
Proof.
  intros Hr c. unfold c.
  assert (Hm : INR (S m) <> 0) by (apply not_0_INR; discriminate).
  destruct compounding.
  - rewrite col_prod_gross_nums, col_count_nums, repeat_length, prod_gross_repeat.
    rewrite fdiv_num by assumption.
    destruct (Req_dec_T frequency 0) as [->|Hf].
    + unfold fpow. rewrite Reqb_true by (unfold Rdiv; ring).
      rewrite Rpower_O by lra. reflexivity.
    + rewrite fpow_pos.
      * rewrite <- Rpower_pow, Rpower_mult by lra.
        replace (INR (S m) * (frequency / INR (S m))) with frequency
          by (field; assumption).
        reflexivity.
      * apply pow_lt. lra.
      * intros H0. apply Hf.
        replace frequency with (frequency / INR (S m) * INR (S m))
          by (field; assumption).
        rewrite H0. ring.
  - rewrite col_mean_nums by discriminate. unfold mean_reals.
    rewrite sum_repeat, repeat_length. cbn [fmul]. f_equal. field. assumption.
Qed.

Lemma constant_ema_value span r m :
  1 <= span ->
  cell (ewm_mean_col span (map Num (repeat r (S m)))) m = Num r.
Proof.
  intros Hspan. rewrite ewm_last_closed by (rewrite ?repeat_length; auto).
  f_equal.
  assert (Hb : r <= ewma (1 - alpha_of_span span) (repeat r (S m)) <= r).
  { apply ewma_bounds; [now apply decay_nonneg|discriminate|].
    apply List.Forall_forall. intros x Hx. apply repeat_spec in Hx. lra. }
  lra.
Qed.

(** X11.  On a returns table in which every asset has the same return
    (above -1) in every period, the exponentially weighted estimator
    agrees with the historical mean for every span of at least 1, both
    with and without compounding: each asset gets
    [(1 + r)^frequency - 1], respectively [r * frequency]. *)
Theorem estimators_agree_on_constant_returns (s : store) (l : loc)
    (idx : list Z) (assets : list (label * R))
    (compounding : bool) (span frequency : R) :
  s !! l = Some (constant_returns idx assets) ->
  idx <> [] ->
  1 <= span ->
  Forall (fun a => -1 < snd a) assets ->
  let out :=
    map (fun a => (fst a,
                   Num (if compounding then Rpower (1 + snd a) frequency - 1
                        else snd a * frequency))) assets in
  fst (mean_historical_return l true compounding frequency s) = ok out /\
  fst (ema_historical_return l true compounding span frequency s) = ok out.
Proof.
  intros H Hidx Hspan Hr out.
  destruct idx as [|d ds]; [contradiction|].
  rewrite (mean_historical_return_run s l _ true compounding frequency H).
  rewrite (ema_historical_return_run s l _ true compounding span frequency
             (length ds) H Hspan eq_refl).
  cbn [fst]. unfold constant_returns, out. cbn [cols length].
  rewrite !map_map. cbn [fst snd].
  split; f_equal; apply map_ext_Forall;
    (eapply Forall_impl; [exact Hr|]); intros a Ha; cbn beta in Ha; f_equal.
  - now apply constant_mean_value.
  - rewrite constant_ema_value by assumption. cbn [fadd].
    destruct compounding; [|reflexivity].
    destruct (Req_dec_T frequency 0) as [->|Hf].
    + unfold fpow. rewrite Reqb_true by reflexivity.
      rewrite Rpower_O by lra. reflexivity.
    + rewrite fpow_pos by lra. reflexivity.
Qed.

(** ** Market tables [capm_return] refuses *)

Lemma mbind_error {A B} (m : M A) (k : A -> M B) (s s' : store) e :
  m s = (inl e, s') -> mbind m k s = (inl e, s').
Proof. intros H. unfold mbind. now rewrite H. Qed.

Lemma join_left_overlap r m :
  columns m = ["mkt"] ->
  "mkt" ∈ columns r ->
  join_left r m = raise "ValueError" "columns overlap but no suffix specified".
Proof.
  intros Hm Hr. unfold join_left. rewrite Hm.
  rewrite bool_decide_eq_true_2; [reflexivity|].
  apply Exists_cons_hd. exact Hr.
Qed.

Lemma set_columns_mismatch m :
  length (cols m) <> 1%nat ->
  set_columns ["mkt"] m = raise "ValueError" "Length mismatch".
Proof.
  intros Hl. unfold set_columns.
  destruct (decide (length ["mkt"] = length (cols m))) as [E|_]; [|reflexivity].
  exfalso. apply Hl. now rewrite <- E.
Qed.

Lemma capm_market_frame_rejects (s : store) prices mp df mdf (returns_data : bool) :
  s !! prices = Some df ->
  s !! mp = Some mdf ->
  (length (cols mdf) <> 1%nat ->
   exists s', capm_market_frame prices (Some mp) returns_data s =
              (raise "ValueError" "Length mismatch", s')) /\
  (length (cols mdf) = 1%nat ->
   "mkt" ∈ columns df \/ (returns_data = true /\ mp = prices) ->
   exists s', capm_market_frame prices (Some mp) returns_data s =
              (raise "ValueError" "columns overlap but no suffix specified", s')).
Proof.
  intros Hp Hm.
  set (r := if returns_data then df else dropna_all (pct_change df)).
  set (m := if returns_data then mdf else dropna_all (pct_change mdf)).
  assert (Hlm : length (cols m) = length (cols mdf)).
  { unfold m. destruct returns_data; [reflexivity|].
    unfold dropna_all, pct_change. cbn [cols]. now rewrite !length_map. }
  assert (Hcr : columns r = columns df).
  { unfold r. destruct returns_data; [reflexivity|]. apply columns_returns. }
  split.
  - intros Hl. rewrite <- Hlm in Hl.
    pose proof (set_columns_mismatch m Hl) as Hset.
    unfold capm_market_frame. mstep. destruct returns_data.
    + mstep. rewrite (load_some s mp mdf Hm). mstep. fold m. rewrite Hset.
      eexists. reflexivity.
    + rewrite (returns_of_spec s prices df Hp). mstep.
      rewrite (returns_of_spec _ mp mdf (insert_fresh_preserves s _ mp mdf Hm)).
      mstep. rewrite load_after_alloc. mstep. fold m. rewrite Hset.
      eexists. reflexivity.
  - intros Hl Hover. rewrite <- Hlm in Hl.
    destruct (set_columns_single m Hl) as (c & Hc & Hset).
    unfold capm_market_frame. mstep. destruct returns_data.
    + mstep. rewrite (load_some s mp mdf Hm). mstep. fold m. rewrite Hset.
      mstep. unfold update. mstep.
      destruct (decide (mp = prices)) as [->|Hne].
      * rewrite (load_some _ prices _ (lookup_insert_eq _ _ _)). mstep.
        rewrite (load_some _ prices _ (lookup_insert_eq _ _ _)). mstep.
        rewrite join_left_overlap;
          [eexists; reflexivity | reflexivity | apply list_elem_of_here].
      * erewrite (load_some _ prices df); [|rewrite lookup_insert_ne; auto].
        mstep. rewrite (load_some _ mp _ (lookup_insert_eq _ _ _)). mstep.
        rewrite join_left_overlap; [eexists; reflexivity | reflexivity |].
        destruct Hover as [Hin|[_ E]]; [exact Hin | contradiction].
    + rewrite (returns_of_spec s prices df Hp). mstep.
      set (l1 := fresh (dom s)). fold r. set (s1 := <[l1 := r]> s).
      assert (Hm1 : s1 !! mp = Some mdf)
        by (apply insert_fresh_preserves; exact Hm).
      rewrite (returns_of_spec s1 mp mdf Hm1). mstep.
      rewrite load_after_alloc. mstep.
      fold m. set (l2 := fresh (dom s1)). rewrite Hset. mstep.
      unfold update. mstep.
      assert (Hl12 : l2 <> l1).
      { apply (fresh_loc_ne s1 l1 r). apply lookup_insert_eq. }
      erewrite (load_some _ l1 r);
        [|rewrite !lookup_insert_ne by auto; apply lookup_insert_eq].
      mstep. rewrite (load_some _ l2 _ (lookup_insert_eq _ _ _)). mstep.
      rewrite join_left_overlap; [eexists; reflexivity | reflexivity |].
      rewrite Hcr. destruct Hover as [Hin|[E _]]; [exact Hin | discriminate].
Qed.

(** X12.  [capm_return] refuses two kinds of supplied market table with
    a ValueError: a table that does not have exactly one column (the
    renaming to "mkt" fails), and a one-column table when an asset is
    already called "mkt" or when, with [returns_data], the market table
    is the table of the assets itself (the join finds the column "mkt"
    on both sides). *)
Theorem capm_return_market_rejected (s : store) (prices mp : loc)
    (df mdf : DataFrame) (returns_data : bool) (risk_free_rate : R)
    (compounding : bool) (frequency : R) :
  s !! prices = Some df ->
  s !! mp = Some mdf ->
  let run := capm_return prices (Some mp) returns_data risk_free_rate
                         compounding frequency s in
  (length (cols mdf) <> 1%nat ->
   fst run = raise "ValueError" "Length mismatch") /\
  (length (cols mdf) = 1%nat ->
   "mkt" ∈ columns df \/ (returns_data = true /\ mp = prices) ->
   fst run = raise "ValueError" "columns overlap but no suffix specified").
Proof.
  intros Hp Hm run.
  destruct (capm_market_frame_rejects s prices mp df mdf returns_data Hp Hm)
    as [H1 H2].
  split.
  - intros Hl. destruct (H1 Hl) as [s' Hs']. unfold run.
    rewrite capm_return_phases. now rewrite (mbind_error _ _ _ _ _ Hs').
  - intros Hl Hover. destruct (H2 Hl Hover) as [s' Hs']. unfold run.
    rewrite capm_return_phases. now rewrite (mbind_error _ _ _ _ _ Hs').
Qed.

(** ** The equal-weighted market proxy *)

Lemma sum_map_add {A} (f g : A -> R) l :
  fold_right Rplus 0 (map (fun a => f a + g a) l) =
  fold_right Rplus 0 (map f l) + fold_right Rplus 0 (map g l).
Proof. induction l as [|a l IH]; cbn [map fold_right]; [ring | rewrite IH; ring]. Qed.

Lemma sum_map_scale {A} (f : A -> R) c l :
  fold_right Rplus 0 (map (fun a => f a * c) l) = fold_right Rplus 0 (map f l) * c.
Proof. induction l as [|a l IH]; cbn [map fold_right]; [ring | rewrite IH; ring]. Qed.

Lemma sum_map_zero {A} (l : list A) :
  fold_right Rplus 0 (map (fun _ => 0) l) = 0.
Proof. induction l as [|a l IH]; cbn [map fold_right]; [reflexivity | rewrite IH; ring]. Qed.

Lemma sum_map_swap {A B} (f : A -> B -> R) la lb :
  fold_right Rplus 0 (map (fun a => fold_right Rplus 0 (map (f a) lb)) la) =
  fold_right Rplus 0 (map (fun b => fold_right Rplus 0 (map (fun a => f a b) la)) lb).
Proof.
  induction la as [|a la IH]; cbn [map fold_right].
  - now rewrite sum_map_zero.
  - now rewrite IH, <- sum_map_add.
Qed.

Lemma sum_zip_with_index (f : R -> R -> R) xs ys :
  length ys = length xs ->
  fold_right Rplus 0 (zip_with f xs ys) =
  fold_right Rplus 0
    (map (fun t => f (nth t xs 0) (nth t ys 0)) (seq 0 (length xs))).
Proof.
  revert ys. induction xs as [|x xs IH]; intros [|y ys] Hl; try discriminate.
  - reflexivity.
  - cbn [zip_with length seq map fold_right nth]. f_equal.
    rewrite <- seq_shift, map_map. cbn [nth]. apply IH.
    now injection Hl.
Qed.

(** The sum of cross deviations needs the deviations of one side only. *)
Lemma cross_deviations a b xs ys :
  length ys = length xs ->
  fold_right Rplus 0 (zip_with (fun x y => (x - a) * (y - b)) xs ys) =
  fold_right Rplus 0 (zip_with (fun x y => x * (y - b)) xs ys)
  - a * (fold_right Rplus 0 ys - INR (length ys) * b).
Proof.
  revert ys. induction xs as [|x xs IH]; intros [|y ys] Hl; try discriminate.
  - simpl. ring.
  - cbn [zip_with fold_right]. rewrite IH by now injection Hl.
    change (length (y :: ys)) with (S (length ys)). rewrite S_INR. ring.
Qed.

Lemma cov_reals_index xs ys :
  length ys = length xs -> ys <> [] ->
  cov_reals xs ys =
  fold_right Rplus 0
    (map (fun t => nth t xs 0 * (nth t ys 0 - mean_reals ys)) (seq 0 (length xs)))
  / INR (length xs - 1).
Proof.
  intros Hl Hne. unfold cov_reals. f_equal.
  rewrite cross_deviations by exact Hl.
  rewrite (sum_zip_with_index (fun x y => x * (y - mean_reals ys))) by exact Hl.
  assert (Hn : INR (length ys) <> 0).
  { apply not_0_INR. destruct ys; [contradiction | discriminate]. }
  assert (Hz : fold_right Rplus 0 ys - INR (length ys) * mean_reals ys = 0)
    by (unfold mean_reals; field; exact Hn).
  rewrite Hz. ring.
Qed.

Lemma nth_market_proxy n assets t :
  (t < n)%nat ->
  nth t (market_proxy n assets) 0 =
  mean_reals (map (fun a => nth t (snd a) 0) assets).
Proof.
  intros Ht. unfold market_proxy.
  rewrite (nth_indep _ 0 (mean_reals (map (fun a => nth 0 (snd a) 0) assets)))
    by (now rewrite length_map, length_seq).
  rewrite (map_nth (fun i => mean_reals (map (fun a => nth i (snd a) 0) assets))).
  now rewrite seq_nth.
Qed.

(** The covariances of the assets with the equal-weighted proxy add up
    to as many times the variance of the proxy as there are assets. *)
Lemma proxy_covariances n (assets : list (label * list R)) :
  assets <> [] -> (1 <= n)%nat ->
  Forall (fun a => length (snd a) = n) assets ->
  let ms := market_proxy n assets in
  fold_right Rplus 0 (map (fun a => cov_reals (snd a) ms) assets) =
  INR (length assets) * cov_reals ms ms.
Proof.
  intros Hne Hn Hlen ms.
  assert (Hms : length ms = n) by apply length_market_proxy.
  assert (Hmne : ms <> []) by (intros E; rewrite E in Hms; simpl in Hms; lia).
  assert (Hk : INR (length assets) <> 0).
  { apply not_0_INR. destruct assets; [contradiction | discriminate]. }
  set (d := fun t => nth t ms 0 - mean_reals ms).
  transitivity
    (fold_right Rplus 0
       (map (fun a => fold_right Rplus 0
                        (map (fun t => nth t (snd a) 0 * d t) (seq 0 n))
                      * / INR (n - 1)) assets)).
  { f_equal. apply map_ext_Forall. eapply Forall_impl; [exact Hlen|].
    intros a Ha. cbn beta in Ha.
    rewrite cov_reals_index by (rewrite ?Hms; auto). now rewrite Ha. }
  rewrite sum_map_scale, sum_map_swap.
  rewrite (cov_reals_index ms ms eq_refl Hmne), Hms. fold d.
  unfold Rdiv. rewrite <- Rmult_assoc. f_equal.
  rewrite Rmult_comm, <- sum_map_scale. f_equal. apply map_ext_in. intros t Ht.
  apply in_seq in Ht. rewrite sum_map_scale.
  assert (Hsum : fold_right Rplus 0 (map (fun a => nth t (snd a) 0) assets) =
                 INR (length assets) * nth t ms 0).
  { unfold ms. rewrite nth_market_proxy by lia. unfold mean_reals.
    rewrite length_map. field. exact Hk. }
  rewrite Hsum. unfold d. ring.
Qed.

(** X13.  Called on a table of finite returns without a market table
    (at least two rows, no asset called "mkt", a market proxy that is not
    constant), [capm_return] gives every asset
    [risk_free_rate + beta * (market_return - risk_free_rate)] with the
    sample beta against the row-wise mean of the returns, and these
    betas average to exactly 1 over the assets.  So the average of the
    returned values is the annualised return of the market proxy
    itself. *)
Theorem capm_betas_average_to_one (s : store) (l : loc) (idx : list Z)
    (assets : list (label * list R)) (risk_free_rate : R)
    (compounding : bool) (frequency : R) :
  s !! l = Some (real_frame idx assets) ->
  assets <> [] ->
  (2 <= length idx)%nat ->
  Forall (fun a => length (snd a) = length idx) assets ->
  "mkt" ∉ map fst assets ->
  let ms := market_proxy (length idx) assets in
  cov_reals ms ms <> 0 ->
  exists market_return,
    fst (mean_historical_return 0%nat true compounding frequency
           (single_table (mkDF idx [("mkt", map Num ms)]))) =
      ok [("mkt", market_return)] /\
    fst (capm_return l None true risk_free_rate compounding frequency s) =
      ok (map (fun a =>
                 (fst a,
                  fadd (Num risk_free_rate)
                       (fmul (Num (beta (snd a) ms))
                             (fsub market_return (Num risk_free_rate)))))
              assets) /\
    mean_reals (map (fun a => beta (snd a) ms) assets) = 1 /\
    (forall m, market_return = Num m ->
       exists out values,
         fst (capm_return l None true risk_free_rate compounding frequency s) =
           ok out /\
         map snd out = map Num values /\
         mean_reals values = m).
Proof.
  intros Hl Hne Hn Hlen Hmkt ms Hvar.
  assert (Hcr : columns (real_frame idx assets) = map fst assets).
  { unfold real_frame, columns. cbn [cols]. now rewrite map_map. }
  assert (Hms : length ms = length idx) by apply length_market_proxy.
  assert (Hk : INR (length assets) <> 0).
  { apply not_0_INR. destruct assets; [contradiction | discriminate]. }
  assert (Hbetas : fold_right Rplus 0 (map (fun a => beta (snd a) ms) assets) =
                   INR (length assets)).
  { unfold beta, Rdiv. rewrite sum_map_scale.
    pose proof (proxy_covariances (length idx) assets Hne ltac:(lia) Hlen) as Hp.
    cbv zeta in Hp. fold ms in Hp. rewrite Hp. field. exact Hvar. }
  eexists. split; [apply market_mean_is_historical_mean|].
  match goal with |- ?A /\ _ => assert (Hout : A) end.
  { rewrite capm_return_phases. unfold mbind at 1.
    rewrite (capm_market_frame_none s l _ true Hl). cbv zeta. mstep.
    erewrite load_some by apply lookup_insert_eq. mstep.
    rewrite (row_means_real idx assets Hne Hlen). fold ms.
    rewrite cols_setitem_new by now rewrite Hcr.
    rewrite (capm_pricing_value _ _ _ _ (map Num ms)).
    2:{ cbn [cols].
        rewrite assoc_app_notin
          by (fold (columns (real_frame idx assets)); now rewrite Hcr).
        cbn [assoc fst snd].
        destruct (decide ("mkt" = "mkt")); [reflexivity | contradiction]. }
    cbn [fst cols]. unfold cov_of.
    rewrite filter_not_mkt_app
      by (fold (columns (real_frame idx assets)); now rewrite Hcr).
    rewrite no_missing_real.
    unfold real_frame. cbn [cols]. rewrite map_map. cbn [fst snd].
    f_equal. apply map_ext_Forall. eapply Forall_impl; [exact Hlen|].
    intros a Ha. cbn beta in Ha. f_equal. f_equal. f_equal.
    rewrite !sample_cov_nums by lia.
    rewrite fdiv_num by exact Hvar. reflexivity. }
  split; [exact Hout|]. split.
  - unfold mean_reals. rewrite Hbetas, length_map. field. exact Hk.
  - intros m Hm. rewrite Hm in Hout. eexists.
    exists (map (fun a => risk_free_rate +
                          beta (snd a) ms * (m + - risk_free_rate)) assets).
    split; [exact Hout|]. split; [now rewrite !map_map|].
    unfold mean_reals. rewrite length_map.
    rewrite sum_map_add, sum_map_scale, Hbetas.
    replace (fold_right Rplus 0 (map (fun _ => risk_free_rate) assets))
      with (INR (length assets) * risk_free_rate).
    + field. exact Hk.
    + clear. induction assets as [|a assets IH]; [simpl; ring|].
      change (length (a :: assets)) with (S (length assets)).
      rewrite S_INR. cbn [map fold_right]. rewrite <- IH. ring.
Qed.

(** ** What the estimators leave alone *)

Lemma capm_return_prices_preserve (s : store) prices df market_prices rf
    (compounding : bool) frequency l' d' :
  s !! prices = Some df ->
  match market_prices with
  | Some mp => exists mdf, s !! mp = Some mdf
  | None => True
  end ->
  s !! l' = Some d' ->
  snd (capm_return prices market_prices false rf compounding frequency s) !! l'
  = Some d'.
Proof.
  intros Hp Hm H'. rewrite capm_return_phases. unfold mbind at 1.
  destruct market_prices as [mp|].
  - destruct Hm as [mdf Hm]. unfold capm_market_frame. mstep.
    rewrite (returns_of_spec s prices df Hp). mstep.
    set (r := dropna_all (pct_change df)).
    set (l1 := fresh (dom s)). set (s1 := <[l1 := r]> s).
    assert (H1 : s1 !! l' = Some d') by now apply insert_fresh_preserves.
    assert (Hm1 : s1 !! mp = Some mdf) by now apply insert_fresh_preserves.
    rewrite (returns_of_spec s1 mp mdf Hm1). mstep.
    rewrite load_after_alloc. mstep.
    set (m := dropna_all (pct_change mdf)).
    set (l2 := fresh (dom s1)). set (s2 := <[l2 := m]> s1).
    assert (H2 : s2 !! l' = Some d') by now apply insert_fresh_preserves.
    assert (Hl2 : l2 <> l') by (apply (fresh_loc_ne s1 l' d'); exact H1).
    assert (Hl12 : l2 <> l1).
    { apply (fresh_loc_ne s1 l1 r). apply lookup_insert_eq. }
    destruct (set_columns ["mkt"] m) as [e|m']; [exact H2|].
    mstep. unfold update. mstep.
    set (s3 := <[l2 := m']> s2).
    assert (H3 : s3 !! l' = Some d').
    { unfold s3. rewrite lookup_insert_ne by exact Hl2. exact H2. }
    erewrite (load_some s3 l1 r);
      [|unfold s3, s2, s1; rewrite !lookup_insert_ne by auto;
        apply lookup_insert_eq].
    mstep. rewrite (load_some s3 l2 m' (lookup_insert_eq _ _ _)). mstep.
    destruct (join_left r m') as [e|j]; [exact H3|].
    unfold alloc. mstep. rewrite load_after_alloc. mstep.
    destruct (capm_pricing j rf compounding frequency); cbn [snd];
      now apply insert_fresh_preserves.
  - rewrite (capm_market_frame_none s prices df false Hp). cbv zeta. mstep.
    erewrite load_some by apply lookup_insert_eq. mstep.
    cbn [snd]. rewrite insert_insert_eq. now apply insert_fresh_preserves.
Qed.

(** X14.  Called on prices, the three estimators change no table the
    caller holds, whether they return or raise: the returns, the market
    column and the joined table live in tables of their own.
    [mean_historical_return] and [ema_historical_return] keep this also
    when they are called on returns. *)
Theorem estimators_preserve_tables (s : store) (prices l' : loc)
    (df d' : DataFrame) :
  s !! prices = Some df ->
  s !! l' = Some d' ->
  (forall returns_data compounding frequency,
     snd (mean_historical_return prices returns_data compounding frequency s)
       !! l' = Some d') /\
  (forall returns_data compounding span frequency,
     snd (ema_historical_return prices returns_data compounding span frequency s)
       !! l' = Some d') /\
  (forall risk_free_rate compounding frequency,
     snd (capm_return prices None false risk_free_rate compounding frequency s)
       !! l' = Some d') /\
  (forall mp mdf risk_free_rate compounding frequency,
     s !! mp = Some mdf ->
     snd (capm_return prices (Some mp) false risk_free_rate compounding
            frequency s) !! l' = Some d').
Proof.
  intros Hp H'. split; [|split; [|split]].
  - intros. now apply (mean_historical_return_frame s prices df).
  - intros. now apply (ema_historical_return_frame s prices df).
  - intros. now apply (capm_return_prices_preserve s prices df None).
  - intros mp mdf rf c f Hm.
    apply (capm_return_prices_preserve s prices df (Some mp)); eauto.
Qed.

(** ** The rows of the distributed path *)

(** X15.  Take a Spark table with a timestamp column "date_index" in
    front of double columns whose names Spark reads as they are written
    (no dot, no backquote, not the star) and that differ from each
    other, from "date_index" and from "tmp_lag_1" when case is ignored,
    holding one row per date in any order.  The distributed path of
    [returns_from_prices] succeeds on it whatever the cells hold.  It
    keeps the schema and every row, now in ascending order of the dates
    (the in-memory path drops the first one); every price cell becomes
    the return computed from the cell and the cell of the same column
    one date before, and the cells of the first date become null.  A
    table without price columns is returned as it is. *)
Theorem distributed_path_rows (log_returns : bool) (names : list label)
    (ds : list Z) (rows cells : list (list sval)) :
  Forall (fun n => plain_name n = true) names ->
  List.NoDup (map lower ("date_index" :: "tmp_lag_1" :: names)) ->
  ascending ds ->
  Permutation rows (spark_rows ds cells) ->
  length cells = length ds ->
  Forall (fun c => length c = length names) cells ->
  let sdf := mkSDF (spark_schema names) rows in
  (names = [] ->
   returns_from_prices (Spark sdf) log_returns true = ok (Spark sdf)) /\
  (names <> [] ->
   exists cells',
     returns_from_prices (Spark sdf) log_returns true =
       ok (Spark (mkSDF (spark_schema names) (spark_rows ds cells'))) /\
     length cells' = length ds /\
     (forall i j, (i < length ds)%nat -> (j < length names)%nat ->
        cell_at cells' i j =
        spark_return log_returns (cell_at cells i j) (cell_before cells i j)) /\
     (forall j, (j < length names)%nat -> (0 < length ds)%nat ->
        cell_at cells' 0 j = SNull)).
Proof.
  intros Hplain Hdistinct Hasc Hperm Hlen Hw sdf.
  destruct (distinct_names_split _ Hdistinct) as (Hdist & _).
  assert (Hsort : sort_rows 0 rows = spark_rows ds cells)
    by now apply sort_rows_canonical.
  pose proof (spark_return_loop_cells log_returns names ds Hplain Hdist Hasc
                (length names) 0%nat rows cells eq_refl Hsort Hlen Hw) as Hloop.
  change (skipn 0 names) with names in Hloop.
  assert (Hrun : returns_from_prices (Spark sdf) log_returns true =
                 rbind (spark_return_loop log_returns names sdf)
                       (fun r => ok (Spark r))).
  { unfold returns_from_prices, has_date_index, sdf.
    cbn [is_spark_frame andb negb table_columns].
    rewrite scolumns_spark_schema.
    rewrite bool_decide_eq_true_2 by apply list_elem_of_here.
    cbn [negb andb list_remove].
    destruct (decide ("date_index" = "date_index")); [|contradiction].
    assert (Hb : forall (b : bool) (X Y Z : result table),
               (if b && false then X else if negb b && false then Y else Z) = Z)
      by (intros [|]; reflexivity).
    now rewrite Hb. }
  assert (Hcells : forall i j, (i < length ds)%nat -> (j < length names)%nat ->
            cell_at (loop_cells log_returns (seq 0 (length names)) cells) i j =
            spark_return log_returns (cell_at cells i j) (cell_before cells i j)).
  { intros i j Hi Hj. rewrite (cell_at_loop log_returns (length names)).
    - destruct (in_dec Nat.eq_dec j (seq 0 (length names))) as [_|Hn];
        [reflexivity|].
      exfalso. apply Hn. apply in_seq. lia.
    - apply seq_NoDup.
    - apply List.Forall_forall. intros x Hx. apply in_seq in Hx. lia.
    - lia.
    - exact Hw. }
  split.
  - intros ->. rewrite Hrun. reflexivity.
  - intros Hne. rewrite Hrun. unfold sdf. rewrite Hloop.
    destruct (length names) as [|k] eqn:Ek.
    { destruct names; [contradiction | discriminate]. }
    rewrite <- Ek in *. eexists. split; [reflexivity|].
    split; [now rewrite length_loop_cells|]. split; [exact Hcells|].
    intros j Hj Hd. rewrite Hcells by assumption. apply spark_return_first.
Qed.

(** ** Compounding on prices *)

(** The gross returns of a run of prices multiply to last over first. *)
Lemma gross_returns_telescope p0 ps :
  Forall (fun p => 0 < p) (p0 :: ps) ->
  fold_right Rmult 1
    (map (fun r => 1 + r) (zip_with (fun p q => p / q - 1) ps (p0 :: ps))) =
  List.last (p0 :: ps) 0 / p0.
Proof.
  revert p0. induction ps as [|p ps IH]; intros p0 Hpos.
  - inversion Hpos; subst. cbn. field. lra.
  - inversion Hpos as [|? ? Hp0 Hrest]; subst.
    cbn [zip_with map fold_right]. rewrite (IH p Hrest).
    inversion Hrest; subst.
    change (List.last (p0 :: p :: ps) 0) with (List.last (p :: ps) 0).
    field. lra.
Qed.

Lemma last_pos p0 ps :
  Forall (fun p => 0 < p) (p0 :: ps) -> 0 < List.last (p0 :: ps) 0.
Proof.
  intros H. rewrite List.Forall_forall in H. apply H.
  destruct (exists_last (l := p0 :: ps) ltac:(discriminate)) as (l' & a & E).
  rewrite E, last_last. apply in_or_app. right. now left.
Qed.

(** X16.  With compounding, [mean_historical_return] on a table of
    finite prices above zero with at least two rows gives every asset
    its compound growth rate: the last price over the first, raised to
    the frequency over the number of returns, minus 1.  The prices in
    between do not matter. *)
Theorem mean_historical_return_growth_rate (s : store) (l : loc)
    (df : DataFrame) (frequency : R) (m : nat) :
  s !! l = Some df ->
  well_formed df ->
  nrows df = S (S m) ->
  positive_prices df ->
  exists out,
    fst (mean_historical_return l false true frequency s) = ok out /\
    map fst out = columns df /\
    forall j name first last,
      nth_error (columns df) j = Some name ->
      lookup_cell df j 0 = Some (Num first) ->
      lookup_cell df j (S m) = Some (Num last) ->
      nth_error out j =
      Some (name, Num (Rpower (last / first) (frequency / INR (S m)) - 1)).
Proof.
  intros H Hwf Hn Hpos.
  rewrite (mean_historical_return_run s l df false true frequency H).
  cbn [fst]. eexists. split; [reflexivity|].
  change (undropped_returns false df) with (pct_change df).
  split.
  { rewrite map_map. cbn [fst]. apply columns_returns. }
  intros j name first last Hname Hfirst Hlast.
  unfold columns in Hname. rewrite nth_error_map in Hname.
  unfold lookup_cell in Hfirst, Hlast.
  destruct (nth_error (cols df) j) as [c|] eqn:Hc; [|discriminate].
  injection Hname as Hname.
  assert (Hne : cols df <> [])
    by (intros E; rewrite E in Hc; destruct j; discriminate).
  destruct (returns_frame_shape false df (S m) Hwf Hn Hne Hpos) as [Hcols _].
  cbv zeta in Hcols.
  destruct (Forall2_nth_error_l _ _ _ _ _ Hcols Hc)
    as (c' & Hc' & Hfst & p0 & ps & Hsnd & Hlen & Hp & Hsnd').
  rewrite nth_error_map, Hc'. cbn [option_map]. rewrite Hfst, Hname.
  do 2 f_equal. rewrite Hsnd'.
  rewrite col_prod_gross_nums, col_count_nums, gross_returns_telescope by exact Hp.
  rewrite length_zip_with. cbn [length]. rewrite Hlen.
  replace (S m `min` S (S m))%nat with (S m) by lia.
  rewrite Hsnd in Hfirst, Hlast.
  cbn [map nth_error] in Hfirst. injection Hfirst as <-.
  assert (Hl : List.last (p0 :: ps) 0 = last).
  { destruct (exists_last (l := p0 :: ps) ltac:(discriminate)) as (l' & a & E).
    rewrite E, last_last. rewrite E in Hlast.
    assert (Hll : length l' = S m).
    { apply (f_equal (@length R)) in E. rewrite length_app in E.
      cbn [length] in E. lia. }
    rewrite map_app, nth_error_app2 in Hlast by (rewrite length_map; lia).
    rewrite length_map, Hll, Nat.sub_diag in Hlast. cbn in Hlast.
    now injection Hlast. }
  pose proof (last_pos p0 ps Hp) as Hlp. rewrite Hl in *.
  assert (Hp0 : 0 < p0) by (inversion Hp; assumption).
  assert (Hm : INR (S m) <> 0) by (apply not_0_INR; discriminate).
  assert (Hq : 0 < last / p0) by now apply Rdiv_lt_0_compat.
  rewrite fdiv_num by exact Hm.
  destruct (Req_dec_T frequency 0) as [->|Hf].
  - unfold fpow. rewrite Reqb_true by (unfold Rdiv; ring).
    replace (0 / INR (S m)) with 0 by (unfold Rdiv; ring).
    rewrite Rpower_O by exact Hq. reflexivity.
  - rewrite fpow_pos; [reflexivity | exact Hq |].
    intros H0. apply Hf.
    replace frequency with (frequency / INR (S m) * INR (S m))
      by (field; exact Hm).
    rewrite H0. ring.
Qed.

(** ** The dispatcher and the tables of the caller *)

(** X17.  Whatever the method name and the keyword options, as long as
    [returns_data] is not set and a market table that is passed is a
    table the caller holds, [return_model] changes no table of the
    caller: not when an estimator returns, not when it raises, and not
    when the method or an option is refused. *)
Theorem return_model_preserves_tables (s : store) (prices l' : loc)
    (df d' : DataFrame) (method : string) (kw : kwargs) :
  s !! prices = Some df ->
  s !! l' = Some d' ->
  kw_returns_data kw <> Some true ->
  (forall mp, kw_market_prices kw = Some (Some mp) ->
              exists mdf, s !! mp = Some mdf) ->
  snd (return_model prices method kw s) !! l' = Some d'.
Proof.
  intros Hp H' Hrd Hmp. unfold return_model.
  destruct (decide (method = "mean_historical_return")) as [_|_];
    [|destruct (decide (method = "ema_historical_return")) as [_|_];
      [|destruct (decide (method = "capm_return")) as [_|_]]].
  - unfold call_mean_historical_return, unexpected_keyword.
    destruct (given (kw_span kw)); [exact H'|].
    destruct (given (kw_market_prices kw)); [exact H'|].
    destruct (given (kw_risk_free_rate kw)); [exact H'|].
    now apply (mean_historical_return_frame s prices df).
  - unfold call_ema_historical_return, unexpected_keyword.
    destruct (given (kw_market_prices kw)); [exact H'|].
    destruct (given (kw_risk_free_rate kw)); [exact H'|].
    now apply (ema_historical_return_frame s prices df).
  - unfold call_capm_return, unexpected_keyword.
    destruct (given (kw_span kw)); [exact H'|].
    assert (Hfalse : default false (kw_returns_data kw) = false).
    { destruct (kw_returns_data kw) as [[|]|]; [congruence | reflexivity..]. }
    rewrite Hfalse.
    apply (capm_return_prices_preserve s prices df); [exact Hp | | exact H'].
    destruct (kw_market_prices kw) as [[mp|]|] eqn:Em; cbn [default];
      [now apply Hmp | exact I..].
  - exact H'.
Qed.

(** ** The distributed path against the in-memory path *)

(** X18.  The two paths agree where the distributed one resolves the
    names.  Take a pandas table of finite prices above
    zero, with dates in ascending order and column names that Spark
    reads as they are written (no dot, no backquote, not the star) and
    that differ from each other, from "date_index" and from "tmp_lag_1"
    when case is ignored; and a Spark table with the same rows, in any
    order, behind a column "date_index".  Both paths of
    [returns_from_prices] succeed, under either convention, and hold the
    same return for every asset at every date: the same real number, or
    none (no row in the pandas result, a null in the Spark result) as
    for the first date. *)
Theorem distributed_matches_in_memory (df : DataFrame) (sdf : SparkDataFrame)
    (log_returns : bool) :
  well_formed df ->
  positive_prices df ->
  Forall (fun n => plain_name n = true) (columns df) ->
  List.NoDup (map lower ("date_index" :: "tmp_lag_1" :: columns df)) ->
  ascending (index df) ->
  schema sdf = schema (to_spark df) ->
  Permutation (srows sdf) (srows (to_spark df)) ->
  exists r out,
    returns_from_prices (Pandas df) log_returns false = ok (Pandas r) /\
    returns_from_prices (Spark sdf) log_returns true = ok (Spark out) /\
    forall d name,
      In name (columns df) ->
      spark_value out d name = pandas_value r d name.
Proof.
  intros Hwf Hpos Hplain Hdistinct Hasc Hschema Hperm.
  destruct (distinct_names_split _ Hdistinct) as (_ & Hnd & Hdi & Htmp).
  destruct sdf as [sch rows]. cbn [schema srows to_spark] in Hschema, Hperm.
  subst sch.
  destruct (spark_side log_returns df rows Hplain Hdistinct Hasc Hperm)
    as (out & Hout & Hval).
  set (raw := if log_returns
              then map_frame flog (map_frame (fadd (Num 1)) (pct_change df))
              else pct_change df).
  exists (dropna_all raw), out. split; [|split; [exact Hout|]].
  { unfold returns_from_prices, raw. cbn [is_spark_frame andb negb].
    destruct log_returns; reflexivity. }
  intros d name Hin.
  destruct (In_nth_error _ _ Hin) as [j Hj].
  rewrite (Hval d name j Hj). clear Hval Hout.
  assert (Hraw_idx : index raw = index df) by (unfold raw; now destruct log_returns).
  unfold columns in Hj. rewrite nth_error_map in Hj.
  destruct (nth_error (cols df) j) as [c|] eqn:Hc; [|discriminate].
  injection Hj as Hname.
  destruct (nrows df) as [|m] eqn:En.
  - (* no rows at all *)
    unfold nrows in En. apply length_zero_iff_nil in En.
    unfold pandas_value, dropna_all. cbn [index]. rewrite Hraw_idx, En.
    now rewrite mask_filter_nil_r.
  - assert (Hne : cols df <> []) by (intros E; rewrite E in Hc; destruct j; discriminate).
    destruct (returns_frame_shape log_returns df m Hwf En Hne Hpos) as [Hcols Hidx].
    cbv zeta in Hcols, Hidx. fold raw in Hcols, Hidx.
    destruct (Forall2_nth_error_l _ _ _ _ _ Hcols Hc)
      as (c' & Hc' & Hfst & p0 & ps & Hsnd & Hlen & Hp & Hsnd').
    assert (Hassoc : assoc name (cols (dropna_all raw)) = Some (snd c')).
    { rewrite <- Hname, <- Hfst. apply (assoc_nth _ j); [|exact Hc'].
      rewrite (Forall2_map_fst _ _ _ Hcols). exact Hnd. }
    unfold pandas_value. rewrite Hassoc, Hidx.
    unfold nrows in En.
    destruct (index df) as [|d0 ds] eqn:Eidx; [discriminate|].
    cbn [tl]. rewrite (index_pos_tail d d0 ds Hasc).
    destruct (index_pos d (d0 :: ds)) as [[|i]|] eqn:Ei; try reflexivity.
    + cbn [cell_before]. now rewrite spark_return_first.
    + destruct (index_pos_bound _ _ _ Ei) as [Hi _].
      assert (Him : (i < length ps)%nat) by (simpl in Hi, En; lia).
      cbn [cell_before].
      rewrite (cell_at_price_cells df (S i) j c), (cell_at_price_cells df i j c)
        by (auto; unfold nrows; rewrite Eidx; simpl in *; lia).
      rewrite Hsnd, !cell_nums by (simpl; lia).
      rewrite List.Forall_forall in Hp.
      destruct (spark_return_nums log_returns
                  (nth (S i) (p0 :: ps) 0) (nth i (p0 :: ps) 0))
        as (x & -> & ->).
      * apply Hp. apply nth_In. simpl. lia.
      * apply Hp. apply nth_In. simpl. lia.
      * rewrite Hsnd', cell_nums.
        2:{ change ps with (tl (p0 :: ps)) at 1. rewrite length_zip_with_tl.
            simpl. exact Him. }
        cbn [finite_value]. f_equal.
        assert (Hz : nth_error
                       (zip_with (fun p q => if log_returns then ln (p / q)
                                             else p / q - 1) ps (p0 :: ps)) i =
                     Some (if log_returns
                           then ln (nth (S i) (p0 :: ps) 0 / nth i (p0 :: ps) 0)
                           else nth (S i) (p0 :: ps) 0 / nth i (p0 :: ps) 0 - 1)).
        { apply (nth_error_zip_with
                   (fun p q => if log_returns then ln (p / q) else p / q - 1)).
          - cbn [nth]. now apply nth_error_nth'.
          - apply nth_error_nth'. simpl. lia. }
        symmetry. apply nth_error_nth. exact Hz.
Qed.

(** ** Instances on concrete tables *)

Lemma returns_from_prices_cellwise_witness :
  exists r,
    returns_from_prices (Pandas (one_asset 100 110 121)) false false
    = ok (Pandas r) /\
    index r = [1%Z; 2%Z] /\
    lookup_cell r 0 0 = Some (Num (110 / 100 - 1)).
Proof.
  destruct (returns_from_prices_cellwise (one_asset 100 110 121) false
              (one_asset_well_formed _ _ _)
              ltac:(unfold nrows; simpl; lia) ltac:(discriminate)
              ltac:(apply one_asset_positive; lra))
    as (r & Hr & Hi & _ & _ & _ & Hcell).
  - exists r. split; [exact Hr|]. split; [exact Hi|].
    apply (Hcell 0%nat 0%nat 110 100); reflexivity.
Defined.

Lemma mean_historical_return_spec_witness :
  fst (mean_historical_return 0%nat true true 4
         (single_table (mkDF [0%Z; 1%Z] [("A", [Num 0.1; Num 0.21])]))) =
  ok [("A", Num 0.771561)].
Proof.
  destruct (proj1 (mean_historical_return_spec
                     (single_table (mkDF [0%Z; 1%Z] [("A", [Num 0.1; Num 0.21])]))
                     0%nat (mkDF [0%Z; 1%Z] [("A", [Num 0.1; Num 0.21])])
                     true true 4 (lookup_singleton_eq _ _)))
    as (out & Hrun & Hlabels & Hval).
  rewrite Hrun. cbn [fst].
  specialize (Hval 0%nat "A" [Num 0.1; Num 0.21] [0.1; 0.21] eq_refl eq_refl
                ltac:(discriminate) ltac:(intros _; repeat constructor; lra)).
  destruct out as [|[n v] [|e out]]; try discriminate.
  cbn [nth_error] in Hval. injection Hval as -> ->.
  do 4 f_equal.
  replace (4 / (1 + 1)) with (INR 2) by (simpl; lra).
  rewrite Rpower_pow by lra. lra.
Defined.


Lemma prices_from_returns_roundtrip_witness :
  exists r q,
    returns_from_prices (Pandas (one_asset 100 110 132)) false false
    = ok (Pandas r) /\
    prices_from_returns r false = ok q /\
    index q = [1%Z; 2%Z] /\
    lookup_cell q 0 1 = Some (Num (132 / 110)).
Proof.
  destruct (prices_from_returns_roundtrip (one_asset 100 110 132) false
              (one_asset_well_formed _ _ _)
              ltac:(unfold nrows; simpl; lia) ltac:(discriminate)
              ltac:(apply one_asset_positive; lra))
    as (r & q & Hr & Hq & Hi & _ & _ & Hcell).
  - exists r, q. split; [exact Hr|]. split; [exact Hq|]. split; [exact Hi|].
    apply (Hcell 0%nat 1%nat 132 110); reflexivity.
Defined.

Lemma capm_market_proxy_witness :
  exists lc s',
    capm_market_frame 0%nat None true (single_table (one_asset 0.1 0.2 0.3))
    = (ok lc, s') /\
    s' !! lc =
    Some (mkDF [0%Z; 1%Z; 2%Z]
               [("A", [Num 0.1; Num 0.2; Num 0.3]);
                ("mkt", row_means (one_asset 0.1 0.2 0.3))]).
Proof.
  destruct (capm_market_proxy (single_table (one_asset 0.1 0.2 0.3)) 0%nat true
              0.02 true 252 (one_asset 0.1 0.2 0.3)
              (lookup_singleton_eq _ _)
              ltac:(intros Hin; apply list_elem_of_singleton in Hin;
                    discriminate))
    as (lc & s' & Hrun & Hlc & _).
  - exists lc, s'. split; [exact Hrun | exact Hlc].
Defined.

Lemma ema_historical_return_spec_witness :
  fst (ema_historical_return 0%nat true false 3 252
         (single_table (one_asset 0.1 0.2 0.3))) =
  ok [("A", Num 61.2)].
Proof.
  destruct (ema_historical_return_spec
              (single_table (one_asset 0.1 0.2 0.3)) 0%nat
              (one_asset 0.1 0.2 0.3) true false 3 252 2
              (lookup_singleton_eq _ _) ltac:(lra) eq_refl)
    as (Hrun & Hval & _).
  rewrite Hrun. cbn [one_asset cols]. change (map ?g [?x]) with [g x].
  cbn [fst snd].
  change [Num 0.1; Num 0.2; Num 0.3] with (map Num [0.1; 0.2; 0.3]).
  rewrite (Hval [0.1; 0.2; 0.3] eq_refl ltac:(discriminate)).
  do 4 f_equal. cbn [seq map fold_right nth Nat.sub pow]. lra.
Defined.

Lemma return_model_dispatch_witness :
  exists msg,
    return_model 0%nat "james_stein_shrinkage" no_kwargs
      (single_table (one_asset 100 110 121)) =
    (raise "NotImplementedError" msg, single_table (one_asset 100 110 121)).
Proof.
  eexists.
  apply (return_model_dispatch 0%nat "james_stein_shrinkage" no_kwargs
           (single_table (one_asset 100 110 121))); discriminate.
Defined.

Lemma returns_from_prices_misuse_witness :
  exists msg,
    returns_from_prices (Pandas (one_asset 100 110 121)) true true
    = raise "RuntimeError" msg.
Proof.
  apply (returns_from_prices_misuse (Pandas (one_asset 100 110 121)) true).
  left. reflexivity.
Defined.

(** ** Instances of the further properties *)

Lemma returns_from_prices_in_memory_shape_witness :
  exists r,
    returns_from_prices (Pandas (one_asset 100 110 121)) true false
    = ok (Pandas r) /\
    columns r = ["A"] /\
    (nrows r < 3)%nat.
Proof.
  destruct (returns_from_prices_in_memory_shape (one_asset 100 110 121) true
              (one_asset_well_formed _ _ _))
    as (r & Hr & Hc & _ & Hn & _).
  exists r. split; [exact Hr|]. split; [exact Hc|].
  apply Hn. unfold nrows. simpl. lia.
Defined.

Lemma prices_from_returns_anchor_witness :
  exists q,
    prices_from_returns (one_asset 0.1 0.2 0.3) false = ok q /\
    lookup_cell q 0 0 = Some (Num 1).
Proof.
  destruct (proj2 (prices_from_returns_anchor (one_asset 0.1 0.2 0.3) false)
              ltac:(discriminate) (one_asset_well_formed _ _ _))
    as (q & Hq & _ & _ & _ & Hcell).
  exists q. split; [exact Hq|]. apply Hcell. simpl. lia.
Defined.

Lemma prices_from_undropped_returns_witness :
  exists q,
    prices_from_returns (undropped_returns false (one_asset 100 110 121)) false
    = ok q /\
    index q = [0%Z; 1%Z; 2%Z] /\
    lookup_cell q 0 2 = Some (Num (121 / 100)).
Proof.
  destruct (prices_from_undropped_returns (one_asset 100 110 121) false
              (one_asset_well_formed _ _ _)
              ltac:(unfold nrows; simpl; lia)
              ltac:(apply one_asset_positive; lra))
    as (q & Hq & Hi & _ & Hcell).
  exists q. split; [exact Hq|]. split; [exact Hi|].
  apply (Hcell 0%nat 2%nat 121 100); reflexivity.
Defined.

Lemma returns_prices_returns_witness :
  exists q r,
    prices_from_returns (one_asset 0.1 0.2 0.3) false = ok q /\
    returns_from_prices (Pandas q) false false = ok (Pandas r) /\
    index r = [1%Z; 2%Z] /\
    lookup_cell r 0 1 = Some (Num 0.3).
Proof.
  destruct (returns_prices_returns (one_asset 0.1 0.2 0.3) false
              (one_asset_well_formed _ _ _) ltac:(discriminate)
              ltac:(repeat constructor; exists (Num 0.1), [0.2; 0.3];
                    split; [reflexivity|]; intros _; repeat constructor; lra))
    as (q & r & Hq & Hr & Hi & _ & Hcell).
  exists q, r. split; [exact Hq|]. split; [exact Hr|]. split; [exact Hi|].
  apply (Hcell 0%nat 1%nat 0.3). reflexivity.
Defined.

Lemma returns_scale_invariant_witness :
  returns_from_prices (Pandas (scale_prices 2 (one_asset 100 110 121))) true false =
  returns_from_prices (Pandas (one_asset 100 110 121)) true false.
Proof.
  apply (returns_scale_invariant (one_asset 100 110 121) 2 true).
  - apply one_asset_well_formed.
  - apply one_asset_positive; lra.
  - lra.
Defined.

Lemma mean_historical_return_total_witness :
  fst (mean_historical_return 0%nat false true 252
         (single_table (mkDF [0%Z] [("A", [Num 100])]))) = ok [("A", Num 0)].
Proof.
  destruct (mean_historical_return_total
              (single_table (mkDF [0%Z] [("A", [Num 100])])) 0%nat
              (mkDF [0%Z] [("A", [Num 100])]) false true 252
              (lookup_singleton_eq _ _))
    as (out & s' & Hrun & _ & _ & Hout).
  rewrite Hrun. cbn [fst]. f_equal.
  apply Hout; [reflexivity | repeat constructor | unfold nrows; simpl; lia].
Defined.

Lemma ema_historical_return_failures_witness :
  exists msg,
    fst (ema_historical_return 0%nat false true 500 252
           (single_table (mkDF [0%Z] [("A", [Num 100])]))) =
    raise "IndexError" msg.
Proof.
  destruct (ema_historical_return_failures
              (single_table (mkDF [0%Z] [("A", [Num 100])])) 0%nat
              (mkDF [0%Z] [("A", [Num 100])]) false true 500 252
              (lookup_singleton_eq _ _))
    as (_ & _ & Hone & _).
  apply Hone; [lra | reflexivity | repeat constructor | unfold nrows; simpl; lia].
Defined.

Lemma ema_historical_return_weighted_average_witness :
  exists v arithmetic,
    0.1 <= v <= 0.3 /\
    fst (ema_historical_return 0%nat true false 500 252
           (single_table (one_asset 0.1 0.2 0.3))) = ok arithmetic /\
    nth_error arithmetic 0 = Some ("A", Num (v * 252)).
Proof.
  destruct (ema_historical_return_weighted_average
              (single_table (one_asset 0.1 0.2 0.3)) 0%nat
              (one_asset 0.1 0.2 0.3) 500 252 2 0 "A" [0.1; 0.2; 0.3] 0.1 0.3
              (lookup_singleton_eq _ _) ltac:(lra) eq_refl eq_refl eq_refl
              ltac:(repeat constructor; lra))
    as (v & a & c & Hb & _ & Ha & Hv & _).
  exists v, a. split; [exact Hb|]. split; [exact Ha | exact Hv].
Defined.

Lemma estimators_agree_on_constant_returns_witness :
  fst (mean_historical_return 0%nat true true 252
         (single_table (constant_returns [0%Z; 1%Z; 2%Z] [("A", 0.1)]))) =
  fst (ema_historical_return 0%nat true true 500 252
         (single_table (constant_returns [0%Z; 1%Z; 2%Z] [("A", 0.1)]))).
Proof.
  destruct (estimators_agree_on_constant_returns
              (single_table (constant_returns [0%Z; 1%Z; 2%Z] [("A", 0.1)]))
              0%nat [0%Z; 1%Z; 2%Z] [("A", 0.1)] true 500 252
              (lookup_singleton_eq _ _) ltac:(discriminate) ltac:(lra)
              ltac:(repeat constructor; simpl; lra))
    as [Hm He].
  rewrite Hm, He. reflexivity.
Defined.

Lemma capm_return_market_rejected_witness :
  fst (capm_return 0%nat (Some 0%nat) true 0.02 true 252
         (single_table (one_asset 0.1 0.2 0.3))) =
  raise "ValueError" "columns overlap but no suffix specified".
Proof.
  destruct (capm_return_market_rejected
              (single_table (one_asset 0.1 0.2 0.3)) 0%nat 0%nat
              (one_asset 0.1 0.2 0.3) (one_asset 0.1 0.2 0.3) true 0.02 true 252
              (lookup_singleton_eq _ _) (lookup_singleton_eq _ _))
    as [_ Hover].
  apply Hover; [reflexivity | right; split; reflexivity].
Defined.

Lemma capm_betas_average_to_one_witness :
  mean_reals
    (map (fun a => beta (snd a) (market_proxy 2 [("A", [0.1; 0.3])]))
         [("A", [0.1; 0.3])]) = 1.
Proof.
  destruct (capm_betas_average_to_one
              (single_table (real_frame [0%Z; 1%Z] [("A", [0.1; 0.3])])) 0%nat
              [0%Z; 1%Z] [("A", [0.1; 0.3])] 0.02 true 252
              (lookup_singleton_eq _ _) ltac:(discriminate)
              ltac:(simpl; lia) ltac:(repeat constructor)
              ltac:(intros Hin; apply list_elem_of_singleton in Hin; discriminate)
              ltac:(unfold cov_reals, market_proxy, mean_reals; simpl; lra))
    as (mr & _ & _ & Hb & _).
  exact Hb.
Defined.

Lemma estimators_preserve_tables_witness :
  snd (capm_return 0%nat None false 0.02 true 252
         (single_table (one_asset 100 110 121))) !! 0%nat =
  Some (one_asset 100 110 121).
Proof.
  destruct (estimators_preserve_tables
              (single_table (one_asset 100 110 121)) 0%nat 0%nat
              (one_asset 100 110 121) (one_asset 100 110 121)
              (lookup_singleton_eq _ _) (lookup_singleton_eq _ _))
    as (_ & _ & Hcapm & _).
  apply Hcapm.
Defined.

Lemma distributed_path_rows_witness :
  exists cells',
    returns_from_prices
      (Spark (mkSDF (spark_schema ["A"])
                    (spark_rows [0%Z; 1%Z]
                       [[SDouble (Num 100)]; [SDouble (Num 110)]])))
      false true =
    ok (Spark (mkSDF (spark_schema ["A"]) (spark_rows [0%Z; 1%Z] cells'))) /\
    length cells' = 2%nat /\
    cell_at cells' 0 0 = SNull.
Proof.
  destruct (distributed_path_rows false ["A"] [0%Z; 1%Z]
              (spark_rows [0%Z; 1%Z] [[SDouble (Num 100)]; [SDouble (Num 110)]])
              [[SDouble (Num 100)]; [SDouble (Num 110)]]
              ltac:(repeat constructor)
              ltac:(vm_compute;
                    repeat (constructor; [simpl; intuition discriminate|]);
                    constructor)
              ltac:(repeat constructor; lia)
              (Permutation_refl _) eq_refl ltac:(repeat constructor))
    as [_ Hrows].
  destruct (Hrows ltac:(discriminate)) as (cells' & Hrun & Hlen & _ & Hfirst).
  exists cells'. split; [exact Hrun|]. split; [exact Hlen|].
  apply Hfirst; simpl; lia.
Defined.

Lemma mean_historical_return_growth_rate_witness :
  exists out,
    fst (mean_historical_return 0%nat false true 2
           (single_table (one_asset 100 110 121))) = ok out /\
    nth_error out 0 = Some ("A", Num (Rpower (121 / 100) (2 / INR 2) - 1)).
Proof.
  destruct (mean_historical_return_growth_rate
              (single_table (one_asset 100 110 121)) 0%nat
              (one_asset 100 110 121) 2 1
              (lookup_singleton_eq _ _) (one_asset_well_formed _ _ _) eq_refl
              ltac:(apply one_asset_positive; lra))
    as (out & Hrun & _ & Hval).
  exists out. split; [exact Hrun|].
  apply (Hval 0%nat "A" 100 121); reflexivity.
Defined.

Lemma return_model_preserves_tables_witness :
  snd (return_model 0%nat "capm_return" no_kwargs
         (single_table (one_asset 100 110 121))) !! 0%nat =
  Some (one_asset 100 110 121).
Proof.
  apply (return_model_preserves_tables
           (single_table (one_asset 100 110 121)) 0%nat 0%nat
           (one_asset 100 110 121) (one_asset 100 110 121) "capm_return"
           no_kwargs (lookup_singleton_eq _ _) (lookup_singleton_eq _ _)).
  - discriminate.
  - intros mp Hmp. discriminate.
Defined.

Lemma distributed_matches_in_memory_witness :
  exists r out,
    returns_from_prices (Pandas (one_asset 100 110 121)) true false
    = ok (Pandas r) /\
    returns_from_prices
      (Spark (mkSDF (schema (to_spark (one_asset 100 110 121)))
                    (rev (srows (to_spark (one_asset 100 110 121))))))
      true true = ok (Spark out) /\
    forall d name,
      In name (columns (one_asset 100 110 121)) ->
      spark_value out d name = pandas_value r d name.
Proof.
  apply (distributed_matches_in_memory (one_asset 100 110 121)
           (mkSDF (schema (to_spark (one_asset 100 110 121)))
                  (rev (srows (to_spark (one_asset 100 110 121)))))
           true).
  - apply one_asset_well_formed.
  - apply one_asset_positive; lra.
  - repeat constructor.
  - vm_compute. repeat (constructor; [simpl; intuition discriminate|]).
    constructor.
  - repeat constructor; lia.
  - reflexivity.
  - symmetry. apply Permutation_rev.
Defined.
